(** * MeliDiscount: the load tester ([load_test.py]) and the fixture seeder
    ([main.py]), embedded as Rocq functions.

    Conventions of the embedding.
    - A Python [int] is a [Z]; a [str] is a [string] whose characters are
      read as the code points 0..255 (the message that [main.py] prints has
      characters beyond them: it is kept as the bytes of the source).
    - A [float] is a rational ([Q]), and the arithmetic of the program and
      of the library on floats rounds to binary64: [fl] gives the binary64
      number nearest to a rational, ties to the even significand, the
      subnormal numbers included. Overflow to infinity is left out: the
      properties of computed values are stated for numbers far below the
      largest binary64 number.
    - A call that can raise returns a [result].
    - The pseudo random generator, the clock, the file system and the HTTP
      server are explicit arguments. *)

From Stdlib Require Import ZArith QArith Qabs Qround Qpower Lqa Ascii.
From stdpp Require Import base tactics option list sorting strings pretty.

Local Open Scope string_scope.
Local Open Scope list_scope.
Local Open Scope Z_scope.

(** ** Python runtime *)

Inductive exn : Type :=
  | SystemExit (msg : string)
  | ValueError
  | IndexError
  | KeyError
  | OSError
  | UnicodeDecodeError
  | OverflowError
  | StatisticsError
  | TransportError.

Inductive result (A : Type) : Type :=
  | Ok (a : A)
  | Raise (e : exn).
Arguments Ok {A} a.
Arguments Raise {A} e.

Global Instance result_ret : MRet result := λ A a, Ok a.

Global Instance result_bind : MBind result := λ A B k r,
  match r with
  | Ok a => k a
  | Raise e => Raise e
  end.

(** [len(range(lo, hi, step))], as CPython computes it. *)
Definition range_len (lo hi step : Z) : Z :=
  if (0 <? step) && (lo <? hi) then 1 + (hi - 1 - lo) / step
  else if (step <? 0) && (hi <? lo) then 1 + (lo - 1 - hi) / (- step)
  else 0.

(** [range(lo, hi, step)]; a zero step raises [ValueError]. *)
Definition range3 (lo hi step : Z) : result (list Z) :=
  if step =? 0 then Raise ValueError
  else Ok (map (λ k, lo + Z.of_nat k * step)
               (seq 0 (Z.to_nat (range_len lo hi step)))).

(** [range(lo, hi)] and [range(n)]: the step is 1, nothing raises. *)
Definition range2 (lo hi : Z) : list Z :=
  map (λ k, lo + Z.of_nat k) (seq 0 (Z.to_nat (hi - lo))).

Definition range1 (n : Z) : list Z := range2 0 n.

(** A slice bound, as [l[lo:hi]] normalises it: a negative bound counts
    from the end, and every bound is clamped to [0..len]. *)
Definition slice_bound (n i : Z) : Z :=
  if i <? 0 then Z.max (i + n) 0 else Z.min i n.

Definition slice {A} (l : list A) (lo hi : Z) : list A :=
  let n := Z.of_nat (length l) in
  let a := slice_bound n lo in
  let b := slice_bound n hi in
  take (Z.to_nat (b - a)) (drop (Z.to_nat a) l).

Definition len {A} (l : list A) : Z := Z.of_nat (length l).

(** [l[i]]: a negative index counts from the end. *)
Definition getitem {A} (l : list A) (i : Z) : result A :=
  let n := Z.of_nat (length l) in
  let j := if i <? 0 then i + n else i in
  if (j <? 0) || (n <=? j) then Raise IndexError
  else match l !! Z.to_nat j with
       | Some x => Ok x
       | None => Raise IndexError
       end.

(** *** Strings *)

(** [str.isspace] on the code points below 256. *)
Definition isspace (c : ascii) : bool :=
  let n := N_of_ascii c in
  ((9 <=? n) && (n <=? 13) || (28 <=? n) && (n <=? 32)
   || (n =? 133) || (n =? 160))%N.

(** The line boundaries of [str.splitlines] below 256. *)
Definition is_linebreak (c : ascii) : bool :=
  let n := N_of_ascii c in
  ((10 <=? n) && (n <=? 13) || (28 <=? n) && (n <=? 30) || (n =? 133))%N.

Fixpoint lstrip (s : string) : string :=
  match s with
  | String c r => if isspace c then lstrip r else s
  | EmptyString => EmptyString
  end.

Definition rstrip (s : string) : string := String.rev (lstrip (String.rev s)).

Definition strip (s : string) : string := rstrip (lstrip s).

(** [cur] is the line being read, reversed; [started] tells whether a line
    is open; [after_cr] that the previous character was a carriage return,
    so that a line feed that follows belongs to the same boundary. *)
Fixpoint splitlines_go (cur : string) (started after_cr : bool) (s : string)
  : list string :=
  match s with
  | EmptyString => if started then [String.rev cur] else []
  | String c r =>
      if after_cr && (N_of_ascii c =? 10)%N then splitlines_go "" false false r
      else if is_linebreak c
      then String.rev cur :: splitlines_go "" false (N_of_ascii c =? 13)%N r
      else splitlines_go (String c cur) true false r
  end.

Definition splitlines (s : string) : list string :=
  splitlines_go "" false false s.

Definition str_truthy (s : string) : bool :=
  match s with EmptyString => false | _ => true end.

Definition list_truthy {A} (l : list A) : bool :=
  match l with [] => false | _ => true end.

Definition opt_truthy {A} (truthy : A → bool) (o : option A) : bool :=
  match o with Some a => truthy a | None => false end.

(** [str(n)] for an int. *)
Definition str_of_int (n : Z) : string := pretty n.

Fixpoint zeros (n : nat) : string :=
  match n with
  | O => ""
  | S m => String "0" (zeros m)
  end.

(** [f"{n:0w}"]: the sign first, then zeros up to the width [w]. *)
Definition format_0w (w : nat) (n : Z) : string :=
  let sign := if n <? 0 then "-" else "" in
  let digits := str_of_int (Z.abs n) in
  sign +:+ zeros (w - String.length sign - String.length digits) +:+ digits.

(** Half-to-even rounding of a non-negative rational to an integer. *)
Definition round_half_even (q : Q) : Z :=
  let f := Qfloor q in
  match (q - inject_Z f ?= 1 # 2)%Q with
  | Lt => f
  | Gt => f + 1
  | Eq => if Z.even f then f else f + 1
  end.

(** [floor(log2 q)], for [0 < q]. *)
Definition ilog2 (q : Q) : Z :=
  let l := Z.log2 (Qnum q) - Z.log2 (Zpos (Qden q)) in
  if Qle_bool (2 ^ l) q then l else l - 1.

(** The exponent of the last bit of the 53-bit significand of [q], for
    [0 < q]; [-1074] for the subnormal numbers. *)
Definition fexp (q : Q) : Z := Z.max (ilog2 q - 52) (-1074).

(** The binary64 number nearest to [q], ties to the even significand: what
    an operation on floats returns for the exact result [q]. *)
Definition fl (q : Q) : Q :=
  if Qeq_bool q 0 then 0%Q
  else
    let e := fexp (Qabs q) in
    let n := round_half_even (Qabs q / 2 ^ e) in
    Qred (inject_Z (if Qlt_le_dec q 0 then - n else n) * 2 ^ e).

(** A [dict] with string keys, in insertion order: setting a key that is
    present keeps its place. *)
Definition dict (V : Type) : Type := list (string * V).

Fixpoint dict_get {V} (d : dict V) (k : string) : option V :=
  match d with
  | [] => None
  | (k', v) :: r => if decide (k = k') then Some v else dict_get r k
  end.

Fixpoint dict_set {V} (k : string) (v : V) (d : dict V) : dict V :=
  match d with
  | [] => [(k, v)]
  | (k', v') :: r =>
      if decide (k = k') then (k', v) :: r else (k', v') :: dict_set k v r
  end.

(** [d.update(new)] *)
Definition dict_update {V} (new d : dict V) : dict V :=
  fold_left (λ d kv, dict_set kv.1 kv.2 d) new d.

(** A loop whose body updates a state and can raise. *)
Fixpoint for_in {S A} (l : list A) (body : A → S → result S) (s : S) : result S :=
  match l with
  | [] => Ok s
  | x :: r => s' ← body x s; for_in r body s'
  end.

(** ** load_test.py *)

Module LoadTest.

(** The parsed command line. [ids] and [ids_file] are [None] when the flag
    is absent. *)
Record args : Type := {
  url : string;
  ids : option (list string);
  ids_file : option string;
  num_ids : Z;
  batch_size : Z;
  concurrency : Z;
  runs : Z;
  timeout : Q;
  csv : option string;
}.

(** What [Path(p).read_text()] finds at a path: no file that can be opened,
    bytes that are not a text in the encoding of the locale, or a text. *)
Inductive file : Type :=
  | NoFile
  | NotText
  | TextFile (t : string).

Definition filesystem : Type := string → file.

Definition read_text (fs : filesystem) (p : string) : result string :=
  match fs p with
  | TextFile t => Ok t
  | NotText => Raise UnicodeDecodeError
  | NoFile => Raise OSError
  end.

Definition ids_from_text (t : string) : list string :=
  map strip (filter (λ line, str_truthy (strip line) = true) (splitlines t)).

Definition synthetic_ids (n : Z) : list string :=
  map (λ i, "MLA" +:+ str_of_int i) (range1 n).

(** Lines 79-80 of [run_load_test]. *)
Definition require_ids (l : list string) : result (list string) :=
  if list_truthy l then Ok l else Raise (SystemExit "No item IDs provided.").

(** Lines 72-80 of [run_load_test]. *)
Definition resolve_ids (fs : filesystem) (a : args) : result (list string) :=
  l ← (if opt_truthy str_truthy (ids_file a)
       then t ← read_text fs (default "" (ids_file a)); Ok (ids_from_text t)
       else if opt_truthy list_truthy (ids a)
       then Ok (default [] (ids a))
       else Ok (synthetic_ids (num_ids a)));
  require_ids l.

(** Line 83 of [run_load_test]. *)
Definition make_batches (l : list string) (size : Z)
  : result (list (list string)) :=
  starts ← range3 0 (Z.of_nat (length l)) size;
  Ok (map (λ i, slice l i (i + size)) starts).

(** *** The request *)

(** [",".join(l)]. *)
Fixpoint join (sep : string) (l : list string) : string :=
  match l with
  | [] => ""
  | [x] => x
  | x :: r => x +:+ sep +:+ join sep r
  end.

Definition hex_digit (n : N) : ascii :=
  if (n <? 10)%N then ascii_of_N (48 + n) else ascii_of_N (55 + n).

Definition percent (byte : N) : string :=
  String "%" (String (hex_digit (byte / 16)) (String (hex_digit (byte mod 16)) "")).

(** The characters [urllib.parse.quote] never encodes. *)
Definition always_safe (c : ascii) : bool :=
  let n := N_of_ascii c in
  ((48 <=? n) && (n <=? 57) || (65 <=? n) && (n <=? 90)
   || (97 <=? n) && (n <=? 122)
   || (n =? 95) || (n =? 46) || (n =? 45) || (n =? 126))%N.

(** [quote(s, safe=",")]: a character outside the safe set is encoded in
    UTF-8 and every byte written as [%XX]. *)
Fixpoint quote_comma (s : string) : string :=
  match s with
  | EmptyString => EmptyString
  | String c r =>
      let n := N_of_ascii c in
      if always_safe c || (n =? 44)%N then String c (quote_comma r)
      else if (n <? 128)%N then percent n +:+ quote_comma r
      else percent (192 + n / 64) +:+ percent (128 + n mod 64) +:+ quote_comma r
  end.

(** [f"{x:.2f}"]. *)
Definition format_2f (x : Q) : string :=
  let n := round_half_even (Qabs x * 100) in
  (if Qlt_le_dec x 0 then "-" else "")
  +:+ str_of_int (n / 100) +:+ "." +:+ format_0w 2 (n mod 100).

Record response : Type := {
  status_code : Z;
  content_len : Z;
}.

(** A coroutine: the effects of [load_test.py], with the rest of the
    coroutine as continuation. [ClientGet] is the only point where a
    coroutine is suspended. *)
Inductive coro (R : Type) : Type :=
  | Return (r : R)
  | PerfCounter (k : Q → coro R)
  | ClientGet (u : string) (k : response → coro R)
  | PrintStderr (line : string) (k : coro R)
  | ResultsAppend (x : Q) (k : coro R).
Arguments Return {R} r.
Arguments PerfCounter {R} k.
Arguments ClientGet {R} u k.
Arguments PrintStderr {R} line k.
Arguments ResultsAppend {R} x k.

Fixpoint coro_bind {A B} (f : A → coro B) (c : coro A) : coro B :=
  match c with
  | Return r => f r
  | PerfCounter k => PerfCounter (λ t, coro_bind f (k t))
  | ClientGet u k => ClientGet u (λ r, coro_bind f (k r))
  | PrintStderr line k => PrintStderr line (coro_bind f k)
  | ResultsAppend x k => ResultsAppend x (coro_bind f k)
  end.

Global Instance coro_ret : MRet coro := λ A a, Return a.
Global Instance coro_mbind : MBind coro := λ A B f c, coro_bind f c.

Definition perf_counter : coro Q := PerfCounter Return.
Definition client_get (u : string) : coro response := ClientGet u Return.
Definition print_stderr (line : string) : coro unit := PrintStderr line (Return ()).
Definition results_append (x : Q) : coro unit := ResultsAppend x (Return ()).

Fixpoint for_each {A} (l : list A) (body : A → coro unit) : coro unit :=
  match l with
  | [] => Return ()
  | x :: r => body x ;; for_each r body
  end.

(** [s * 1000], a product of floats. *)
Definition milli (s : Q) : Q := fl (s * 1000).

Definition warn_line (r : response) (elapsed : Q) : string :=
  "WARN: HTTP " +:+ str_of_int (status_code r) +:+ " taking "
  +:+ format_2f (milli elapsed) +:+ " ms (payload "
  +:+ str_of_int (content_len r) +:+ " B)".

Definition request_url (base_url : string) (item_ids : list string) : string :=
  base_url +:+ "?item_ids=" +:+ quote_comma (join "," item_ids).

Definition request_once (base_url : string) (item_ids : list string) : coro Q :=
  let u := request_url base_url item_ids in
  start ← perf_counter;
  r ← client_get u;
  stop ← perf_counter;
  let elapsed := fl (stop - start) in
  (if negb (status_code r =? 200) then print_stderr (warn_line r elapsed)
   else mret ());;
  mret elapsed.

Definition worker (name base_url : string) (batches : list (list string))
    (iterations : Z) : coro unit :=
  for_each (range1 iterations) (λ _,
    for_each batches (λ batch,
      e ← request_once base_url batch;
      results_append e)).

(** Lines 71-90 of [run_load_test]: the batches and the coroutines handed to
    [asyncio.gather]. *)
Definition run_load_test_tasks (fs : filesystem) (a : args)
  : result (list (list string) * list (coro unit)) :=
  l ← resolve_ids fs a;
  batches ← make_batches l (batch_size a);
  Ok (batches,
      map (λ i, worker ("worker-" +:+ str_of_int i) (url a) batches (runs a))
          (range1 (concurrency a))).

(** *** The event loop *)

(** What the tasks share: the [results] list, the error stream, the requests
    the client has sent and the monotonic clock. *)
Record world : Type := {
  results : list Q;
  stderr : list string;
  sent : list string;
  clock : Q;
}.

Inductive task : Type :=
  | Ready (c : coro unit)
  | Waiting (k : response → coro unit)
  | Done.

(** A task runs without interruption up to its next [await client.get]. *)
Fixpoint run_segment (c : coro unit) (w : world) : task * world :=
  match c with
  | Return _ => (Done, w)
  | PerfCounter k => run_segment (k (clock w)) w
  | ClientGet u k =>
      (Waiting k,
       {| results := results w; stderr := stderr w;
          sent := sent w ++ [u]; clock := clock w |})
  | PrintStderr line k =>
      run_segment k {| results := results w; stderr := stderr w ++ [line];
                       sent := sent w; clock := clock w |}
  | ResultsAppend x k =>
      run_segment k {| results := results w ++ [x]; stderr := stderr w;
                       sent := sent w; clock := clock w |}
  end.

Record loop : Type := {
  tasks : list task;
  shared : world;
  failed : bool;
}.

(** What the scheduler and the network choose: which task starts, which
    pending request is answered (the monotonic clock has advanced by
    [dt ≥ 0] seconds since the last event) and which one fails. *)
Inductive event : Type :=
  | Start (i : nat)
  | Reply (i : nat) (dt : Q) (r : response)
  | Fail (i : nat).

Definition tick (dt : Q) (w : world) : world :=
  {| results := results w; stderr := stderr w; sent := sent w;
     clock := (clock w + dt)%Q |}.

(** One event. The model follows a run up to the first request that fails:
    [gather] hands that exception to [run_load_test] at once, and what the
    other workers still do before [asyncio.run] cancels them is outside the
    model, so that no event is taken after a failure. *)
Definition step (st : loop) (e : event) : option loop :=
  if failed st then None else
  match e with
  | Start i =>
      match tasks st !! i with
      | Some (Ready c) =>
          let '(t, w) := run_segment c (shared st) in
          Some {| tasks := <[i := t]> (tasks st); shared := w; failed := false |}
      | _ => None
      end
  | Reply i dt r =>
      match tasks st !! i with
      | Some (Waiting k) =>
          if Qle_bool 0 dt then
            let '(t, w) := run_segment (k r) (tick dt (shared st)) in
            Some {| tasks := <[i := t]> (tasks st); shared := w; failed := false |}
          else None
      | _ => None
      end
  | Fail i =>
      match tasks st !! i with
      | Some (Waiting k) =>
          Some {| tasks := tasks st; shared := shared st; failed := true |}
      | _ => None
      end
  end.

Fixpoint exec (st : loop) (es : list event) : option loop :=
  match es with
  | [] => Some st
  | e :: r => match step st e with Some st' => exec st' r | None => None end
  end.

Definition is_done (t : task) : bool :=
  match t with Done => true | _ => false end.

Definition gather (cs : list (coro unit)) (t0 : Q) : loop :=
  {| tasks := map Ready cs;
     shared := {| results := []; stderr := []; sent := []; clock := t0 |};
     failed := false |}.

(** [run_load_test], for the choices [es] of the scheduler and the network:
    [None] when [es] is not a complete schedule of this run. *)
Definition run_load_test (fs : filesystem) (a : args) (t0 : Q) (es : list event)
  : option (result (list Q)) :=
  match run_load_test_tasks fs a with
  | Raise e => match es with [] => Some (Raise e) | _ => None end
  | Ok (_, cs) =>
      match exec (gather cs t0) es with
      | Some st =>
          if failed st then Some (Raise TransportError)
          else if forallb is_done (tasks st) then Some (Ok (results (shared st)))
          else None
      | None => None
      end
  end.

(** *** The summary *)

(** [sorted]: a stable sort. *)
Fixpoint insert_sorted (x : Q) (l : list Q) : list Q :=
  match l with
  | [] => [x]
  | y :: r => if Qle_bool x y then x :: l else y :: insert_sorted x r
  end.

Definition sorted (l : list Q) : list Q := foldr insert_sorted [] l.

Definition Qltb (x y : Q) : bool := negb (Qle_bool y x).

(** The builtins [min] and [max]: the first least (greatest) item. *)
Definition py_min (l : list Q) : result Q :=
  match l with
  | [] => Raise ValueError
  | x :: r => Ok (fold_left (λ m y, if Qltb y m then y else m) r x)
  end.

Definition py_max (l : list Q) : result Q :=
  match l with
  | [] => Raise ValueError
  | x :: r => Ok (fold_left (λ m y, if Qltb m y then y else m) r x)
  end.

Definition sum_Q (l : list Q) : Q := foldr Qplus 0%Q l.

(** [statistics.mean]: the exact mean of the floats, converted to a
    float. *)
Definition mean (data : list Q) : result Q :=
  let n := len data in
  if n <? 1 then Raise StatisticsError
  else Ok (fl (sum_Q data / inject_Z n)).

(** [statistics.median]: for an even number of samples the sum and the
    quotient are operations on floats. *)
Definition median (data : list Q) : result Q :=
  let data := sorted data in
  let n := len data in
  if n =? 0 then Raise StatisticsError
  else if n mod 2 =? 1 then getitem data (n / 2)
  else
    let i := n / 2 in
    a ← getitem data (i - 1);
    b ← getitem data i;
    Ok (fl (fl (a + b) / 2)).

(** [statistics.quantiles] changed in Python 3.13: a single data point is
    an error before, and is repeated [n - 1] times since. The script does
    not say which Python runs it. *)
Inductive py_version : Type := Before_3_13 | Since_3_13.

(** [statistics.quantiles(data, n=n, method="inclusive")]: the two
    products, the sum and the quotient of
    [(data[j] * (n - delta) + data[j + 1] * delta) / n] are operations on
    floats. *)
Definition quantiles (v : py_version) (data : list Q) (n : Z) : result (list Q) :=
  if n <? 1 then Raise StatisticsError else
  let data := sorted data in
  let ld := len data in
  if ld <? 2 then
    match v with
    | Since_3_13 =>
        if ld =? 1 then Ok (concat (replicate (Z.to_nat (n - 1)) data))
        else Raise StatisticsError
    | Before_3_13 => Raise StatisticsError
    end
  else
    let m := ld - 1 in
    mapM (λ i,
      let j := (i * m) / n in
      let delta := (i * m) mod n in
      a ← getitem data j;
      b ← getitem data (j + 1);
      Ok (fl (fl (fl (a * inject_Z (n - delta)) + fl (b * inject_Z delta))
              / inject_Z n)))
      (range2 1 n).

(** Printing to standard output, and an exception that ends it. *)
Definition io (A : Type) : Type := list string → list string * result A.

Global Instance io_ret : MRet io := λ A a out, (out, Ok a).
Global Instance io_bind : MBind io := λ A B f m out,
  match m out with
  | (out', Ok a) => f a out'
  | (out', Raise e) => (out', Raise e)
  end.

Definition print (line : string) : io unit := λ out, (out ++ [line], Ok ()).
Definition lift {A} (r : result A) : io A := λ out, (out, r).

Definition newline : string := String (ascii_of_N 10) "".

Definition print_summary (v : py_version) (times : list Q) : io unit :=
  print (newline +:+ "==== Performance summary ====");;
  print ("Requests : " +:+ str_of_int (len times));;
  m ← lift (mean times);
  print ("Mean     : " +:+ format_2f (milli m) +:+ " ms");;
  md ← lift (median times);
  print ("Median   : " +:+ format_2f (milli md) +:+ " ms");;
  qs ← lift (quantiles v times 20);
  p95 ← lift (getitem qs 18);
  print ("P95      : " +:+ format_2f (milli p95) +:+ " ms");;
  lo ← lift (py_min times);
  hi ← lift (py_max times);
  print ("Min | Max: " +:+ format_2f (milli lo) +:+ " ms | "
         +:+ format_2f (milli hi) +:+ " ms");;
  print ("==============================" +:+ newline).

End LoadTest.

(** *** The raw export and the script *)

Module LoadTestCli.
Import LoadTest.

(** A cell of the CSV file: the text of the header, or a number, which the
    file holds as Python prints it. *)
Inductive cell : Type :=
  | Text (s : string)
  | Number (x : Q).

(** The files that can be opened for writing, and the rows of those
    written. *)
Record csv_disk : Type := {
  can_write : string → bool;
  csv_files : dict (list (list cell));
}.

Definition write_csv (path : string) (values : list Q) (d : csv_disk)
  : io csv_disk :=
  if can_write d path then
    let rows := [Text "elapsed_ms"] :: map (λ v, [Number (fl (v * 1000))]) values in
    print ("Raw latencies written to " +:+ path);;
    mret {| can_write := can_write d;
            csv_files := dict_set path rows (csv_files d) |}
  else lift (Raise OSError).

(** [any([args.ids, args.ids_file, args.num_ids])] *)
Definition any_source (a : args) : bool :=
  opt_truthy list_truthy (ids a) || opt_truthy str_truthy (ids_file a)
  || negb (num_ids a =? 0).

(** How the script ends: normally, by [parser.error] (usage message, exit
    status 2), or by an exception that nothing catches. *)
Inductive exit : Type :=
  | Finished
  | Usage (msg : string)
  | Uncaught (e : exn).

Record main_outcome : Type := {
  printed : list string;
  written : csv_disk;
  status : exit;
}.

(** Lines 129-136, for the choices [es] of the scheduler and the network. *)
Definition main (v : py_version) (fs : filesystem) (d : csv_disk) (a : args)
    (t0 : Q) (es : list event) : option main_outcome :=
  if negb (any_source a) then
    match es with
    | [] => Some {| printed := []; written := d;
                    status := Usage "Provide --ids, --ids-file or --num-ids" |}
    | _ => None
    end
  else
    match run_load_test fs a t0 es with
    | None => None
    | Some (Raise e) =>
        Some {| printed := []; written := d; status := Uncaught e |}
    | Some (Ok all_times) =>
        match print_summary v all_times [] with
        | (out, Raise e) =>
            Some {| printed := out; written := d; status := Uncaught e |}
        | (out, Ok _) =>
            if opt_truthy str_truthy (csv a) then
              match write_csv (default "" (csv a)) all_times d out with
              | (out', Ok d') =>
                  Some {| printed := out'; written := d'; status := Finished |}
              | (out', Raise e) =>
                  Some {| printed := out'; written := d; status := Uncaught e |}
              end
            else Some {| printed := out; written := d; status := Finished |}
        end
    end.

End LoadTestCli.

(** ** main.py *)

Module Seeder.

Definition ROOT_CATEGORIES : Z := 5.
Definition LEAVES_PER_ROOT : Z := 10.
Definition TOTAL_SELLERS : Z := 1000.
Definition PRODUCTS_PER_SELLER : Z := 1000.
Definition PRODUCTS_FILE : string := "./items/data/items.json".
Definition CATEGORIES_FILE : string := "./items/data/categories.json".

(** The dictionary [{"id": x}]. *)
Record ref : Type := { ref_id : string }.

(** What [Category.to_dict] returns. The dictionary holds the very lists of
    the [Category]; no two categories share a list. *)
Record category_dict : Type := {
  cd_id : string;
  cd_name : string;
  cd_path_from_root : list ref;
  cd_children_categories : list ref;
}.

Record Category : Type := {
  cat_id : string;
  name : string;
  path_from_root : list ref;
  children_categories : list ref;
}.

Global Instance ref_eq_dec : EqDecision ref.
Proof. solve_decision. Defined.

Global Instance category_dict_eq_dec : EqDecision category_dict.
Proof. solve_decision. Defined.

Definition category_to_dict (c : Category) : category_dict :=
  {| cd_id := cat_id c; cd_name := name c;
     cd_path_from_root := path_from_root c;
     cd_children_categories := children_categories c |}.

Record Product : Type := {
  id : string;
  seller_id : string;
  title : string;
  category_id : string;
  price : Q;
  date_created : string;
  last_updated : string;
}.

(** What [Product.to_dict] returns: every field but the identifier. *)
Record product_dict : Type := {
  pd_seller_id : string;
  pd_title : string;
  pd_category_id : string;
  pd_price : Q;
  pd_date_created : string;
  pd_last_updated : string;
}.

Definition product_to_dict (p : Product) : product_dict :=
  {| pd_seller_id := seller_id p; pd_title := title p;
     pd_category_id := category_id p; pd_price := price p;
     pd_date_created := date_created p; pd_last_updated := last_updated p |}.

(** *** Randomness and time *)

(** The module level generator of [random] and the UTC clock: the raw
    draws and the clock readings to come, and how many were consumed. *)
Record env : Type := {
  entropy : nat → Z;
  drawn : nat;
  utc : nat → Z;
  read : nat;
}.

Definition rand (A : Type) : Type := env → result (A * env).

Global Instance rand_ret : MRet rand := λ A a e, Ok (a, e).
Global Instance rand_bind : MBind rand := λ A B f m e,
  match m e with
  | Ok (a, e') => f a e'
  | Raise x => Raise x
  end.

Definition raise {A} (x : exn) : rand A := λ _, Raise x.
Definition lift_result {A} (r : result A) : rand A := λ e,
  match r with Ok a => Ok (a, e) | Raise x => Raise x end.

Definition next_draw (e : env) : env :=
  {| entropy := entropy e; drawn := S (drawn e); utc := utc e; read := read e |}.

Definition next_read (e : env) : env :=
  {| entropy := entropy e; drawn := drawn e; utc := utc e; read := S (read e) |}.

(** A uniform draw in [0..n-1], for [0 < n]. *)
Definition randbelow (n : Z) : rand Z := λ e,
  Ok (entropy e (drawn e) mod n, next_draw e).

(** [random.randint(a, b)]. *)
Definition randint (a b : Z) : rand Z :=
  if b <? a then raise ValueError
  else k ← randbelow (b - a + 1); mret (a + k).

(** [random.choice(seq)]. *)
Definition choice {A} (l : list A) : rand A :=
  if len l =? 0 then raise IndexError
  else k ← randbelow (len l); lift_result (getitem l k).

(** [random.uniform(a, b)]: [a + (b - a) * random()], where [random()] is a
    multiple of [2^-53] in [0, 1). *)
Definition uniform (a b : Q) : rand Q :=
  k ← randbelow (2 ^ 53);
  mret (fl (a + fl (fl (b - a) * (inject_Z k / inject_Z (2 ^ 53))))).

(** [round(x, 2)] for a float: the float nearest to the exact value of [x]
    rounded half to even to two decimals. *)
Definition round2 (x : Q) : Q :=
  let n := round_half_even (Qabs x * 100) in
  fl (inject_Z (if Qlt_le_dec x 0 then - n else n) / 100).

(** A [datetime] is the number of microseconds since 0001-01-01T00:00:00. *)
Definition datetime : Type := Z.

Definition DAY : Z := 86400 * 1000000.
(** 9999-12-31T23:59:59.999999 *)
Definition DATETIME_MAX : Z := 3652059 * DAY - 1.

(** [datetime.utcnow()]. *)
Definition utcnow : rand datetime := λ e, Ok (utc e (read e), next_read e).

(** [t + timedelta(days=d)]. *)
Definition add_days (t : datetime) (d : Z) : result datetime :=
  let r := t + d * DAY in
  if (r <? 0) || (DATETIME_MAX <? r) then Raise OverflowError else Ok r.

(** Year, month and day of the day number [z] (0 is 0001-01-01) in the
    proleptic Gregorian calendar. *)
Definition civil (z : Z) : Z * Z * Z :=
  let z := z + 306 in
  let era := z / 146097 in
  let doe := z mod 146097 in
  let yoe := (doe - doe / 1460 + doe / 36524 - doe / 146096) / 365 in
  let doy := doe - (365 * yoe + yoe / 4 - yoe / 100) in
  let mp := (5 * doy + 2) / 153 in
  let d := doy - (153 * mp + 2) / 5 + 1 in
  let m := if mp <? 10 then mp + 3 else mp - 9 in
  let y := yoe + era * 400 + (if m <=? 2 then 1 else 0) in
  (y, m, d).

(** [t.isoformat(timespec="microseconds")]. *)
Definition isoformat (t : datetime) : string :=
  let '(y, m, d) := civil (t / DAY) in
  let us := t mod DAY in
  let s := us / 1000000 in
  format_0w 4 y +:+ "-" +:+ format_0w 2 m +:+ "-" +:+ format_0w 2 d +:+ "T"
  +:+ format_0w 2 (s / 3600) +:+ ":" +:+ format_0w 2 (s / 60 mod 60) +:+ ":"
  +:+ format_0w 2 (s mod 60) +:+ "." +:+ format_0w 6 (us mod 1000000).

(** *** RandomDataGenerator *)

Definition PRODUCT_ADJECTIVES : list string :=
  ["Super"; "Mega"; "Ultra"; "Pro"; "Basic"; "Smart"].
Definition PRODUCT_ITEMS : list string :=
  ["Laptop"; "Phone"; "Chair"; "Watch"; "Headphones"; "Shoes"].

Definition generate_seller_ids (count : Z) : list string :=
  map (λ i, "SELLER_" +:+ str_of_int i) (range2 1 (count + 1)).

(** The two datetimes of [generate_dates], before they are formatted. *)
Definition generate_datetimes : rand (datetime * datetime) :=
  now ← utcnow;
  days_ago ← randint 30 365;
  created ← lift_result (add_days now (- days_ago));
  d ← randint 1 29;
  updated ← lift_result (add_days created d);
  mret (created, updated).

Definition generate_dates : rand (string * string) :=
  '(created, updated) ← generate_datetimes;
  mret (isoformat created +:+ "Z", isoformat updated +:+ "Z").

Definition generate_product_price : rand Q :=
  x ← uniform 10 2000; mret (round2 x).

Definition generate_product_title : rand string :=
  a ← choice PRODUCT_ADJECTIVES;
  i ← choice PRODUCT_ITEMS;
  mret (a +:+ " " +:+ i).

(** *** CategoryFactory *)

Definition root_id_of (r : Z) : string := "MLA" +:+ str_of_int (1000 + r).
Definition leaf_id_of (r l : Z) : string :=
  "MLA" +:+ format_0w 2 r +:+ format_0w 2 l +:+ "00".

(** [categories[root_id]["children_categories"].append({"id": leaf_id})] *)
Definition append_child (root_id leaf_id : string)
    (categories : dict category_dict) : result (dict category_dict) :=
  match dict_get categories root_id with
  | Some d =>
      Ok (dict_set root_id
            {| cd_id := cd_id d; cd_name := cd_name d;
               cd_path_from_root := cd_path_from_root d;
               cd_children_categories :=
                 cd_children_categories d ++ [{| ref_id := leaf_id |}] |}
            categories)
  | None => Raise KeyError
  end.

Definition create_leaf (r : Z) (root_id : string) (l : Z)
    (st : dict category_dict * list string)
  : result (dict category_dict * list string) :=
  let '(categories, leaf_ids) := st in
  let leaf_id := leaf_id_of r l in
  let leaf :=
    {| cat_id := leaf_id;
       name := "Leaf Category " +:+ str_of_int r +:+ "-" +:+ str_of_int l;
       path_from_root := [{| ref_id := root_id |}; {| ref_id := leaf_id |}];
       children_categories := [] |} in
  let categories := dict_set leaf_id (category_to_dict leaf) categories in
  let leaf_ids := leaf_ids ++ [leaf_id] in
  categories ← append_child root_id leaf_id categories;
  Ok (categories, leaf_ids).

Definition create_root (leaves_per_root : Z) (r : Z)
    (st : dict category_dict * list string)
  : result (dict category_dict * list string) :=
  let '(categories, leaf_ids) := st in
  let root_id := root_id_of r in
  let root :=
    {| cat_id := root_id;
       name := "Root Category " +:+ str_of_int r;
       path_from_root := [{| ref_id := root_id |}];
       children_categories := [] |} in
  let categories := dict_set root_id (category_to_dict root) categories in
  for_in (range2 1 (leaves_per_root + 1)) (create_leaf r root_id)
         (categories, leaf_ids).

Definition create_categories (roots leaves_per_root : Z)
  : result (dict category_dict * list string) :=
  for_in (range2 1 (roots + 1)) (create_root leaves_per_root) ([], []).

(** *** ProductFactory *)

Definition create_product (leaf_category_ids : list string)
    (product_index : Z) (seller : string) : rand Product :=
  let product_id := "MLA" +:+ str_of_int product_index in
  t ← generate_product_title;
  c ← choice leaf_category_ids;
  p ← generate_product_price;
  '(created, updated) ← generate_dates;
  mret {| id := product_id; seller_id := seller; title := t; category_id := c;
          price := p; date_created := created; last_updated := updated |}.

(** *** JsonRepository and ProductSeeder *)

Definition add {V} (obj_id : string) (obj : V) (data : dict V) : dict V :=
  dict_set obj_id obj data.

Definition bulk_add {V} (new : dict V) (data : dict V) : dict V :=
  dict_update new data.

Record ProductSeeder : Type := {
  num_sellers : Z;
  products_per_seller : Z;
  items_file : string;
  categories_file : string;
  categories_dict : dict category_dict;
  leaf_ids : list string;
  product_repo : dict product_dict;
  category_repo : dict category_dict;
}.

Definition new_seeder (sellers per_seller roots leaves_per_root : Z)
    (items categories : string) : result ProductSeeder :=
  '(cats, leaves) ← create_categories roots leaves_per_root;
  Ok {| num_sellers := sellers; products_per_seller := per_seller;
        items_file := items; categories_file := categories;
        categories_dict := cats; leaf_ids := leaves;
        product_repo := []; category_repo := bulk_add cats [] |}.

(** The collection a JSON file holds. *)
Inductive json_file : Type :=
  | CategoriesJson (data : dict category_dict)
  | ProductsJson (data : dict product_dict).

Record disk : Type := {
  writable : string → bool;
  files : dict json_file;
}.

(** [JsonRepository.save]: opening the file can fail. *)
Definition save (filename : string) (content : json_file) (d : disk) : result disk :=
  if writable d filename
  then Ok {| writable := writable d; files := dict_set filename content (files d) |}
  else Raise OSError.

(** The state of the loops of [run]: the product repository, [product_index]
    and the generator. *)
Definition create_and_add (leaves : list string) (seller : string)
    (st : dict product_dict * Z * env)
  : result (dict product_dict * Z * env) :=
  let '(repo, product_index, e) := st in
  '(product, e') ← create_product leaves product_index seller e;
  Ok (add (id product) (product_to_dict product) repo, product_index + 1, e').

Definition seed_products (sd : ProductSeeder) (e : env)
  : result (dict product_dict * Z * env) :=
  let seller_ids := generate_seller_ids (num_sellers sd) in
  for_in seller_ids (λ seller st,
    for_in (range1 (products_per_seller sd))
           (λ _ st, create_and_add (leaf_ids sd) seller st) st)
    (product_repo sd, 1, e).

Record outcome : Type := {
  seeder : ProductSeeder;
  generator : env;
  storage : disk;
  stdout : string;
}.

Definition run (sd : ProductSeeder) (e : env) (d : disk) : result outcome :=
  '(repo, _, e') ← seed_products sd e;
  d ← save (categories_file sd) (CategoriesJson (category_repo sd)) d;
  d ← save (items_file sd) (ProductsJson repo) d;
  Ok {| seeder :=
          {| num_sellers := num_sellers sd;
             products_per_seller := products_per_seller sd;
             items_file := items_file sd; categories_file := categories_file sd;
             categories_dict := categories_dict sd; leaf_ids := leaf_ids sd;
             product_repo := repo; category_repo := category_repo sd |};
        generator := e'; storage := d;
        stdout := "✅ " +:+ categories_file sd +:+ ": "
                  +:+ str_of_int (len (category_repo sd))
                  +:+ " categorías" +:+ String (ascii_of_N 10) "✅ "
                  +:+ items_file sd +:+ ": " +:+ str_of_int (len repo)
                  +:+ " productos" |}.

(** The script: the seeder of the configured size, run once. *)
Definition main (e : env) (d : disk) : result outcome :=
  sd ← new_seeder TOTAL_SELLERS PRODUCTS_PER_SELLER ROOT_CATEGORIES
                  LEAVES_PER_ROOT PRODUCTS_FILE CATEGORIES_FILE;
  run sd e d.

End Seeder.

(** * What the properties are stated with *)

(** [ceil(n / b)], as the specification writes it. *)
Definition ceil_div (n b : Z) : Z := - ((- n) / b).

Module LoadTestSpec.
Import LoadTest.

(** A command line with both an inline list and a file, and the file. *)
Definition both_sources : args :=
  {| url := "http://localhost:9090/meli_discount";
     ids := Some ["MLA1"; "MLA2"];
     ids_file := Some "my_ids.txt";
     num_ids := 0; batch_size := 100; concurrency := 10; runs := 10;
     timeout := 30; csv := None |}.

Definition one_file : filesystem := λ p,
  if decide (p = "my_ids.txt")
  then TextFile ("MLA7" +:+ newline +:+ "MLA8" +:+ newline)
  else NoFile.

(** [counts g a c]: whatever the clock and the server answer, the coroutine
    [c] calls [client.get] exactly [g] times and appends exactly [a] samples
    before it returns. *)
Inductive counts {R} : nat → nat → coro R → Prop :=
  | counts_return r : counts 0 0 (Return r)
  | counts_perf k g a :
      (∀ t, counts g a (k t)) → counts g a (PerfCounter k)
  | counts_get u k g a :
      (∀ r, counts g a (k r)) → counts (S g) a (ClientGet u k)
  | counts_print line k g a :
      counts g a k → counts g a (PrintStderr line k)
  | counts_append x k g a :
      counts g a k → counts g (S a) (ResultsAppend x k).

(** The same for a task of the event loop: a waiting task has sent its
    request already. *)
Inductive task_counts : nat * nat → task → Prop :=
  | tc_ready g a c : counts g a c → task_counts (g, a) (Ready c)
  | tc_waiting g a k : (∀ r, counts g a (k r)) → task_counts (g, a) (Waiting k)
  | tc_done : task_counts (0%nat, 0%nat) Done.

Definition total (f : nat * nat → nat) (rem : list (nat * nat)) : nat :=
  sum_list (map f rem).

(** What stays true in a run of [T] requests: the requests sent and those
    still to send add up to [T], and so do the samples. *)
Definition balanced (T : nat) (st : loop) : Prop :=
  ∃ rem, Forall2 task_counts rem (tasks st)
    ∧ (length (sent (shared st)) + total fst rem = T)%nat
    ∧ (length (results (shared st)) + total snd rem = T)%nat.

Definition ok_response : response := {| status_code := 200; content_len := 0 |}.

(** Two workers, one iteration each, over three identifiers in batches of
    two; the second worker is answered first, and one answer is an error
    page. *)
Definition small_run : args :=
  {| url := "http://localhost:9090/meli_discount";
     ids := Some ["MLA1"; "MLA2"; "MLA3"];
     ids_file := None;
     num_ids := 0; batch_size := 2; concurrency := 2; runs := 1;
     timeout := 30; csv := None |}.

Definition no_files : filesystem := λ _, NoFile.

Definition small_schedule : list event :=
  [Start 0; Start 1;
   Reply 1 (1 # 100) ok_response;
   Reply 0 (2 # 100) {| status_code := 500; content_len := 12 |};
   Reply 0 (1 # 100) ok_response;
   Reply 1 (3 # 100) ok_response].

Definition no_content : response := {| status_code := 204; content_len := 0 |}.

(** *** The statistics, as the specification names them *)

Fixpoint count_if (f : Q → bool) (l : list Q) : nat :=
  match l with
  | [] => 0
  | x :: r => (if f x then 1 else 0) + count_if f r
  end.

(** [v] has rank [k], counted from 0, among the samples put in increasing
    order: at most [k] samples are below [v] and more than [k] are not
    above it. *)
Definition ranked (xs : list Q) (k : Z) (v : Q) : Prop :=
  Z.of_nat (count_if (λ x, Qltb x v) xs) ≤ k
  ∧ k < Z.of_nat (count_if (λ x, Qle_bool x v) xs).

(** A binary64 number: rounding leaves it as it is. *)
Definition binary64 (x : Q) : Prop := (fl x == x)%Q.

(** Samples a summary is stated for: binary64 numbers, so far below the
    largest one that no operation of the summary overflows. *)
Definition sample (x : Q) : Prop := binary64 x ∧ (Qabs x <= 2 ^ 1000)%Q.

(** The mean of the samples, as a float. *)
Definition is_mean (xs : list Q) (m : Q) : Prop :=
  ∃ mu, (mu * inject_Z (len xs) == sum_Q xs)%Q ∧ (m == fl mu)%Q.

(** The middle sample, or the mean of the two middle samples: their sum
    as a float, halved as a float. *)
Definition is_median (xs : list Q) (md : Q) : Prop :=
  let n := len xs in
  if n mod 2 =? 1 then ranked xs (n / 2) md
  else ∃ a b, ranked xs (n / 2 - 1) a ∧ ranked xs (n / 2) b
         ∧ (md == fl (fl (a + b) / 2))%Q.

(** Cut point [i] of [q] buckets, inclusive method: the linear
    interpolation of the ordered samples at position [h = i * (n - 1) / q],
    between the samples of ranks [j = floor h] and [j + 1] with the weights
    [q - d] and [d] over [q], where [d / q] is the fractional part of [h];
    the two products, their sum and the quotient are floats. *)
Definition is_cut_point (xs : list Q) (q i : Z) (p : Q) : Prop :=
  let h := (inject_Z (i * (len xs - 1)) / inject_Z q)%Q in
  let j := Qfloor h in
  let d := i * (len xs - 1) - j * q in
  ∃ a b, ranked xs j a ∧ ranked xs (j + 1) b
    ∧ (p == fl (fl (fl (a * inject_Z (q - d)) + fl (b * inject_Z d))
                / inject_Z q))%Q.

Definition is_min (xs : list Q) (m : Q) : Prop :=
  m ∈ xs ∧ ∀ x, x ∈ xs → (m <= x)%Q.

Definition is_max (xs : list Q) (m : Q) : Prop :=
  m ∈ xs ∧ ∀ x, x ∈ xs → (x <= m)%Q.

(** The summary of [n] requests with the given statistics, in seconds:
    each is multiplied by 1000, a product of floats, and printed with two
    decimals. *)
Definition summary_lines (n : Z) (m md p95 lo hi : Q) : list string :=
  [newline +:+ "==== Performance summary ====";
   "Requests : " +:+ str_of_int n;
   "Mean     : " +:+ format_2f (fl (m * 1000)) +:+ " ms";
   "Median   : " +:+ format_2f (fl (md * 1000)) +:+ " ms";
   "P95      : " +:+ format_2f (fl (p95 * 1000)) +:+ " ms";
   "Min | Max: " +:+ format_2f (fl (lo * 1000)) +:+ " ms | "
     +:+ format_2f (fl (hi * 1000)) +:+ " ms";
   "==============================" +:+ newline].

End LoadTestSpec.

Module SeederSpec.
Import Seeder.

(** The dictionary of root [r], with its [leaves] children. *)
Definition root_dict (r leaves : Z) : category_dict :=
  {| cd_id := root_id_of r;
     cd_name := "Root Category " +:+ str_of_int r;
     cd_path_from_root := [{| ref_id := root_id_of r |}];
     cd_children_categories :=
       map (λ l, {| ref_id := leaf_id_of r l |}) (range2 1 (leaves + 1)) |}.

(** The dictionary of leaf [l] of root [r]. *)
Definition leaf_dict (r l : Z) : category_dict :=
  {| cd_id := leaf_id_of r l;
     cd_name := "Leaf Category " +:+ str_of_int r +:+ "-" +:+ str_of_int l;
     cd_path_from_root :=
       [{| ref_id := root_id_of r |}; {| ref_id := leaf_id_of r l |}];
     cd_children_categories := [] |}.

(** Every reading of the clock is a [datetime] from which a year can be
    subtracted. *)
Definition clock_ok (e : env) : Prop :=
  ∀ n, 365 * DAY ≤ utc e n ≤ DATETIME_MAX.

(** A generator and a clock for the examples: the clock starts on
    2024-04-25 and advances by a second at each reading, up to the end of
    the day. *)
Definition sample_env : env :=
  {| entropy := λ n, 7919 * Z.of_nat n + 13; drawn := 0;
     utc := λ n, 739000 * DAY + Z.min (Z.of_nat n) 86399 * 1000000; read := 0 |}.

Definition product_id_of (i : Z) : string := "MLA" +:+ str_of_int i.
Definition seller_id_of (s : Z) : string := "SELLER_" +:+ str_of_int s.

(** The entry of the product repository for a product. *)
Definition entry (p : Product) : string * product_dict :=
  (id p, product_to_dict p).

Definition sample_disk : disk := {| writable := λ _, true; files := [] |}.

End SeederSpec.

Module LoadTestRunSpec.
Import LoadTest LoadTestSpec.

(** The lines a response adds to the error stream. *)
Definition warned (r : response) : nat :=
  if status_code r =? 200 then 0%nat else 1%nat.

(** [paced p a c]: up to its next [client.get] or to its end, [c] prints
    [p] lines on the error stream and appends [a] samples; and after every
    response the coroutine is resumed with, it prints one line exactly when
    the status is not 200 and appends one sample. *)
Inductive paced {R} : nat → nat → coro R → Prop :=
  | paced_return r : paced 0 0 (Return r)
  | paced_perf k p a : (∀ t, paced p a (k t)) → paced p a (PerfCounter k)
  | paced_get u k : (∀ r, paced (warned r) 1 (k r)) → paced 0 0 (ClientGet u k)
  | paced_print line k p a : paced p a k → paced (S p) a (PrintStderr line k)
  | paced_append x k p a : paced p a k → paced p (S a) (ResultsAppend x k).

Inductive paced_task : task → Prop :=
  | pt_ready c : paced 0 0 c → paced_task (Ready c)
  | pt_waiting k : (∀ r, paced (warned r) 1 (k r)) → paced_task (Waiting k)
  | pt_done : paced_task Done.

(** The responses of a schedule, and the lines they add to the error
    stream. *)
Fixpoint replies (es : list event) : nat :=
  match es with
  | [] => 0
  | Reply _ _ _ :: r => S (replies r)
  | _ :: r => replies r
  end.

Fixpoint warnings (es : list event) : nat :=
  match es with
  | [] => 0
  | Reply _ _ r :: rest => (warned r + warnings rest)%nat
  | _ :: rest => warnings rest
  end.

(** [timed t c]: run when the clock reads [t] or more, [c] appends
    non-negative samples only. *)
Inductive timed {R} : Q → coro R → Prop :=
  | timed_return t r : timed t (Return r)
  | timed_perf t k :
      (∀ t', (t <= t')%Q → timed t' (k t')) → timed t (PerfCounter k)
  | timed_get t u k : (∀ r, timed t (k r)) → timed t (ClientGet u k)
  | timed_print t line k : timed t k → timed t (PrintStderr line k)
  | timed_append t x k : (0 <= x)%Q → timed t k → timed t (ResultsAppend x k).

Inductive timed_task (t : Q) : task → Prop :=
  | tt_ready c : timed t c → timed_task t (Ready c)
  | tt_waiting k : (∀ r, timed t (k r)) → timed_task t (Waiting k)
  | tt_done : timed_task t Done.

(** [s] does not start with white space. *)
Definition head_clean (s : string) : Prop :=
  match s with
  | String c _ => isspace c = false
  | EmptyString => True
  end.

(** Every character of [s] satisfies [P]. *)
Fixpoint all_chars (P : ascii → bool) (s : string) : bool :=
  match s with
  | EmptyString => true
  | String c r => P c && all_chars P r
  end.

(** The characters [quote(_, safe=",")] leaves as they are, and the
    characters it can produce. *)
Definition kept_char (c : ascii) : bool :=
  always_safe c || (N_of_ascii c =? 44)%N.

Definition quoted_char (c : ascii) : bool :=
  kept_char c || (N_of_ascii c =? 37)%N.

(** Two workers and a negative batch size. *)
Definition negative_batches : args :=
  {| url := "http://localhost:9090/meli_discount";
     ids := Some ["MLA1"; "MLA2"; "MLA3"];
     ids_file := None;
     num_ids := 0; batch_size := -2; concurrency := 2; runs := 3;
     timeout := 30; csv := None |}.

(** The coroutines of a run, when there are any. *)
Definition workers_of (fs : filesystem) (a : args) : list (coro unit) :=
  match run_load_test_tasks fs a with
  | Ok (_, cs) => cs
  | Raise _ => []
  end.

End LoadTestRunSpec.

(** *** What the properties of the script are stated with *)

Module LoadTestCliSpec.
Import LoadTest LoadTestCli.

(** A row of the export under the header: one number, not negative. *)
Definition sample_row (row : list cell) : Prop :=
  ∃ x, row = [Number x] ∧ (0 <= x)%Q.

(** A disk on which every file can be written, and one on which none
    can. *)
Definition writable : csv_disk :=
  {| can_write := λ _, true; csv_files := [] |}.

Definition read_only : csv_disk :=
  {| can_write := λ _, false; csv_files := [] |}.

(** The arguments [a] with [--csv p]. *)
Definition with_csv (p : string) (a : args) : args :=
  {| url := url a; ids := ids a; ids_file := ids_file a;
     num_ids := num_ids a; batch_size := batch_size a;
     concurrency := concurrency a; runs := runs a;
     timeout := timeout a; csv := Some p |}.

(** The arguments [a] with [--num-ids n] and no list of ids. *)
Definition with_num_ids (n : Z) (a : args) : args :=
  {| url := url a; ids := None; ids_file := None;
     num_ids := n; batch_size := batch_size a;
     concurrency := concurrency a; runs := runs a;
     timeout := timeout a; csv := csv a |}.

End LoadTestCliSpec.

(** *** What the further properties of the seeder are stated with *)

Module SeederRunSpec.
Import Seeder SeederSpec.

(** The leaf identifiers of [roots] roots with [leaves] leaves each, root
    by root. *)
Definition leaf_ids_of (roots leaves : Z) : list string :=
  concat (map (λ r, map (leaf_id_of r) (range2 1 (leaves + 1)))
              (range2 1 (roots + 1))).

(** The keys of a dictionary, in the order of their insertion. *)
Definition keys {V} (d : dict V) : list string := map fst d.

End SeederRunSpec.

(** * Properties *)

(** ** The Python runtime *)

(** Decides the integer comparisons of the goal that [lia] settles. *)
Ltac zbool :=
  repeat match goal with
  | |- context [?a <? ?b] =>
      first [ replace (a <? b) with true by (symmetry; apply Z.ltb_lt; lia)
            | replace (a <? b) with false by (symmetry; apply Z.ltb_ge; lia) ]
  | |- context [?a <=? ?b] =>
      first [ replace (a <=? b) with true by (symmetry; apply Z.leb_le; lia)
            | replace (a <=? b) with false by (symmetry; apply Z.leb_gt; lia) ]
  | |- context [?a =? ?b] =>
      first [ replace (a =? b) with true by (symmetry; apply Z.eqb_eq; lia)
            | replace (a =? b) with false by (symmetry; apply Z.eqb_neq; lia) ]
  end.

Lemma ceil_div_bounds n b :
  0 < b → b * (ceil_div n b - 1) < n ≤ b * ceil_div n b.
Proof.
  intros Hb. unfold ceil_div.
  pose proof (Z.div_mod (- n) b ltac:(lia)) as Hdm.
  pose proof (Z.mod_pos_bound (- n) b Hb) as Hm.
  nia.
Qed.

Lemma ceil_div_unique n b k :
  0 < b → b * (k - 1) < n ≤ b * k → k = ceil_div n b.
Proof.
  intros Hb Hk. pose proof (ceil_div_bounds n b Hb). nia.
Qed.

Lemma range_len_up n b :
  0 < b → 0 < n → range_len 0 n b = ceil_div n b.
Proof.
  intros Hb Hn. unfold range_len.
  zbool.
  simpl. apply ceil_div_unique; [done|].
  pose proof (Z.div_mod (n - 1 - 0) b ltac:(lia)) as Hdm.
  pose proof (Z.mod_pos_bound (n - 1 - 0) b Hb) as Hm.
  nia.
Qed.

Lemma slice_window {A} (l : list A) (a w : Z) :
  0 ≤ a ≤ len l → 0 ≤ w →
  slice l a (a + w) = take (Z.to_nat w) (drop (Z.to_nat a) l).
Proof.
  intros Ha Hw. unfold slice, slice_bound, len in *.
  zbool.
  rewrite (Z.min_l a) by lia.
  destruct (Z.le_gt_cases (a + w) (Z.of_nat (length l))) as [Hle|Hgt].
  - rewrite Z.min_l by lia. f_equal. lia.
  - rewrite Z.min_r by lia.
    rewrite !take_ge; [done| |]; rewrite length_drop; lia.
Qed.

(** Consecutive windows of width [b] put together again. *)
Lemma concat_windows {A} (l : list A) (b m : nat) :
  concat (map (λ k, take b (drop (k * b) l)) (seq 0 m)) = take (m * b) l.
Proof.
  induction m as [|m IH].
  - by rewrite take_0.
  - rewrite seq_S, map_app, concat_app, IH. simpl.
    rewrite app_nil_r, take_take_drop. f_equal. lia.
Qed.

Lemma length_range2 lo hi : length (range2 lo hi) = Z.to_nat (hi - lo).
Proof. unfold range2. by rewrite length_map, length_seq. Qed.

Lemma length_range1 n : length (range1 n) = Z.to_nat n.
Proof. unfold range1. rewrite length_range2. f_equal. lia. Qed.

Lemma elem_of_range2 lo hi i : i ∈ range2 lo hi ↔ lo ≤ i < hi.
Proof.
  unfold range2. rewrite list_elem_of_fmap. split.
  - intros (k & -> & Hk%elem_of_seq). lia.
  - intros Hi. exists (Z.to_nat (i - lo)). split; [lia|].
    apply elem_of_seq. lia.
Qed.

Lemma getitem_ok {A} (l : list A) (k : Z) :
  0 ≤ k < len l → ∃ x, getitem l k = Ok x ∧ l !! Z.to_nat k = Some x.
Proof.
  intros Hk. unfold getitem, len in *.
  assert ((k <? 0) = false) as E by (apply Z.ltb_ge; lia).
  rewrite E. cbv zeta. rewrite E.
  zbool.
  simpl. destruct (l !! Z.to_nat k) as [x|] eqn:Hx; [by eexists|].
  apply lookup_ge_None in Hx. lia.
Qed.

(** ** Rounding to binary64 *)

Module FloatFacts.

Lemma pow2_pos (e : Z) : (0 < 2 ^ e)%Q.
Proof. by apply Qpower_0_lt. Qed.

Lemma pow2_plus (e e' : Z) : (2 ^ (e + e') == 2 ^ e * 2 ^ e')%Q.
Proof. by apply Qpower_plus. Qed.

Lemma pow2_le (e e' : Z) : e ≤ e' → (2 ^ e <= 2 ^ e')%Q.
Proof. intros H. by apply Qpower_le_compat_l. Qed.

Lemma pow2_inject (n : Z) : 0 ≤ n → (inject_Z (2 ^ n) == 2 ^ n)%Q.
Proof. intros Hn. by rewrite Zpower_Qpower. Qed.

(** [ilog2 q] is the exponent of the binade of [q]. *)
Lemma ilog2_spec (q : Q) :
  (0 < q)%Q → (2 ^ ilog2 q <= q)%Q ∧ (q < 2 ^ (ilog2 q + 1))%Q.
Proof.
  destruct q as [p d]. intros Hq.
  assert (0 < p) as Hp by (unfold Qlt in Hq; simpl in Hq; lia).
  unfold ilog2. cbn [Qnum Qden].
  set (lp := Z.log2 p). set (ld := Z.log2 (Z.pos d)).
  destruct (Z.log2_spec p Hp) as [Hp1 Hp2].
  destruct (Z.log2_spec (Z.pos d) ltac:(lia)) as [Hd1 Hd2].
  fold lp in Hp1, Hp2. fold ld in Hd1, Hd2.
  pose proof (Z.log2_nonneg p) as Hlp.
  pose proof (Z.log2_nonneg (Z.pos d)) as Hld.
  fold lp in Hlp. fold ld in Hld.
  assert (0 < inject_Z (Z.pos d))%Q as HD by done.
  rewrite Zle_Qle in Hp1, Hd1. rewrite Zlt_Qlt in Hp2, Hd2.
  rewrite pow2_inject in Hp1, Hp2, Hd1, Hd2 by lia.
  destruct (Qle_bool (2 ^ (lp - ld)) (p # d)) eqn:E.
  - apply Qle_bool_iff in E. split; [done|].
    rewrite (Qmake_Qdiv p d). apply Qlt_shift_div_r; [done|].
    eapply Qlt_le_trans; [exact Hp2|].
    replace (Z.succ lp) with (lp - ld + 1 + ld) by lia.
    rewrite (pow2_plus (lp - ld + 1) ld).
    apply Qmult_le_l; [apply pow2_pos|done].
  - assert (p # d < 2 ^ (lp - ld))%Q as Hlt.
    { apply Qnot_le_lt. intros H%Qle_bool_iff. congruence. }
    split; [|by replace (lp - ld - 1 + 1) with (lp - ld) by lia].
    rewrite (Qmake_Qdiv p d). apply Qle_shift_div_l; [done|].
    eapply Qle_trans; [|exact Hp1].
    replace lp with (lp - ld - 1 + Z.succ ld) at 2 by lia.
    rewrite (pow2_plus (lp - ld - 1) (Z.succ ld)).
    apply Qmult_le_l; [apply pow2_pos|by apply Qlt_le_weak].
Qed.

Lemma ilog2_unique (q : Q) (l : Z) :
  (2 ^ l <= q)%Q → (q < 2 ^ (l + 1))%Q → ilog2 q = l.
Proof.
  intros H1 H2.
  assert (0 < q)%Q as Hq by (eapply Qlt_le_trans; [apply pow2_pos|exact H1]).
  destruct (ilog2_spec q Hq) as [H3 H4].
  destruct (Z.lt_trichotomy (ilog2 q) l) as [Hlt|[Heq|Hgt]]; [|done|].
  - pose proof (pow2_le (ilog2 q + 1) l ltac:(lia)). lra.
  - pose proof (pow2_le (l + 1) (ilog2 q) ltac:(lia)). lra.
Qed.

Lemma ilog2_comp (x y : Q) : (x == y)%Q → (0 < x)%Q → ilog2 x = ilog2 y.
Proof.
  intros Hxy Hx. destruct (ilog2_spec x Hx) as [H1 H2].
  symmetry. apply ilog2_unique; by rewrite <- Hxy.
Qed.

Lemma ilog2_mono (x y : Q) : (0 < x)%Q → (x <= y)%Q → ilog2 x ≤ ilog2 y.
Proof.
  intros Hx Hxy.
  destruct (ilog2_spec x Hx) as [H1 _].
  destruct (ilog2_spec y ltac:(lra)) as [_ H2].
  destruct (Z.le_gt_cases (ilog2 x) (ilog2 y)) as [|Hgt]; [done|].
  pose proof (pow2_le (ilog2 y + 1) (ilog2 x) ltac:(lia)). lra.
Qed.

(** *** Rounding to an integer *)

Lemma rhe_comp (x y : Q) : (x == y)%Q → round_half_even x = round_half_even y.
Proof.
  intros H. unfold round_half_even. rewrite (Qfloor_comp _ _ H).
  assert (x - inject_Z (Qfloor y) == y - inject_Z (Qfloor y))%Q as H'
    by (by rewrite H).
  by rewrite (Qcompare_comp _ _ H' _ _ (Qeq_refl (1 # 2))).
Qed.

Lemma rhe_floor (q : Q) :
  round_half_even q = Qfloor q
  ∨ (round_half_even q = Qfloor q + 1
     ∧ (1 # 2 <= q - inject_Z (Qfloor q))%Q).
Proof.
  unfold round_half_even.
  destruct (q - inject_Z (Qfloor q) ?= 1 # 2)%Q eqn:E.
  - apply Qeq_alt in E. destruct (Z.even _); [by left|right].
    split; [done|]. rewrite E. apply Qle_refl.
  - by left.
  - apply Qgt_alt in E. right. split; [done|]. by apply Qlt_le_weak.
Qed.

Lemma rhe_bounds (q : Q) (lo hi : Z) :
  (inject_Z lo <= q)%Q → (q <= inject_Z hi)%Q →
  lo ≤ round_half_even q ≤ hi.
Proof.
  intros Hlo Hhi.
  assert (lo ≤ Qfloor q) as Hf1.
  { rewrite <- (Qfloor_Z lo). by apply Qfloor_resp_le. }
  assert (Qfloor q ≤ hi) as Hf2.
  { rewrite <- (Qfloor_Z hi). by apply Qfloor_resp_le. }
  destruct (rhe_floor q) as [->|[-> Hhalf]]; [lia|].
  assert (Qfloor q < hi); [|lia].
  rewrite Zlt_Qlt. pose proof (Qfloor_le q). lra.
Qed.

Lemma rhe_Z (n : Z) : round_half_even (inject_Z n) = n.
Proof.
  pose proof (rhe_bounds (inject_Z n) n n (Qle_refl _) (Qle_refl _)). lia.
Qed.

Lemma rhe_cases (q : Q) :
  let r := (q - inject_Z (Qfloor q))%Q in
  ((r < 1 # 2)%Q ∧ round_half_even q = Qfloor q)
  ∨ ((r == 1 # 2)%Q
     ∧ round_half_even q = if Z.even (Qfloor q) then Qfloor q else Qfloor q + 1)
  ∨ ((1 # 2 < r)%Q ∧ round_half_even q = Qfloor q + 1).
Proof.
  unfold round_half_even.
  destruct (q - inject_Z (Qfloor q) ?= 1 # 2)%Q eqn:E.
  - right. left. by apply Qeq_alt in E.
  - left. by apply Qlt_alt in E.
  - right. right. by apply Qgt_alt in E.
Qed.

Lemma rhe_mono (x y : Q) :
  (x <= y)%Q → round_half_even x ≤ round_half_even y.
Proof.
  intros Hxy.
  pose proof (Qfloor_resp_le _ _ Hxy) as Hf.
  destruct (Z.eq_dec (Qfloor x) (Qfloor y)) as [Heq|Hne].
  - destruct (rhe_cases x) as [[Hx ->]|[[Hx ->]|[Hx ->]]],
      (rhe_cases y) as [[Hy ->]|[[Hy ->]|[Hy ->]]];
      rewrite Heq in *; try destruct (Z.even (Qfloor y)); try lia; lra.
  - destruct (rhe_floor x) as [->|[-> _]], (rhe_floor y) as [->|[-> _]]; lia.
Qed.

(** *** Rounding to binary64 *)

Lemma Qabs_pos_lt (q : Q) : ¬ (q == 0)%Q → (0 < Qabs q)%Q.
Proof.
  intros Hq. destruct (Qlt_le_dec q 0) as [Hneg|Hpos].
  - rewrite Qabs_neg by lra. lra.
  - rewrite Qabs_pos by done.
    destruct (Qlt_le_dec 0 q) as [|Hle]; [done|].
    destruct Hq. by apply Qle_antisym.
Qed.

Lemma fexp_comp (x y : Q) : (x == y)%Q → (0 < x)%Q → fexp x = fexp y.
Proof. intros Hxy Hx. unfold fexp. by rewrite (ilog2_comp _ _ Hxy Hx). Qed.

Lemma fl_comp (x y : Q) : (x == y)%Q → fl x = fl y.
Proof.
  intros H. unfold fl.
  assert (Qeq_bool x 0 = Qeq_bool y 0) as ->.
  { destruct (Qeq_bool x 0) eqn:Ex, (Qeq_bool y 0) eqn:Ey; try done.
    - apply Qeq_bool_iff in Ex. rewrite H in Ex. apply Qeq_bool_iff in Ex.
      congruence.
    - apply Qeq_bool_iff in Ey. rewrite <- H in Ey. apply Qeq_bool_iff in Ey.
      congruence. }
  destruct (Qeq_bool y 0) eqn:Ey; [done|].
  assert (¬ (x == 0)%Q) as Hx0.
  { rewrite H. intros H0%Qeq_bool_iff. congruence. }
  assert (Qabs x == Qabs y)%Q as Habs by (by rewrite H).
  rewrite (fexp_comp _ _ Habs (Qabs_pos_lt x Hx0)).
  set (e := fexp (Qabs y)).
  rewrite (rhe_comp (Qabs x / 2 ^ e) (Qabs y / 2 ^ e)) by (by rewrite Habs).
  apply Qred_complete.
  destruct (Qlt_le_dec x 0) as [Hx|Hx], (Qlt_le_dec y 0) as [Hy|Hy];
    try done; lra.
Qed.

Lemma fl_pos (q : Q) :
  (0 < q)%Q →
  (fl q == inject_Z (round_half_even (q / 2 ^ fexp q)) * 2 ^ fexp q)%Q.
Proof.
  intros Hq. unfold fl.
  destruct (Qeq_bool q 0) eqn:E; [apply Qeq_bool_iff in E; lra|].
  assert (Qabs q == q)%Q as Habs by (apply Qabs_pos; lra).
  destruct (Qlt_le_dec q 0) as [Hneg|_]; [lra|].
  rewrite Qred_correct.
  rewrite (fexp_comp _ _ Habs) by lra.
  by rewrite (rhe_comp (Qabs q / 2 ^ fexp q) (q / 2 ^ fexp q))
    by (by rewrite Habs).
Qed.

Lemma fl_zero (q : Q) : (q == 0)%Q → fl q = 0%Q.
Proof. intros H. unfold fl. apply Qeq_bool_iff in H. by rewrite H. Qed.

(** The significand of a positive number: below [2^53], and at least
    [2^52] for a normal number. *)
Lemma significand_upper (q : Q) :
  (0 < q)%Q → (q / 2 ^ fexp q <= inject_Z (2 ^ 53))%Q.
Proof.
  intros Hq. destruct (ilog2_spec q Hq) as [_ H2].
  apply Qle_shift_div_r; [apply pow2_pos|].
  rewrite pow2_inject by lia. rewrite <- pow2_plus.
  apply Qlt_le_weak. eapply Qlt_le_trans; [exact H2|].
  apply pow2_le. unfold fexp. lia.
Qed.

Lemma significand_lower (q : Q) :
  (0 < q)%Q → fexp q = ilog2 q - 52 →
  (inject_Z (2 ^ 52) <= q / 2 ^ fexp q)%Q.
Proof.
  intros Hq He. destruct (ilog2_spec q Hq) as [H1 _].
  apply Qle_shift_div_l; [apply pow2_pos|].
  rewrite pow2_inject by lia. rewrite <- pow2_plus.
  eapply Qle_trans; [|exact H1]. apply pow2_le. lia.
Qed.

Lemma fl_nonneg (q : Q) : (0 <= q)%Q → (0 <= fl q)%Q.
Proof.
  intros Hq. destruct (Qlt_le_dec 0 q) as [Hpos|Hle].
  - rewrite (fl_pos q Hpos). apply Qmult_le_0_compat.
    + change 0%Q with (inject_Z 0). rewrite <- Zle_Qle.
      apply (rhe_bounds _ 0 (2 ^ 53)); [|by apply significand_upper].
      apply Qle_shift_div_l; [apply pow2_pos|]. change (inject_Z 0) with 0%Q. lra.
    + apply Qlt_le_weak, pow2_pos.
  - rewrite (fl_zero q); [apply Qle_refl|by apply Qle_antisym].
Qed.

Lemma fl_mono (x y : Q) : (0 <= x)%Q → (x <= y)%Q → (fl x <= fl y)%Q.
Proof.
  intros Hx Hxy. destruct (Qlt_le_dec 0 x) as [Hpos|Hle].
  2: { rewrite (fl_zero x) by (by apply Qle_antisym). apply fl_nonneg. lra. }
  assert (0 < y)%Q as Hy by lra.
  rewrite (fl_pos x Hpos), (fl_pos y Hy).
  pose proof (ilog2_mono x y Hpos Hxy) as Hl.
  destruct (Z.eq_dec (fexp x) (fexp y)) as [Heq|Hne].
  - rewrite Heq. apply Qmult_le_compat_r; [|apply Qlt_le_weak, pow2_pos].
    rewrite <- Zle_Qle. apply rhe_mono.
    apply Qmult_le_compat_r; [done|]. apply Qlt_le_weak, Qinv_lt_0_compat, pow2_pos.
  - assert (fexp x + 1 ≤ fexp y ∧ fexp y = ilog2 y - 52) as [He Hy']
      by (unfold fexp in *; lia).
    assert (0 ≤ round_half_even (x / 2 ^ fexp x) ≤ 2 ^ 53) as [_ Hux].
    { apply rhe_bounds; [|by apply significand_upper].
      apply Qle_shift_div_l; [apply pow2_pos|].
      change (inject_Z 0) with 0%Q. lra. }
    pose proof (significand_lower y Hy Hy') as Hly.
    pose proof (rhe_bounds _ (2 ^ 52) (2 ^ 53) Hly (significand_upper y Hy))
      as [Hly' _].
    rewrite Zle_Qle in Hux, Hly'.
    rewrite pow2_inject in Hux, Hly' by lia.
    apply Qle_trans with (2 ^ 53 * 2 ^ fexp x)%Q.
    { apply Qmult_le_compat_r; [done|apply Qlt_le_weak, pow2_pos]. }
    apply Qle_trans with (2 ^ 52 * 2 ^ fexp y)%Q.
    { rewrite <- !pow2_plus. apply pow2_le. lia. }
    apply Qmult_le_compat_r; [done|apply Qlt_le_weak, pow2_pos].
Qed.

(** Twice a binary64 number is a binary64 number. *)
Lemma fl_double (a : Q) :
  (0 <= a)%Q → (fl a == a)%Q → (fl (a + a) == a + a)%Q.
Proof.
  intros Ha Hfl. destruct (Qlt_le_dec 0 a) as [Hpos|Hle].
  2: { rewrite (fl_zero (a + a)) by lra. lra. }
  assert (0 < a + a)%Q as Hpos2 by lra.
  rewrite (fl_pos a Hpos) in Hfl. rewrite (fl_pos _ Hpos2).
  set (n := round_half_even (a / 2 ^ fexp a)) in *.
  pose proof (pow2_pos (fexp a)) as Hp.
  assert (a / 2 ^ fexp a == inject_Z n)%Q as Hn.
  { rewrite <- Hfl at 1. field. lra. }
  destruct (ilog2_spec a Hpos) as [H1 H2].
  assert (ilog2 (a + a) = ilog2 a + 1) as Hl.
  { apply ilog2_unique.
    - rewrite (pow2_plus (ilog2 a) 1). change (2 ^ 1)%Q with 2%Q. lra.
    - rewrite (pow2_plus (ilog2 a) 1) in H2.
      rewrite (pow2_plus (ilog2 a + 1) 1), (pow2_plus (ilog2 a) 1).
      change (2 ^ 1)%Q with 2%Q in *. lra. }
  destruct (Z.le_gt_cases (-1074) (ilog2 a - 52)) as [Hnorm|Hsub].
  - assert (fexp (a + a) = fexp a + 1) as He by (unfold fexp; lia).
    rewrite He.
    rewrite (rhe_comp ((a + a) / 2 ^ (fexp a + 1)) (a / 2 ^ fexp a))
      by (rewrite (pow2_plus (fexp a) 1); change (2 ^ 1)%Q with 2%Q;
          field; lra).
    fold n. rewrite (pow2_plus (fexp a) 1). change (2 ^ 1)%Q with 2%Q.
    set (E := (2 ^ fexp a)%Q) in *.
    transitivity (inject_Z n * E + inject_Z n * E)%Q; [ring|]. by rewrite Hfl.
  - assert (fexp (a + a) = fexp a) as He by (unfold fexp; lia).
    rewrite He.
    rewrite (rhe_comp ((a + a) / 2 ^ fexp a) (inject_Z (n + n))).
    + rewrite rhe_Z, inject_Z_plus. set (E := (2 ^ fexp a)%Q) in *.
      transitivity (inject_Z n * E + inject_Z n * E)%Q; [ring|]. by rewrite Hfl.
    + rewrite inject_Z_plus, <- Hn. field. lra.
Qed.

End FloatFacts.

(** ** load_test.py *)

Module LoadTestFacts.
Import LoadTest LoadTestSpec.

(** *** The model on small inputs *)

Example splitlines_ex :
  splitlines ("ab" +:+ String (ascii_of_N 13) (String (ascii_of_N 10) "")
              +:+ String (ascii_of_N 10) "c ")
  = ["ab"; ""; "c "].
Proof. reflexivity. Qed.

Example ids_from_text_ex :
  ids_from_text
    (" MLA1 " +:+ String (ascii_of_N 10) ("  " +:+ String (ascii_of_N 10) "MLA2"))
  = ["MLA1"; "MLA2"].
Proof. reflexivity. Qed.

Example synthetic_ids_ex : synthetic_ids 3 = ["MLA0"; "MLA1"; "MLA2"].
Proof. reflexivity. Qed.

Example make_batches_ex :
  make_batches ["a"; "b"; "c"; "d"; "e"] 2
  = Ok [["a"; "b"]; ["c"; "d"]; ["e"]].
Proof. reflexivity. Qed.

Example request_url_ex :
  request_url "http://h/d" ["MLA1"; "a b"; "x/y"]
  = "http://h/d?item_ids=MLA1,a%20b,x%2Fy".
Proof. reflexivity. Qed.

Example format_2f_ex :
  map format_2f [1 # 8; -1 # 1000; 12345678 # 10000; 0; -5 # 2]%Q
  = ["0.12"; "-0.00"; "1234.57"; "0.00"; "-2.50"].
Proof. vm_compute. reflexivity. Qed.

(** *** The source of the identifiers *)

(** With an inline list and a file, the identifiers are not the inline
    list: they are the lines of the file. *)
Lemma inline_list_not_first :
  ids both_sources = Some ["MLA1"; "MLA2"]
  ∧ ids_file both_sources = Some "my_ids.txt"
  ∧ resolve_ids one_file both_sources = Ok ["MLA7"; "MLA8"]
  ∧ resolve_ids one_file both_sources ≠ Ok ["MLA1"; "MLA2"].
Proof. repeat split. vm_compute. discriminate. Qed.

(** C1, amended. The identifiers come from exactly one source, the first
    that is supplied in the order file, inline list, synthetic sequence:
    a non-empty file path wins over everything else, and the identifiers
    are then the stripped non-blank lines of the file; the inline list is
    used when there is no file path; the synthetic sequence when there is
    neither. An empty outcome of the chosen source ends the run, no other
    source is tried. *)
Theorem resolve_ids_priority (fs : filesystem) (a : args) :
  (∀ p, ids_file a = Some p → p ≠ "" →
     resolve_ids fs a = (t ← read_text fs p; require_ids (ids_from_text t)))
  ∧ (opt_truthy str_truthy (ids_file a) = false →
     ∀ l, ids a = Some l → l ≠ [] → resolve_ids fs a = Ok l)
  ∧ (opt_truthy str_truthy (ids_file a) = false →
     opt_truthy list_truthy (ids a) = false →
     resolve_ids fs a = require_ids (synthetic_ids (num_ids a))).
Proof.
  unfold resolve_ids. repeat split.
  - intros p -> Hp. simpl.
    destruct p; [done|]. simpl. unfold read_text. by destruct (fs _).
  - intros -> l -> Hl. simpl. by destruct l.
  - by intros -> ->.
Qed.

Lemma resolve_ids_priority_witness :
  resolve_ids one_file both_sources = Ok ["MLA7"; "MLA8"].
Proof.
  destruct (resolve_ids_priority one_file both_sources) as [H _].
  rewrite (H "my_ids.txt" eq_refl ltac:(discriminate)).
  reflexivity.
Defined.

Lemma make_batches_windows (l : list string) (B : Z) :
  1 ≤ B →
  make_batches l B =
    Ok (map (λ k, take (Z.to_nat B) (drop (k * Z.to_nat B) l))
            (seq 0 (Z.to_nat (range_len 0 (len l) B)))).
Proof.
  intros HB. unfold make_batches, range3.
  zbool.
  simpl. f_equal. rewrite map_map. apply map_ext_in.
  intros k Hk%in_seq. fold (len l).
  assert (Z.of_nat k * B < len l) as Hlt.
  { destruct (Z.le_gt_cases (len l) 0) as [H0|H0].
    - unfold range_len in Hk.
      replace (0 <? len l) with false in Hk by (symmetry; apply Z.ltb_ge; lia).
      rewrite andb_false_r in Hk.
      replace (len l <? 0) with false in Hk
        by (symmetry; apply Z.ltb_ge; unfold len; lia).
      rewrite andb_false_r in Hk. simpl in Hk. lia.
    - rewrite range_len_up in Hk by lia.
      pose proof (ceil_div_bounds (len l) B ltac:(lia)). nia. }
  replace (0 + Z.of_nat k * B) with (Z.of_nat k * B) by lia.
  rewrite slice_window by (unfold len in *; lia).
  do 2 f_equal. lia.
Qed.

(** C2. For an identifier list of length [N ≥ 1] and a batch size [B ≥ 1],
    line 83 produces exactly [ceil(N / B)] batches; every batch has at most
    [B] identifiers and every batch but the last exactly [B]; batch [i] is
    the window of the list that starts at [i * B]; and the batches put end
    to end are the list. *)
Theorem make_batches_partition (l : list string) (B : Z) :
  1 ≤ len l → 1 ≤ B →
  ∃ bs, make_batches l B = Ok bs
    ∧ len bs = ceil_div (len l) B
    ∧ B * (len bs - 1) < len l ≤ B * len bs
    ∧ concat bs = l
    ∧ Forall (λ b, 1 ≤ len b ≤ B) bs
    ∧ (∀ i b, bs !! i = Some b → (S i < length bs)%nat → len b = B)
    ∧ (∀ i b, bs !! i = Some b →
         b = take (Z.to_nat B) (drop (i * Z.to_nat B) l)).
Proof.
  intros HN HB. eexists. split; [by apply make_batches_windows|].
  set (m := Z.to_nat (range_len 0 (len l) B)).
  set (w := Z.to_nat B).
  pose proof (ceil_div_bounds (len l) B ltac:(lia)) as Hc.
  assert (Hm : Z.of_nat m = ceil_div (len l) B).
  { subst m. rewrite range_len_up by lia. lia. }
  assert (Hlen : len (map (λ k, take w (drop (k * w) l)) (seq 0 m)) = Z.of_nat m).
  { unfold len. by rewrite length_map, length_seq. }
  assert (Hith : ∀ i b,
    map (λ k, take w (drop (k * w) l)) (seq 0 m) !! i = Some b →
    (i < m)%nat ∧ b = take w (drop (i * w) l)).
  { intros i b Hi. rewrite list_lookup_fmap in Hi.
    destruct (seq 0 m !! i) as [k|] eqn:Hk; [|done].
    apply lookup_seq in Hk as [-> ?]. simpl in Hi. by inversion Hi. }
  rewrite Hlen. repeat split; try lia.
  - rewrite concat_windows. apply take_ge. unfold len in *. subst w. nia.
  - apply Forall_lookup_2. intros i b [Hi ->]%Hith.
    unfold len in *. rewrite length_take, length_drop. subst w. nia.
  - intros i b [Hi ->]%Hith Hlast.
    rewrite length_map, length_seq in Hlast.
    unfold len in *. rewrite length_take, length_drop. subst w. nia.
  - intros i b [Hi ->]%Hith. done.
Qed.

Lemma make_batches_partition_witness :
  ∃ bs, make_batches ["a"; "b"; "c"; "d"; "e"] 2 = Ok bs
    ∧ len bs = 3 ∧ concat bs = ["a"; "b"; "c"; "d"; "e"].
Proof.
  destruct (make_batches_partition ["a"; "b"; "c"; "d"; "e"] 2)
    as (bs & Hbs & Hlen & _ & Hcat & _).
  - unfold len; simpl; lia.
  - lia.
  - exists bs. split; [exact Hbs|]. split; [|exact Hcat].
    rewrite Hlen. reflexivity.
Defined.

(** *** Counting the requests of a run *)

Lemma counts_bind {A B} (c : coro A) (f : A → coro B) g a g' a' :
  counts g a c → (∀ r, counts g' a' (f r)) →
  counts (g + g') (a + a') (c ≫= f).
Proof.
  intros Hc Hf. induction Hc; simpl; try (constructor; auto); auto.
Qed.

Lemma counts_request_once base_url item_ids :
  counts 1 0 (request_once base_url item_ids).
Proof.
  unfold request_once, perf_counter, client_get. simpl.
  constructor. intros start. constructor. intros r. constructor. intros stop.
  destruct (negb _); simpl; repeat constructor.
Qed.

Lemma counts_for_each {A} (l : list A) (body : A → coro unit) g a :
  (∀ x, counts g a (body x)) →
  counts (length l * g) (length l * a) (for_each l body).
Proof.
  intros Hbody. induction l as [|x l IH]; simpl.
  - constructor.
  - apply counts_bind; auto.
Qed.

Lemma counts_worker name base_url batches iterations :
  counts (Z.to_nat iterations * length batches)
         (Z.to_nat iterations * length batches)
         (worker name base_url batches iterations).
Proof.
  unfold worker. rewrite <- (length_range1 iterations).
  apply counts_for_each. intros _.
  replace (length batches) with (length batches * 1)%nat at 1 2 by lia.
  apply counts_for_each. intros batch.
  apply (counts_bind _ _ 1 0 0 1); [apply counts_request_once|].
  intros e. repeat constructor.
Qed.

(** A segment sends one request if a request is left, and appends what the
    coroutine appends up to there. *)
Lemma run_segment_counts c w g a :
  counts g a c →
  ∃ g' a', task_counts (g', a') (run_segment c w).1
    ∧ (length (sent (run_segment c w).2) + g' = length (sent w) + g)%nat
    ∧ (length (results (run_segment c w).2) + a' = length (results w) + a)%nat.
Proof.
  intros Hc. revert w. induction Hc; intros w; simpl.
  - exists 0%nat, 0%nat. split; [constructor|done].
  - auto.
  - exists g, a. split; [by constructor|]. simpl. rewrite length_app. simpl. lia.
  - destruct (IHHc {| results := results w; stderr := stderr w ++ [line];
                      sent := sent w; clock := clock w |})
      as (g' & a' & ? & ? & ?).
    exists g', a'. done.
  - destruct (IHHc {| results := results w ++ [x]; stderr := stderr w;
                      sent := sent w; clock := clock w |})
      as (g' & a' & ? & Hs & Hr).
    exists g', a'. split; [done|]. simpl in *.
    rewrite length_app in Hr. simpl in Hr. lia.
Qed.

Lemma total_insert f rem i old new :
  rem !! i = Some old →
  (total f (<[i := new]> rem) + f old = total f rem + f new)%nat.
Proof.
  unfold total. revert i. induction rem as [|x rem IH]; intros [|i] Hi;
    simplify_eq/=; [lia|].
  specialize (IH i Hi). lia.
Qed.

Lemma balanced_update T st i t w rem old g a g' a' :
  Forall2 task_counts rem (tasks st) →
  rem !! i = Some old → old = (g, a) →
  task_counts (g', a') t →
  (length (sent w) + g' = length (sent (shared st)) + g)%nat →
  (length (results w) + a' = length (results (shared st)) + a)%nat →
  (length (sent (shared st)) + total fst rem = T)%nat →
  (length (results (shared st)) + total snd rem = T)%nat →
  balanced T {| tasks := <[i := t]> (tasks st); shared := w; failed := false |}.
Proof.
  intros HF Hi -> Ht Hs Hr HTs HTr.
  exists (<[i := (g', a')]> rem). simpl. split; [|split].
  - by apply Forall2_insert.
  - pose proof (total_insert fst rem i (g, a) (g', a') Hi). simpl in *. lia.
  - pose proof (total_insert snd rem i (g, a) (g', a') Hi). simpl in *. lia.
Qed.

Lemma step_balanced T st e st' :
  balanced T st → step st e = Some st' → balanced T st'.
Proof.
  intros (rem & HF & HTs & HTr) Hstep. unfold step in Hstep.
  destruct (failed st); [done|].
  destruct e as [i|i dt r|i];
    destruct (tasks st !! i) as [[c|k|]|] eqn:Hi; simplify_eq/=.
  - destruct (Forall2_lookup_r _ _ _ _ _ HF Hi) as ([g a] & Hrem & Htc).
    inversion Htc; subst.
    destruct (run_segment_counts c (shared st) g a) as (g' & a' & ? & ? & ?);
      [done|].
    destruct (run_segment c (shared st)) as [t w]. simplify_eq/=.
    by eapply balanced_update.
  - destruct (Qle_bool 0 dt); [|done].
    destruct (Forall2_lookup_r _ _ _ _ _ HF Hi) as ([g a] & Hrem & Htc).
    inversion Htc; subst.
    destruct (run_segment_counts (k r) (tick dt (shared st)) g a)
      as (g' & a' & ? & ? & ?); [done|].
    destruct (run_segment (k r) (tick dt (shared st))) as [t w]. simplify_eq/=.
    by eapply balanced_update.
  - by exists rem.
Qed.

Lemma exec_balanced T es : ∀ st st',
  balanced T st → exec st es = Some st' → balanced T st'.
Proof.
  induction es as [|e es IH]; intros st st' Hb Hex; simpl in Hex.
  - by simplify_eq.
  - destruct (step st e) as [st1|] eqn:Hstep; [|done].
    eauto using step_balanced.
Qed.

Lemma balanced_done T st :
  balanced T st → forallb is_done (tasks st) = true →
  length (sent (shared st)) = T ∧ length (results (shared st)) = T.
Proof.
  intros (rem & HF & HTs & HTr) Hdone.
  assert (total fst rem = 0 ∧ total snd rem = 0)%nat as [H1 H2].
  { clear HTs HTr. unfold total. induction HF as [|p t rem ts Htc HF IH]; [done|].
    simpl in Hdone. apply andb_true_iff in Hdone as [Ht Hts].
    destruct (IH Hts) as [IH1 IH2].
    destruct t; simplify_eq/=. inversion Htc; subst. simpl. lia. }
  lia.
Qed.

Lemma total_replicate f n p : total f (replicate n p) = (n * f p)%nat.
Proof. unfold total. induction n; simpl; lia. Qed.

Lemma balanced_gather a batches t0 :
  balanced (Z.to_nat (concurrency a) * (Z.to_nat (runs a) * length batches))
    (gather (map (λ i, worker ("worker-" +:+ str_of_int i) (url a) batches (runs a))
                 (range1 (concurrency a))) t0).
Proof.
  set (n := (Z.to_nat (runs a) * length batches)%nat).
  exists (replicate (Z.to_nat (concurrency a)) (n, n)). simpl.
  rewrite !total_replicate. simpl. split; [|lia].
  rewrite <- (length_range1 (concurrency a)).
  induction (range1 (concurrency a)) as [|i l IH]; simpl; constructor; [|done].
  constructor. apply counts_worker.
Qed.

(** *** Every run can be completed *)

Lemma run_segment_shape (c : coro unit) w g a :
  counts g a c →
  (run_segment c w).1 = Done
  ∨ ∃ k g' a', (run_segment c w).1 = Waiting k ∧ g = S g'
      ∧ ∀ r, counts g' a' (k r).
Proof.
  intros Hc. revert w. induction Hc; intros w; simpl; eauto.
  right. exists k, g, a. eauto.
Qed.

Lemma exec_app st es1 es2 st1 :
  exec st es1 = Some st1 → exec st (es1 ++ es2) = exec st1 es2.
Proof.
  revert st. induction es1 as [|e es1 IH]; intros st Hex; simpl in *.
  - by simplify_eq.
  - destruct (step st e); [eauto|done].
Qed.

Lemma drive_waiting g : ∀ a k st i,
  (∀ r, counts g a (k r)) →
  tasks st !! i = Some (Waiting k) → failed st = false →
  ∃ es st', exec st es = Some st' ∧ failed st' = false
    ∧ tasks st' = <[i := Done]> (tasks st).
Proof.
  induction g as [|g IH]; intros a k st i Hk Hi Hf.
  - exists [Reply i 0 ok_response]. simpl. unfold step. rewrite Hf, Hi.
    destruct (run_segment_shape (k ok_response) (tick 0 (shared st)) 0 a)
      as [Hd|(k' & g' & a' & _ & ? & _)]; [done| |done].
    destruct (run_segment _ _) as [t w]. simpl in Hd. subst t.
    eexists. done.
  - destruct (run_segment_shape (k ok_response) (tick 0 (shared st)) (S g) a)
      as [Hd|(k' & g' & a' & Hw & Hg & Hk')]; [done|..].
    + exists [Reply i 0 ok_response]. simpl. unfold step. rewrite Hf, Hi.
      destruct (run_segment _ _) as [t w]. simpl in Hd. subst t.
      eexists. done.
    + simplify_eq.
      destruct (run_segment (k ok_response) (tick 0 (shared st))) as [t w] eqn:Hrs.
      simpl in Hw. subst t.
      destruct (IH a' k'
        {| tasks := <[i := Waiting k']> (tasks st); shared := w; failed := false |} i)
        as (es & st' & Hex & Hf' & Ht'); [done| |done|].
      { simpl. apply list_lookup_insert_eq. by eapply lookup_lt_Some. }
      exists (Reply i 0 ok_response :: es), st'. simpl. unfold step.
      rewrite Hf, Hi, Hrs. split; [done|]. split; [done|].
      rewrite Ht'. simpl. by rewrite list_insert_insert_eq.
Qed.

Lemma drive_task p t st i :
  task_counts p t → tasks st !! i = Some t → failed st = false →
  ∃ es st', exec st es = Some st' ∧ failed st' = false
    ∧ tasks st' = <[i := Done]> (tasks st).
Proof.
  intros Htc Hi Hf. inversion Htc as [g a c Hc|g a k Hk|]; subst.
  - destruct (run_segment_shape c (shared st) g a)
      as [Hd|(k' & g' & a' & Hw & Hg & Hk')]; [done|..].
    + exists [Start i]. simpl. unfold step. rewrite Hf, Hi.
      destruct (run_segment _ _) as [t w]. simpl in Hd. subst t.
      eexists. done.
    + destruct (run_segment c (shared st)) as [t w] eqn:Hrs.
      simpl in Hw. subst t.
      destruct (drive_waiting g' a' k'
        {| tasks := <[i := Waiting k']> (tasks st); shared := w; failed := false |} i)
        as (es & st' & Hex & Hf' & Ht'); [done| |done|].
      { simpl. apply list_lookup_insert_eq. by eapply lookup_lt_Some. }
      exists (Start i :: es), st'. simpl. unfold step.
      rewrite Hf, Hi, Hrs. split; [done|]. split; [done|].
      rewrite Ht'. simpl. by rewrite list_insert_insert_eq.
  - by eapply drive_waiting.
  - exists [], st. split; [done|]. split; [done|].
    by rewrite list_insert_id.
Qed.

Lemma drive_prefix n : ∀ st,
  failed st = false → Forall (λ t, ∃ p, task_counts p t) (tasks st) →
  ∃ es st', exec st es = Some st' ∧ failed st' = false
    ∧ length (tasks st') = length (tasks st)
    ∧ (∀ j, (j < n)%nat → (j < length (tasks st))%nat → tasks st' !! j = Some Done)
    ∧ (∀ j, (n ≤ j)%nat → tasks st' !! j = tasks st !! j).
Proof.
  induction n as [|n IH]; intros st Hf Hall.
  - exists [], st. repeat split; auto. lia.
  - destruct (IH st Hf Hall) as (es & st1 & Hex & Hf1 & Hlen & Hlo & Hhi).
    destruct (tasks st1 !! n) as [t|] eqn:Hn.
    + assert (∃ p, task_counts p t) as [p Hp].
      { rewrite Hhi in Hn by lia.
        by eapply (Forall_lookup_1 _ _ _ _ Hall). }
      destruct (drive_task p t st1 n Hp Hn Hf1) as (es2 & st2 & Hex2 & Hf2 & Ht2).
      exists (es ++ es2), st2. rewrite (exec_app _ _ _ _ Hex).
      split; [done|]. split; [done|]. rewrite Ht2, length_insert.
      split; [done|]. split.
      * intros j Hj Hjl. destruct (decide (j = n)) as [->|Hne].
        -- apply list_lookup_insert_eq. lia.
        -- rewrite list_lookup_insert_ne by done. apply Hlo; lia.
      * intros j Hj. rewrite list_lookup_insert_ne by lia. apply Hhi. lia.
    + exists es, st1. split; [done|]. split; [done|]. split; [done|].
      apply lookup_ge_None in Hn. split.
      * intros j Hj Hjl. apply Hlo; lia.
      * intros j Hj. apply Hhi. lia.
Qed.

(** Once the identifiers are resolved and batched, some schedule completes
    the run and returns the samples. *)
Lemma run_load_test_completes fs a t0 batches cs :
  run_load_test_tasks fs a = Ok (batches, cs) →
  ∃ es rs, run_load_test fs a t0 es = Some (Ok rs).
Proof.
  intros Htasks.
  destruct (drive_prefix (length cs) (gather cs t0)) as (es & st & Hex & Hf & Hlen & Hlo & _).
  - done.
  - unfold run_load_test_tasks in Htasks.
    destruct (resolve_ids fs a) as [l|]; simplify_eq/=.
    destruct (make_batches l (batch_size a)) as [bs|]; simplify_eq/=.
    apply Forall_forall. intros t Ht.
    apply list_elem_of_fmap in Ht as (c & -> & Hc).
    apply list_elem_of_fmap in Hc as (i & -> & Hi).
    eexists. constructor. apply counts_worker.
  - exists es, (results (shared st)). unfold run_load_test.
    rewrite Htasks, Hex, Hf.
    replace (forallb is_done (tasks st)) with true; [done|].
    symmetry. apply forallb_forall. intros t Ht.
    rewrite <- list_elem_of_In in Ht.
    apply list_elem_of_lookup in Ht as [j Hj].
    rewrite Hlo in Hj.
    + by simplify_eq.
    + apply lookup_lt_Some in Hj. simpl in Hlen. rewrite length_map in Hlen. lia.
    + apply lookup_lt_Some in Hj. simpl in *. lia.
Qed.

(** C3. In a run of [C] workers and [I] iterations per worker over [K]
    batches that returns its samples (so no request failed), the client
    has sent exactly [C * I * K] requests and the samples returned are
    exactly as many, whatever the order in which the event loop resumes the
    workers. *)
Theorem requests_issued (fs : filesystem) (a : args) (t0 : Q)
    (es : list event) (rs : list Q) :
  0 ≤ concurrency a → 0 ≤ runs a →
  run_load_test fs a t0 es = Some (Ok rs) →
  ∃ batches cs st,
    run_load_test_tasks fs a = Ok (batches, cs)
    ∧ exec (gather cs t0) es = Some st
    ∧ rs = results (shared st)
    ∧ len (sent (shared st)) = concurrency a * runs a * len batches
    ∧ len rs = concurrency a * runs a * len batches.
Proof.
  intros HC HI Hrun. unfold run_load_test in Hrun.
  destruct (run_load_test_tasks fs a) as [[batches cs]|e] eqn:Htasks;
    [|by destruct es].
  destruct (exec (gather cs t0) es) as [st|] eqn:Hex; [|done].
  destruct (failed st); [done|].
  destruct (forallb is_done (tasks st)) eqn:Hdone; [|done].
  simplify_eq. exists batches, cs, st. repeat split; [done|..].
  all: unfold run_load_test_tasks in Htasks;
    destruct (resolve_ids fs a) as [l|]; simplify_eq/=;
    destruct (make_batches l (batch_size a)) as [bs|]; simplify_eq/=;
    pose proof (balanced_gather a batches t0) as Hb;
    eapply exec_balanced in Hb; [|done];
    destruct (balanced_done _ _ Hb Hdone) as [Hs Hr];
    unfold len; rewrite ?Hs, ?Hr; lia.
Qed.

Lemma requests_issued_witness :
  ∃ rs, run_load_test no_files small_run 0 small_schedule = Some (Ok rs)
    ∧ len rs = 2 * 1 * 2.
Proof.
  eexists. split; [vm_compute; reflexivity|].
  eassert (run_load_test no_files small_run 0 small_schedule = Some (Ok _))
    as Hrun by (vm_compute; reflexivity).
  destruct (requests_issued no_files small_run 0 small_schedule _
              ltac:(simpl; lia) ltac:(simpl; lia) Hrun)
    as (batches & cs & st & Htasks & _ & _ & _ & Hlen).
  assert (batches = [["MLA1"; "MLA2"]; ["MLA3"]]) as ->.
  { assert (run_load_test_tasks no_files small_run ≫= (λ p, Ok p.1)
            = Ok [["MLA1"; "MLA2"]; ["MLA3"]]) as Hb by (vm_compute; reflexivity).
    rewrite Htasks in Hb. by inversion Hb. }
  exact Hlen.
Defined.

(** *** One request *)

(** A response with status 204, a success status of the 2xx class, is
    reported on the error stream all the same. *)
Lemma warning_for_2xx_status :
  200 ≤ status_code no_content < 300
  ∧ ∃ st,
      exec (gather [request_once "http://h/d" ["MLA1"] ≫= results_append] 0)
           [Start 0; Reply 0 (1 # 100) no_content]
      = Some st
      ∧ sent (shared st) = ["http://h/d?item_ids=MLA1"]
      ∧ stderr (shared st) = ["WARN: HTTP 204 taking 10.00 ms (payload 0 B)"]
      ∧ stderr (shared st) ≠ [].
Proof.
  split; [simpl; lia|]. eexists. split; [reflexivity|].
  split; [reflexivity|]. split; [reflexivity|]. discriminate.
Qed.

(** C6, amended. A request that is answered sends one request and no more,
    and its elapsed time is appended to the samples whatever the status of
    the response. One line is printed on the error stream exactly when the
    status is not 200, and the line holds the status, the elapsed time in
    milliseconds and the length of the payload. *)
Theorem request_once_outcome (base_url : string) (item_ids : list string)
    (w : world) (dt : Q) (r : response) :
  let u := request_url base_url item_ids in
  let elapsed := fl (clock w + dt - clock w) in
  ∃ k,
    run_segment (request_once base_url item_ids ≫= results_append) w
    = (Waiting k,
       {| results := results w; stderr := stderr w; sent := sent w ++ [u];
          clock := clock w |})
    ∧ run_segment (k r)
        (tick dt {| results := results w; stderr := stderr w;
                    sent := sent w ++ [u]; clock := clock w |})
      = (Done,
         {| results := results w ++ [elapsed];
            stderr := stderr w ++
              (if status_code r =? 200 then [] else [warn_line r elapsed]);
            sent := sent w ++ [u];
            clock := (clock w + dt)%Q |})
    ∧ (elapsed == fl dt)%Q
    ∧ warn_line r elapsed
      = "WARN: HTTP " +:+ str_of_int (status_code r) +:+ " taking "
        +:+ format_2f (fl (elapsed * 1000)) +:+ " ms (payload "
        +:+ str_of_int (content_len r) +:+ " B)".
Proof.
  intros u elapsed. eexists. split; [reflexivity|]. simpl.
  split; [|split; [|reflexivity]].
  2: { subst elapsed. rewrite (FloatFacts.fl_comp _ dt); [reflexivity|ring]. }
  destruct (status_code r =? 200); simpl; [|reflexivity].
  by rewrite app_nil_r.
Qed.

(** *** Sorting and ranks *)

Lemma Qle_bool_total x y : Qle_bool x y = false → Qle_bool y x = true.
Proof.
  intros H. apply Qle_bool_iff.
  destruct (Qlt_le_dec y x) as [Hlt|Hle]; [by apply Qlt_le_weak|].
  apply Qle_bool_iff in Hle. congruence.
Qed.

Lemma Qltb_lt x y : Qltb x y = true ↔ (x < y)%Q.
Proof.
  unfold Qltb. rewrite negb_true_iff. split.
  - intros H. apply Qnot_le_lt. intros Hle%Qle_bool_iff. congruence.
  - intros Hlt. destruct (Qle_bool y x) eqn:E; [|done].
    apply Qle_bool_iff in E. by apply Qle_not_lt in E.
Qed.

Lemma count_if_insert_sorted f x l :
  count_if f (insert_sorted x l) = count_if f (x :: l).
Proof.
  induction l as [|y l IH]; simpl; [done|].
  destruct (Qle_bool x y); simpl; [done|]. rewrite IH. simpl. lia.
Qed.

Lemma count_if_sorted f l : count_if f (sorted l) = count_if f l.
Proof.
  induction l as [|x l IH]; simpl; [done|].
  by rewrite count_if_insert_sorted; simpl; rewrite IH.
Qed.

Lemma length_insert_sorted x l : length (insert_sorted x l) = S (length l).
Proof.
  induction l as [|y l IH]; simpl; [done|].
  destruct (Qle_bool x y); simpl; [done|]. by rewrite IH.
Qed.

Lemma length_sorted l : length (sorted l) = length l.
Proof.
  induction l as [|x l IH]; simpl; [done|].
  by rewrite length_insert_sorted, IH.
Qed.

Lemma Forall_insert_sorted (P : Q → Prop) x l :
  P x → Forall P l → Forall P (insert_sorted x l).
Proof.
  intros Hx Hl. induction Hl as [|y l Hy Hl IH]; simpl.
  - by constructor.
  - destruct (Qle_bool x y); repeat constructor; auto.
Qed.

Lemma insert_sorted_sorted x l :
  StronglySorted Qle l → StronglySorted Qle (insert_sorted x l).
Proof.
  induction 1 as [|y l Hl IH Hy]; simpl.
  - repeat constructor.
  - destruct (Qle_bool x y) eqn:E.
    + apply Qle_bool_iff in E. constructor; [by constructor|].
      constructor; [done|].
      eapply Forall_impl; [exact Hy|]. intros z Hz. simpl in *.
      by eapply Qle_trans.
    + apply Qle_bool_total, Qle_bool_iff in E. constructor; [done|].
      by apply Forall_insert_sorted.
Qed.

Lemma sorted_sorted l : StronglySorted Qle (sorted l).
Proof.
  induction l as [|x l IH]; simpl; [constructor|].
  by apply insert_sorted_sorted.
Qed.

Lemma count_if_le_length f l : (count_if f l ≤ length l)%nat.
Proof. induction l as [|x l IH]; simpl; [done|]. destruct (f x); lia. Qed.

Lemma count_if_mono (f g : Q → bool) l :
  (∀ x, f x = true → g x = true) → (count_if f l ≤ count_if g l)%nat.
Proof.
  intros Hfg. induction l as [|x l IH]; simpl; [done|].
  destruct (f x) eqn:E; [rewrite (Hfg x E)|destruct (g x)]; lia.
Qed.

Lemma count_if_none f l :
  Forall (λ x, f x = false) l → count_if f l = 0%nat.
Proof. induction 1 as [|x l Hx _ IH]; simpl; [done|]. by rewrite Hx, IH. Qed.

(** In a sorted list the item at index [k] has rank [k]. *)
Lemma sorted_lookup_ranked s : StronglySorted Qle s →
  ∀ (k : nat) v, s !! k = Some v →
    (count_if (λ x, Qltb x v) s ≤ k < count_if (λ x, Qle_bool x v) s)%nat.
Proof.
  induction 1 as [|y s Hs IH Hy]; intros k v Hk; [done|].
  destruct k as [|k]; simplify_eq/=.
  - replace (Qltb v v) with false
      by (symmetry; apply negb_false_iff, Qle_bool_iff, Qle_refl).
    replace (Qle_bool v v) with true by (symmetry; apply Qle_bool_iff, Qle_refl).
    rewrite count_if_none; [lia|].
    eapply Forall_impl; [exact Hy|]. intros z Hz. simpl in *.
    by apply negb_false_iff, Qle_bool_iff.
  - destruct (IH k v Hk) as [H1 H2].
    assert (Qle_bool y v = true) as ->.
    { apply Qle_bool_iff. rewrite Forall_forall in Hy. apply Hy.
      by eapply list_elem_of_lookup_2. }
    destruct (Qltb y v); lia.
Qed.

Lemma getitem_sorted_ranked xs (k : Z) v :
  0 ≤ k → getitem (sorted xs) k = Ok v → ranked xs k v.
Proof.
  intros Hk0 Hget. unfold getitem in Hget.
  replace (k <? 0) with false in Hget by (symmetry; apply Z.ltb_ge; lia).
  destruct ((k <? 0) || _); [done|].
  destruct (sorted xs !! Z.to_nat k) as [x|] eqn:Hx; simplify_eq.
  pose proof (sorted_lookup_ranked _ (sorted_sorted xs) _ _ Hx) as [H1 H2].
  rewrite !count_if_sorted in *. unfold ranked. lia.
Qed.

(** A rank determines its value. *)
Lemma ranked_unique xs k v v' : ranked xs k v → ranked xs k v' → (v == v')%Q.
Proof.
  assert (∀ a b, ranked xs k a → ranked xs k b → ¬ (a < b)%Q) as Hno.
  { intros a b [_ Ha] [Hb _] Hlt.
    pose proof (count_if_mono (λ x, Qle_bool x a) (λ x, Qltb x b) xs) as Hm.
    simpl in Hm. assert (∀ x, Qle_bool x a = true → Qltb x b = true) as Himp.
    { intros x Hx%Qle_bool_iff. apply Qltb_lt. by eapply Qle_lt_trans. }
    specialize (Hm Himp). lia. }
  intros Hv Hv'. apply Qle_antisym; apply Qnot_lt_le; eauto.
Qed.

(** *** The statistics of the summary *)

Lemma inject_Z_nonzero n : n ≠ 0 → ¬ (inject_Z n == 0)%Q.
Proof. intros Hn H. unfold Qeq in H. simpl in H. lia. Qed.

Lemma mean_is_mean xs :
  1 ≤ len xs → ∃ m, mean xs = Ok m ∧ is_mean xs m.
Proof.
  intros Hn. unfold mean.
  zbool.
  eexists. split; [done|]. unfold is_mean.
  exists (sum_Q xs / inject_Z (len xs))%Q. split; [|reflexivity].
  field. apply inject_Z_nonzero. lia.
Qed.

Lemma len_sorted xs : len (sorted xs) = len xs.
Proof. unfold len. by rewrite length_sorted. Qed.

Lemma median_is_median xs :
  1 ≤ len xs → ∃ md, median xs = Ok md ∧ is_median xs md.
Proof.
  intros Hn. unfold median, is_median. rewrite len_sorted.
  zbool.
  pose proof (Z.div_mod (len xs) 2 ltac:(lia)) as Hdm.
  pose proof (Z.mod_pos_bound (len xs) 2 ltac:(lia)) as Hm.
  destruct (len xs mod 2 =? 1) eqn:Hodd.
  - destruct (getitem_ok (sorted xs) (len xs / 2)) as (md & Hmd & _);
      [rewrite len_sorted; lia|].
    exists md. split; [done|]. apply getitem_sorted_ranked; [lia|done].
  - apply Z.eqb_neq in Hodd.
    destruct (getitem_ok (sorted xs) (len xs / 2 - 1)) as (a & Ha & _);
      [rewrite len_sorted; lia|].
    destruct (getitem_ok (sorted xs) (len xs / 2)) as (b & Hb & _);
      [rewrite len_sorted; lia|].
    rewrite Ha, Hb. simpl. eexists. split; [done|].
    exists a, b. split; [apply getitem_sorted_ranked; [lia|done]|].
    split; [apply getitem_sorted_ranked; [lia|done]|]. reflexivity.
Qed.

Lemma mapM_result_ok {A B} (f : A → result B) (l : list A) :
  (∀ x, x ∈ l → ∃ y, f x = Ok y) →
  ∃ ys, mapM f l = Ok ys ∧ Forall2 (λ x y, f x = Ok y) l ys.
Proof.
  induction l as [|x l IH]; intros Hl.
  - exists []. by split.
  - destruct (Hl x) as [y Hy]; [by left|].
    destruct IH as (ys & Hys & HF); [intros z Hz; apply Hl; by right|].
    exists (y :: ys). split; [|by constructor].
    simpl. rewrite Hy. simpl. rewrite Hys. done.
Qed.

Lemma Qfloor_quotient a b :
  0 < b → Qfloor (inject_Z a / inject_Z b) = a / b.
Proof.
  intros Hb. destruct b as [|p|p]; try lia.
  assert (inject_Z a / inject_Z (Z.pos p) == a # p)%Q as ->.
  { unfold Qeq, Qdiv, Qmult, Qinv, inject_Z. simpl. lia. }
  done.
Qed.

(** The cut points of [quantiles(data, n=n, method="inclusive")] for at
    least two samples: [n - 1] of them, and the one at index [i - 1] is the
    interpolation at position [i * (len - 1) / n]. *)
Lemma quantiles_cut_points v xs n :
  2 ≤ len xs → 1 ≤ n →
  ∃ qs, quantiles v xs n = Ok qs ∧ len qs = n - 1
    ∧ ∀ i, 1 ≤ i < n →
        ∃ p, getitem qs (i - 1) = Ok p ∧ is_cut_point xs n i p.
Proof.
  intros Hxs Hn. unfold quantiles. rewrite len_sorted.
  zbool.
  set (cut := λ i : Z,
    a ← getitem (sorted xs) (i * (len xs - 1) / n);
    b ← getitem (sorted xs) (i * (len xs - 1) / n + 1);
    Ok (fl (fl (fl (a * inject_Z (n - i * (len xs - 1) mod n))
                + fl (b * inject_Z (i * (len xs - 1) mod n)))
            / inject_Z n))).
  assert (∀ i, 1 ≤ i < n → ∃ p, cut i = Ok p ∧ is_cut_point xs n i p) as Hcut.
  { intros i Hi. unfold cut, is_cut_point. cbv zeta.
    rewrite Qfloor_quotient by lia.
    pose proof (Z.div_mod (i * (len xs - 1)) n ltac:(lia)) as Hdm.
    pose proof (Z.mod_pos_bound (i * (len xs - 1)) n ltac:(lia)) as Hm.
    set (j := i * (len xs - 1) / n) in *.
    set (d := i * (len xs - 1) mod n) in *.
    assert (0 ≤ j ∧ j + 1 < len xs) as Hj by (split; nia).
    destruct (getitem_ok (sorted xs) j) as (a & Ha & _); [rewrite len_sorted; lia|].
    destruct (getitem_ok (sorted xs) (j + 1)) as (b & Hb & _);
      [rewrite len_sorted; lia|].
    rewrite Ha, Hb. cbn [mbind result_bind]. eexists. split; [done|].
    exists a, b. split; [apply getitem_sorted_ranked; [lia|done]|].
    split; [apply getitem_sorted_ranked; [lia|done]|].
    replace (i * (len xs - 1) - j * n) with d by lia. reflexivity. }
  destruct (mapM_result_ok cut (range2 1 n)) as (qs & Hqs & HF).
  { intros i Hi. unfold range2 in Hi.
    apply list_elem_of_fmap in Hi as (k & -> & Hk).
    apply elem_of_seq in Hk.
    destruct (Hcut (1 + Z.of_nat k)) as (p & Hp & _); [lia|eauto]. }
  exists qs. split; [exact Hqs|].
  pose proof (Forall2_length _ _ _ HF) as Hlen. rewrite length_range2 in Hlen.
  split; [unfold len; lia|].
  intros i Hi. destruct (Hcut i Hi) as (p & Hp & Hpc).
  exists p. split; [|done].
  assert (range2 1 n !! Z.to_nat (i - 1) = Some i) as Hri.
  { unfold range2. rewrite list_lookup_fmap, lookup_seq_lt by lia.
    simpl. f_equal. lia. }
  destruct (Forall2_lookup_l _ _ _ _ _ HF Hri) as (y & Hy & Hcy).
  rewrite Hp in Hcy. simplify_eq.
  destruct (getitem_ok qs (i - 1)) as (y' & Hy' & Hl); [unfold len; lia|].
  rewrite Hy'. congruence.
Qed.

Lemma fold_min_spec r : ∀ x,
  let m := fold_left (λ m y, if Qltb y m then y else m) r x in
  m ∈ x :: r ∧ ∀ y, y ∈ x :: r → (m <= y)%Q.
Proof.
  induction r as [|z r IH]; intros x; simpl.
  - split; [by left|]. intros y ->%list_elem_of_singleton. apply Qle_refl.
  - destruct (Qltb z x) eqn:E.
    + apply Qltb_lt in E. destruct (IH z) as [Hin Hle]. split.
      * by right.
      * intros y [->|Hy]%elem_of_cons; [|by apply Hle].
        eapply Qle_trans; [apply Hle; by left|by apply Qlt_le_weak].
    + apply negb_false_iff, Qle_bool_iff in E.
      destruct (IH x) as [Hin Hle]. split.
      * apply elem_of_cons in Hin as [->|Hin]; [by left|by do 2 right].
      * intros y [->|[->|Hy]%elem_of_cons]%elem_of_cons.
        -- apply Hle. by left.
        -- eapply Qle_trans; [apply Hle; by left|done].
        -- apply Hle. by right.
Qed.

Lemma fold_max_spec r : ∀ x,
  let m := fold_left (λ m y, if Qltb m y then y else m) r x in
  m ∈ x :: r ∧ ∀ y, y ∈ x :: r → (y <= m)%Q.
Proof.
  induction r as [|z r IH]; intros x; simpl.
  - split; [by left|]. intros y ->%list_elem_of_singleton. apply Qle_refl.
  - destruct (Qltb x z) eqn:E.
    + apply Qltb_lt in E. destruct (IH z) as [Hin Hle]. split.
      * by right.
      * intros y [->|Hy]%elem_of_cons; [|by apply Hle].
        eapply Qle_trans; [by apply Qlt_le_weak|apply Hle; by left].
    + apply negb_false_iff, Qle_bool_iff in E.
      destruct (IH x) as [Hin Hle]. split.
      * apply elem_of_cons in Hin as [->|Hin]; [by left|by do 2 right].
      * intros y [->|[->|Hy]%elem_of_cons]%elem_of_cons.
        -- apply Hle. by left.
        -- eapply Qle_trans; [done|apply Hle; by left].
        -- apply Hle. by right.
Qed.

Lemma py_min_is_min xs : 1 ≤ len xs → ∃ m, py_min xs = Ok m ∧ is_min xs m.
Proof.
  destruct xs as [|x r]; [unfold len; simpl; lia|]. intros _.
  eexists. split; [done|]. apply fold_min_spec.
Qed.

Lemma py_max_is_max xs : 1 ≤ len xs → ∃ m, py_max xs = Ok m ∧ is_max xs m.
Proof.
  destruct xs as [|x r]; [unfold len; simpl; lia|]. intros _.
  eexists. split; [done|]. apply fold_max_spec.
Qed.

(** *** The summary *)

Lemma print_then {A} (line : string) (k : io A) out :
  (print line ;; k) out = k (out ++ [line]).
Proof. reflexivity. Qed.

Lemma lift_ok_then {A B} (r : result A) (a : A) (k : A → io B) out :
  r = Ok a → (lift r ≫= k) out = k a out.
Proof. by intros ->. Qed.

Lemma lift_raise_then {A B} (r : result A) e (k : A → io B) out :
  r = Raise e → (lift r ≫= k) out = (out, Raise e).
Proof. by intros ->. Qed.


(** For at least two samples every call of the summary succeeds, and what
    is printed is made of the statistics of the samples. *)
Lemma print_summary_computes (v : py_version) (times : list Q)
    (out : list string) :
  2 ≤ len times →
  ∃ m md qs p95 lo hi,
    print_summary v times out
    = (out ++ summary_lines (len times) m md p95 lo hi, Ok ())
    ∧ is_mean times m
    ∧ is_median times md
    ∧ quantiles v times 20 = Ok qs ∧ len qs = 19 ∧ getitem qs 18 = Ok p95
    ∧ is_cut_point times 20 19 p95
    ∧ is_min times lo
    ∧ is_max times hi.
Proof.
  intros Hn.
  destruct (mean_is_mean times ltac:(lia)) as (m & Hm & Hmean).
  destruct (median_is_median times ltac:(lia)) as (md & Hmd & Hmedian).
  destruct (quantiles_cut_points v times 20 Hn ltac:(lia))
    as (qs & Hqs & Hlen & Hcuts).
  destruct (Hcuts 19 ltac:(lia)) as (p95 & Hp & Hcut).
  destruct (py_min_is_min times ltac:(lia)) as (lo & Hlo & Hmin).
  destruct (py_max_is_max times ltac:(lia)) as (hi & Hhi & Hmax).
  exists m, md, qs, p95, lo, hi.
  split;
    [|exact (conj Hmean (conj Hmedian (conj Hqs (conj Hlen
               (conj Hp (conj Hcut (conj Hmin Hmax)))))))].
  unfold print_summary. rewrite !print_then.
  rewrite (lift_ok_then _ _ _ _ Hm), print_then.
  rewrite (lift_ok_then _ _ _ _ Hmd), print_then.
  rewrite (lift_ok_then _ _ _ _ Hqs).
  rewrite (lift_ok_then _ _ _ _ Hp), print_then.
  rewrite (lift_ok_then _ _ _ _ Hlo).
  rewrite (lift_ok_then _ _ _ _ Hhi), print_then.
  unfold print, summary_lines, milli. rewrite <- !app_assoc. reflexivity.
Qed.

Lemma print_summary_nil v out :
  print_summary v [] out
  = (out ++ [newline +:+ "==== Performance summary ===="; "Requests : 0"],
     Raise StatisticsError).
Proof.
  unfold print_summary. rewrite !print_then.
  rewrite (lift_raise_then _ StatisticsError) by reflexivity.
  rewrite <- app_assoc. reflexivity.
Qed.

(** C5. For the empty collection the summary fails with
    [StatisticsError]: only the heading and the number of requests are
    printed, and no statistic is. *)
Theorem print_summary_empty (v : py_version) (out : list string) :
  print_summary v [] out
  = (out ++ [newline +:+ "==== Performance summary ===="; "Requests : 0"],
     Raise StatisticsError)
  ∧ mean [] = Raise StatisticsError.
Proof. split; [apply print_summary_nil|reflexivity]. Qed.

Lemma quantiles_single_before_3_13 x n :
  quantiles Before_3_13 [x] n = Raise StatisticsError.
Proof. unfold quantiles. by destruct (n <? 1). Qed.

Lemma single_sample_before_3_13 x out :
  print_summary Before_3_13 [x] out
  = (out ++ [newline +:+ "==== Performance summary ====";
             "Requests : 1";
             "Mean     : "
               +:+ format_2f (milli (fl ((x + 0) / inject_Z 1))) +:+ " ms";
             "Median   : " +:+ format_2f (milli x) +:+ " ms"],
     Raise StatisticsError).
Proof.
  unfold print_summary. rewrite !print_then.
  rewrite (lift_ok_then (mean [x]) (fl ((x + 0) / inject_Z 1))) by reflexivity.
  rewrite print_then.
  rewrite (lift_ok_then (median [x]) x) by reflexivity.
  rewrite print_then.
  rewrite (lift_raise_then _ StatisticsError)
    by apply quantiles_single_before_3_13.
  rewrite <- !app_assoc. reflexivity.
Qed.



(** From Python 3.13 on a single sample is summarised: every statistic is
    the sample. *)
Lemma single_sample_since_3_13 x out :
  print_summary Since_3_13 [x] out
  = (out ++ summary_lines 1 (fl ((x + 0) / inject_Z 1)) x x x x, Ok ()).
Proof.
  unfold print_summary. rewrite !print_then.
  rewrite (lift_ok_then (mean [x]) (fl ((x + 0) / inject_Z 1))) by reflexivity.
  rewrite print_then.
  rewrite (lift_ok_then (median [x]) x) by reflexivity.
  rewrite print_then.
  rewrite (lift_ok_then (quantiles Since_3_13 [x] 20) (replicate 19 x))
    by reflexivity.
  rewrite (lift_ok_then (getitem (replicate 19 x) 18) x) by reflexivity.
  rewrite print_then.
  rewrite (lift_ok_then (py_min [x]) x) by reflexivity.
  rewrite (lift_ok_then (py_max [x]) x) by reflexivity.
  rewrite print_then.
  unfold print, summary_lines, milli. rewrite <- !app_assoc. reflexivity.
Qed.

(** *** The statistics are determined by the samples *)

Lemma is_mean_unique xs m m' :
  1 ≤ len xs → is_mean xs m → is_mean xs m' → (m == m')%Q.
Proof.
  unfold is_mean. intros Hn (mu & H & ->) (mu' & H' & ->).
  rewrite (FloatFacts.fl_comp mu mu'); [reflexivity|].
  apply (Qmult_inj_r _ _ (inject_Z (len xs))).
  - apply inject_Z_nonzero. lia.
  - by rewrite H, H'.
Qed.

Lemma is_median_unique xs m m' :
  is_median xs m → is_median xs m' → (m == m')%Q.
Proof.
  unfold is_median. destruct (len xs mod 2 =? 1).
  - apply ranked_unique.
  - intros (a & b & Ha & Hb & ->) (a' & b' & Ha' & Hb' & ->).
    pose proof (ranked_unique _ _ _ _ Ha Ha') as Haa.
    pose proof (ranked_unique _ _ _ _ Hb Hb') as Hbb.
    rewrite (FloatFacts.fl_comp (a + b) (a' + b')) by (by rewrite Haa, Hbb).
    reflexivity.
Qed.

Lemma is_cut_point_unique xs q i p p' :
  is_cut_point xs q i p → is_cut_point xs q i p' → (p == p')%Q.
Proof.
  unfold is_cut_point.
  intros (a & b & Ha & Hb & ->) (a' & b' & Ha' & Hb' & ->).
  pose proof (ranked_unique _ _ _ _ Ha Ha') as Haa.
  pose proof (ranked_unique _ _ _ _ Hb Hb') as Hbb.
  rewrite (FloatFacts.fl_comp (a * _) (a' * _)) by (by rewrite Haa).
  rewrite (FloatFacts.fl_comp (b * _) (b' * _)) by (by rewrite Hbb).
  reflexivity.
Qed.

Lemma is_min_unique xs m m' : is_min xs m → is_min xs m' → (m == m')%Q.
Proof. intros [Hi Hle] [Hi' Hle']. apply Qle_antisym; auto. Qed.

Lemma is_max_unique xs m m' : is_max xs m → is_max xs m' → (m == m')%Q.
Proof. intros [Hi Hle] [Hi' Hle']. apply Qle_antisym; auto. Qed.

Lemma round_half_even_proper x y : (x == y)%Q → round_half_even x = round_half_even y.
Proof.
  intros H. unfold round_half_even. rewrite (Qfloor_comp _ _ H).
  assert (x - inject_Z (Qfloor y) == y - inject_Z (Qfloor y))%Q as H'
    by (by rewrite H).
  by rewrite (Qcompare_comp _ _ H' _ _ (Qeq_refl (1 # 2))).
Qed.

Lemma format_2f_proper x y : (x == y)%Q → format_2f x = format_2f y.
Proof.
  intros H. unfold format_2f.
  assert (Qabs x * 100 == Qabs y * 100)%Q as H' by (by rewrite H).
  rewrite (round_half_even_proper _ _ H').
  destruct (Qlt_le_dec x 0) as [Hx|Hx], (Qlt_le_dec y 0) as [Hy|Hy]; try done.
  - rewrite H in Hx. by apply Qlt_not_le in Hx.
  - rewrite <- H in Hy. by apply Qlt_not_le in Hy.
Qed.

Lemma summary_lines_proper n m md p lo hi m' md' p' lo' hi' :
  (m == m')%Q → (md == md')%Q → (p == p')%Q → (lo == lo')%Q → (hi == hi')%Q →
  summary_lines n m md p lo hi = summary_lines n m' md' p' lo' hi'.
Proof.
  intros Hm Hmd Hp Hlo Hhi. unfold summary_lines.
  rewrite (FloatFacts.fl_comp (m * 1000) (m' * 1000)) by (by rewrite Hm).
  rewrite (FloatFacts.fl_comp (md * 1000) (md' * 1000)) by (by rewrite Hmd).
  rewrite (FloatFacts.fl_comp (p * 1000) (p' * 1000)) by (by rewrite Hp).
  rewrite (FloatFacts.fl_comp (lo * 1000) (lo' * 1000)) by (by rewrite Hlo).
  by rewrite (FloatFacts.fl_comp (hi * 1000) (hi' * 1000)) by (by rewrite Hhi).
Qed.



End LoadTestFacts.

(** ** main.py *)

Module SeederFacts.
Import Seeder SeederSpec.

(** *** The model on small inputs *)

Example identifiers_ex :
  (root_id_of 1, leaf_id_of 1 1, leaf_id_of 5 10, generate_seller_ids 2)
  = ("MLA1001", "MLA010100", "MLA051000", ["SELLER_1"; "SELLER_2"]).
Proof. reflexivity. Qed.

Example isoformat_ex :
  map isoformat [0; 730178 * DAY; 739000 * DAY + 86399999999; DATETIME_MAX]
  = ["0001-01-01T00:00:00.000000"; "2000-02-29T00:00:00.000000";
     "2024-04-25T23:59:59.999999"; "9999-12-31T23:59:59.999999"].
Proof. vm_compute. reflexivity. Qed.

Example create_categories_ex :
  create_categories 1 2
  = Ok ([("MLA1001", root_dict 1 2);
         ("MLA010100", leaf_dict 1 1);
         ("MLA010200", leaf_dict 1 2)],
        ["MLA010100"; "MLA010200"]).
Proof. vm_compute. reflexivity. Qed.

Example create_product_ex :
  (p ← create_product ["L1"; "L2"; "L3"] 7 "SELLER_1" sample_env;
   Ok (id p.1, seller_id p.1, title p.1, category_id p.1,
       date_created p.1, last_updated p.1))
  = Ok ("MLA7", "SELLER_1", "Mega Laptop", "L3",
        "2023-12-12T00:00:00.000000Z", "2024-01-05T00:00:00.000000Z").
Proof. vm_compute. reflexivity. Qed.

(** *** The categories *)

(** C7. For 5 roots and 10 leaves per root the factory returns 55
    categories under distinct identifiers: 5 roots, each with a path of one
    entry, itself, and with exactly its 10 leaves as children; and 50
    leaves, each with a path of two entries, its root then itself, and no
    child. The leaf identifiers returned are those 50, all distinct. *)
Theorem create_categories_configured :
  ∃ cats leaves,
    create_categories ROOT_CATEGORIES LEAVES_PER_ROOT = Ok (cats, leaves)
    ∧ len cats = 55 ∧ NoDup (map fst cats)
    ∧ len (filter (λ kv, len (cd_path_from_root kv.2) = 1) cats) = 5
    ∧ (∀ r, 1 ≤ r ≤ 5 → dict_get cats (root_id_of r) = Some (root_dict r 10))
    ∧ (∀ r l, 1 ≤ r ≤ 5 → 1 ≤ l ≤ 10 →
         dict_get cats (leaf_id_of r l) = Some (leaf_dict r l))
    ∧ leaves = concat (map (λ r, map (leaf_id_of r) (range2 1 11)) (range2 1 6))
    ∧ len leaves = 50 ∧ NoDup leaves.
Proof.
  eexists _, _. split; [vm_compute; reflexivity|].
  match goal with |- len ?c = 55 ∧ _ => set (cats := c) end.
  split; [reflexivity|]. split; [compute_done|]. split; [compute_done|].
  split.
  { intros r Hr.
    assert (Forall (λ r, dict_get cats (root_id_of r) = Some (root_dict r 10))
                   (range2 1 6)) as HF by compute_done.
    rewrite Forall_forall in HF. apply HF, elem_of_range2. lia. }
  split.
  { intros r l Hr Hl.
    assert (Forall (λ r, Forall (λ l,
              dict_get cats (leaf_id_of r l) = Some (leaf_dict r l))
              (range2 1 11)) (range2 1 6)) as HF by compute_done.
    rewrite Forall_forall in HF.
    specialize (HF r ltac:(apply elem_of_range2; lia)).
    rewrite Forall_forall in HF. apply HF, elem_of_range2. lia. }
  split; [compute_done|]. split; [reflexivity|]. compute_done.
Qed.

Lemma create_categories_configured_witness :
  ∃ cats leaves,
    create_categories 5 10 = Ok (cats, leaves)
    ∧ dict_get cats (root_id_of 3) = Some (root_dict 3 10)
    ∧ dict_get cats (leaf_id_of 3 7) = Some (leaf_dict 3 7).
Proof.
  destruct create_categories_configured
    as (cats & leaves & H & _ & _ & _ & Hr & Hl & _).
  exists cats, leaves. split; [exact H|].
  split; [apply (Hr 3); lia|apply (Hl 3 7); lia].
Defined.

(** *** Randomness and dates *)

Lemma rand_bind_ok {A B} (m : rand A) (f : A → rand B) e a e' :
  m e = Ok (a, e') → (m ≫= f) e = f a e'.
Proof. unfold mbind, rand_bind. by intros ->. Qed.

Lemma randint_ok a b e :
  a ≤ b → ∃ k, a ≤ k ≤ b ∧ randint a b e = Ok (k, next_draw e).
Proof.
  intros Hab. unfold randint.
  zbool.
  exists (a + entropy e (drawn e) mod (b - a + 1)). split; [|done].
  pose proof (Z.mod_pos_bound (entropy e (drawn e)) (b - a + 1) ltac:(lia)). lia.
Qed.

Lemma choice_ok {A} (l : list A) e :
  l ≠ [] → ∃ x, x ∈ l ∧ choice l e = Ok (x, next_draw e).
Proof.
  intros Hl. unfold choice.
  assert (0 < len l) as Hlen by (destruct l; [done|unfold len; simpl; lia]).
  zbool.
  pose proof (Z.mod_pos_bound (entropy e (drawn e)) (len l) Hlen) as Hk.
  destruct (getitem_ok l _ Hk) as (x & Hx & Hlx).
  exists x. split; [by eapply list_elem_of_lookup_2|].
  unfold mbind, rand_bind, randbelow, lift_result. by rewrite Hx.
Qed.

Lemma add_days_ok t d :
  0 ≤ t + d * DAY ≤ DATETIME_MAX → add_days t d = Ok (t + d * DAY).
Proof.
  intros H. unfold add_days.
  by zbool.
Qed.

Lemma DAY_pos : 0 < DAY.
Proof. done. Qed.

(** What [generate_dates] computes when the clock reads [now]. *)
Lemma generate_datetimes_spec e :
  365 * DAY ≤ utc e (read e) ≤ DATETIME_MAX →
  ∃ days_ago d,
    30 ≤ days_ago ≤ 365 ∧ 1 ≤ d ≤ 29
    ∧ generate_datetimes e
      = Ok ((utc e (read e) - days_ago * DAY,
             utc e (read e) - days_ago * DAY + d * DAY),
            next_draw (next_draw (next_read e))).
Proof.
  intros Hnow. pose proof DAY_pos as HD. unfold generate_datetimes.
  rewrite (rand_bind_ok utcnow _ e (utc e (read e)) (next_read e)) by done.
  destruct (randint_ok 30 365 (next_read e) ltac:(lia)) as (days_ago & Hda & Hr1).
  rewrite (rand_bind_ok _ _ _ _ _ Hr1).
  destruct (randint_ok 1 29 (next_draw (next_read e)) ltac:(lia)) as (d & Hd & Hr2).
  exists days_ago, d. split; [done|]. split; [done|].
  unfold mbind at 1, rand_bind at 1, lift_result at 1.
  rewrite add_days_ok by nia.
  rewrite (rand_bind_ok _ _ _ _ _ Hr2).
  unfold mbind, rand_bind, lift_result.
  rewrite add_days_ok by nia.
  unfold mret, rand_ret. do 3 f_equal; lia.
Qed.

(** C9. When the clock reads a date [now] from which a year can be
    subtracted, the creation date is [now] minus 30 to 365 days, hence
    strictly in the past, and the last update is 1 to 29 days after the
    creation: strictly after it, by at most 29 days, and in the past too.
    The two strings returned are these dates in ISO format. *)
Theorem generate_dates_ordered (e : env) :
  let now := utc e (read e) in
  365 * DAY ≤ now ≤ DATETIME_MAX →
  ∃ created updated e',
    generate_datetimes e = Ok ((created, updated), e')
    ∧ generate_dates e
      = Ok ((isoformat created +:+ "Z", isoformat updated +:+ "Z"), e')
    ∧ 30 * DAY ≤ now - created ≤ 365 * DAY
    ∧ created < now
    ∧ 1 * DAY ≤ updated - created ≤ 29 * DAY
    ∧ created < updated
    ∧ created ≤ updated
    ∧ updated < now.
Proof.
  intros now Hnow. pose proof DAY_pos as HD.
  destruct (generate_datetimes_spec e Hnow) as (days_ago & d & Hda & Hd & Hgen).
  eexists _, _, _. split; [exact Hgen|].
  split; [unfold generate_dates; by rewrite (rand_bind_ok _ _ _ _ _ Hgen)|].
  fold now. repeat split; nia.
Qed.

Lemma generate_dates_ordered_witness :
  ∃ created updated e',
    generate_datetimes sample_env = Ok ((created, updated), e')
    ∧ created < utc sample_env 0 ∧ created < updated ∧ updated < utc sample_env 0.
Proof.
  destruct (generate_dates_ordered sample_env)
    as (c & u & e' & H & _ & _ & Hc & _ & Hu & _ & Hn).
  - vm_compute. split; discriminate.
  - exists c, u, e'. split; [exact H|]. split; [exact Hc|]. split; [exact Hu|exact Hn].
Defined.

(** *** The products *)

Lemma generate_product_title_ok e :
  ∃ t, generate_product_title e = Ok (t, next_draw (next_draw e)).
Proof.
  unfold generate_product_title.
  destruct (choice_ok PRODUCT_ADJECTIVES e) as (a & _ & Ha); [done|].
  destruct (choice_ok PRODUCT_ITEMS (next_draw e)) as (i & _ & Hi); [done|].
  rewrite (rand_bind_ok _ _ _ _ _ Ha), (rand_bind_ok _ _ _ _ _ Hi).
  by eexists.
Qed.

Lemma generate_product_price_ok e :
  ∃ p, generate_product_price e = Ok (p, next_draw e).
Proof. by eexists. Qed.

Lemma generate_dates_ok e :
  clock_ok e →
  ∃ r, generate_dates e = Ok (r, next_draw (next_draw (next_read e))).
Proof.
  intros Hc. destruct (generate_datetimes_spec e (Hc _)) as (a & d & _ & _ & H).
  unfold generate_dates. rewrite (rand_bind_ok _ _ _ _ _ H). by eexists.
Qed.

Lemma dict_set_fresh {V} (k : string) (v : V) (d : dict V) :
  k ∉ map fst d → dict_set k v d = d ++ [(k, v)].
Proof.
  induction d as [|[k' v'] d IH]; simpl; [done|].
  intros Hk. apply not_elem_of_cons in Hk as [Hne Hk].
  destruct (decide (k = k')); [done|]. by rewrite IH.
Qed.

Lemma dict_get_set {V} (k : string) (v : V) (d : dict V) :
  dict_get (dict_set k v d) k = Some v.
Proof.
  induction d as [|[k' v'] d IH]; simpl.
  - by destruct (decide (k = k)).
  - destruct (decide (k = k')) as [->|Hne]; simpl.
    + by destruct (decide (k' = k')).
    + by destruct (decide (k = k')).
Qed.

Lemma product_id_of_inj : Inj (=) (=) product_id_of.
Proof. intros i j H. by apply String.app_inj, (inj pretty) in H. Qed.

Lemma seller_id_of_inj : Inj (=) (=) seller_id_of.
Proof. intros i j H. by apply String.app_inj, (inj pretty) in H. Qed.

Lemma range2_snoc lo hi : lo ≤ hi → range2 lo (hi + 1) = range2 lo hi ++ [hi].
Proof.
  intros H. unfold range2.
  replace (Z.to_nat (hi + 1 - lo)) with (S (Z.to_nat (hi - lo))) by lia.
  rewrite seq_S, map_app. simpl. do 2 f_equal. lia.
Qed.

Lemma NoDup_range2 lo hi : NoDup (range2 lo hi).
Proof.
  unfold range2. apply NoDup_fmap_2; [|apply NoDup_seq].
  intros a b. lia.
Qed.

(** The loops of [run], for a factory whose leaf list is not empty. *)
Section products.

Context (leaves : list string) (Hleaves : leaves ≠ []).

Lemma create_product_ok idx seller e :
  clock_ok e →
  ∃ p e', create_product leaves idx seller e = Ok (p, e')
    ∧ id p = product_id_of idx ∧ seller_id p = seller
    ∧ category_id p ∈ leaves ∧ utc e' = utc e.
Proof.
  intros Hc. unfold create_product.
  destruct (generate_product_title_ok e) as (t & Ht).
  rewrite (rand_bind_ok _ _ _ _ _ Ht).
  destruct (choice_ok leaves (next_draw (next_draw e)) Hleaves)
    as (c & Hcl & Hch).
  rewrite (rand_bind_ok _ _ _ _ _ Hch).
  destruct (generate_product_price_ok (next_draw (next_draw (next_draw e))))
    as (pr & Hpr).
  rewrite (rand_bind_ok _ _ _ _ _ Hpr).
  destruct (generate_dates_ok (next_draw (next_draw (next_draw (next_draw e)))))
    as ([created updated] & Hd); [done|].
  rewrite (rand_bind_ok _ _ _ _ _ Hd).
  eexists _, _. split; [done|]. done.
Qed.

(** The products of one seller: [l] is the range of the inner loop. *)
Lemma seller_loop seller (l : list Z) : ∀ ps idx e,
  clock_ok e → 1 ≤ idx →
  map id ps = map product_id_of (range2 1 idx) →
  ∃ ps' e',
    for_in l (λ _ st, create_and_add leaves seller st) (map entry ps, idx, e)
    = Ok (map entry (ps ++ ps'), idx + len l, e')
    ∧ length ps' = length l
    ∧ Forall (λ p, seller_id p = seller ∧ category_id p ∈ leaves) ps'
    ∧ map id (ps ++ ps') = map product_id_of (range2 1 (idx + len l))
    ∧ utc e' = utc e.
Proof.
  induction l as [|x l IH]; intros ps idx e Hc Hidx Hids.
  - exists [], e. rewrite app_nil_r. unfold len. simpl.
    by rewrite Z.add_0_r.
  - destruct (create_product_ok idx seller e Hc)
      as (p & e1 & Hp & Hid & Hs & Hcat & Hutc).
    destruct (IH (ps ++ [p]) (idx + 1) e1)
      as (ps' & e' & Hfor & Hlen & HF & Hids' & Hutc').
    + intros n. rewrite Hutc. apply Hc.
    + lia.
    + rewrite map_app, range2_snoc, map_app, Hids by lia. simpl. by rewrite Hid.
    + exists (p :: ps'), e'.
      replace (ps ++ p :: ps') with ((ps ++ [p]) ++ ps') by (by rewrite <- app_assoc).
      replace (idx + len (x :: l)) with (idx + 1 + len l) by (unfold len; simpl; lia).
      split; [|split; [simpl; lia|split; [by constructor|split; [done|congruence]]]].
      simpl. unfold create_and_add at 1. rewrite Hp. simpl.
      unfold add. rewrite dict_set_fresh.
      * rewrite <- Hfor. by rewrite map_app.
      * assert (map fst (map entry ps) = map id ps) as ->
          by (by rewrite map_map).
        rewrite Hids, Hid.
        intros Hin%list_elem_of_fmap.
        destruct Hin as (j & Hj%product_id_of_inj & Hin).
        apply elem_of_range2 in Hin. lia.
Qed.

(** The products of all sellers. *)
Lemma sellers_loop (l : list Z) (sellers : list string) : ∀ ps idx e,
  clock_ok e → 1 ≤ idx →
  map id ps = map product_id_of (range2 1 idx) →
  ∃ ps' e',
    for_in sellers (λ seller st,
      for_in l (λ _ st, create_and_add leaves seller st) st)
      (map entry ps, idx, e)
    = Ok (map entry (ps ++ ps'), idx + len sellers * len l, e')
    ∧ map seller_id ps' = concat (map (replicate (length l)) sellers)
    ∧ Forall (λ p, category_id p ∈ leaves) ps'
    ∧ map id (ps ++ ps') = map product_id_of (range2 1 (idx + len sellers * len l))
    ∧ utc e' = utc e.
Proof.
  induction sellers as [|s sellers IH]; intros ps idx e Hc Hidx Hids.
  - exists [], e. rewrite app_nil_r. unfold len. simpl.
    by rewrite Z.add_0_r.
  - destruct (seller_loop s l ps idx e Hc Hidx Hids)
      as (ps1 & e1 & Hfor1 & Hlen1 & HF1 & Hids1 & Hutc1).
    destruct (IH (ps ++ ps1) (idx + len l) e1)
      as (ps2 & e2 & Hfor2 & Hs2 & HF2 & Hids2 & Hutc2).
    + intros n. rewrite Hutc1. apply Hc.
    + unfold len. lia.
    + done.
    + exists (ps1 ++ ps2), e2.
      replace (idx + len (s :: sellers) * len l)
        with (idx + len l + len sellers * len l) by (unfold len; simpl; lia).
      rewrite app_assoc.
      split; [simpl; by rewrite Hfor1|].
      split.
      { rewrite map_app, Hs2. simpl. f_equal.
        rewrite <- Hlen1. clear -HF1.
        induction HF1 as [|p ps1 [Hp _] _ IH]; simpl; [done|]. by rewrite Hp, IH. }
      split.
      { apply Forall_app. split; [|done].
        eapply Forall_impl; [exact HF1|]. by intros p [_ ?]. }
      split; [done|congruence].
Qed.

End products.

Lemma filter_replicate_ne {A} `{EqDecision A} (n : nat) (x s : A) :
  x ≠ s → filter (λ y, y = s) (replicate n x) = [].
Proof.
  intros Hne. induction n as [|n IH]; simpl; [done|].
  by rewrite filter_cons_False by done.
Qed.

Lemma filter_replicate_eq {A} `{EqDecision A} (n : nat) (s : A) :
  filter (λ y, y = s) (replicate n s) = replicate n s.
Proof.
  induction n as [|n IH]; simpl; [done|].
  by rewrite filter_cons_True, IH by done.
Qed.

Lemma filter_replicated_none {A} `{EqDecision A} (n : nat) (l : list A) (s : A) :
  s ∉ l → filter (λ x, x = s) (concat (map (replicate n) l)) = [].
Proof.
  induction l as [|x l IH]; intros Hs; simpl; [done|].
  apply not_elem_of_cons in Hs as [Hne Hs].
  by rewrite filter_app, (IH Hs), app_nil_r, filter_replicate_ne.
Qed.

Lemma count_replicated {A} `{EqDecision A} (n : nat) (l : list A) (s : A) :
  NoDup l → s ∈ l →
  length (filter (λ x, x = s) (concat (map (replicate n) l))) = n.
Proof.
  induction 1 as [|x l Hx Hnd IH]; intros Hs; [by apply elem_of_nil in Hs|].
  simpl. rewrite filter_app, length_app.
  destruct (decide (x = s)) as [->|Hne].
  - rewrite (filter_replicated_none n l s Hx), filter_replicate_eq.
    rewrite length_replicate. simpl. lia.
  - apply elem_of_cons in Hs as [->|Hs]; [done|].
    by rewrite (IH Hs), filter_replicate_ne.
Qed.

Lemma length_filter_map {A B} `{EqDecision B} (f : A → B) (b : B) (l : list A) :
  length (filter (λ a, f a = b) l) = length (filter (λ x, x = b) (map f l)).
Proof.
  induction l as [|a l IH]; simpl; [done|].
  destruct (decide (f a = b)).
  - rewrite !filter_cons_True by done. simpl. by rewrite IH.
  - by rewrite !filter_cons_False by done.
Qed.

Lemma save_ok filename content d :
  writable d filename = true →
  save filename content d
  = Ok {| writable := writable d;
          files := dict_set filename content (files d) |}.
Proof. unfold save. by intros ->. Qed.

Lemma seed_products_ok sd e :
  0 ≤ num_sellers sd → 0 ≤ products_per_seller sd →
  leaf_ids sd ≠ [] → product_repo sd = [] → clock_ok e →
  ∃ ps e',
    seed_products sd e
    = Ok (map entry ps, 1 + num_sellers sd * products_per_seller sd, e')
    ∧ map id ps
      = map product_id_of (range2 1 (num_sellers sd * products_per_seller sd + 1))
    ∧ map seller_id ps
      = concat (map (λ s, replicate (Z.to_nat (products_per_seller sd))
                                    (seller_id_of s))
                    (range2 1 (num_sellers sd + 1)))
    ∧ Forall (λ p, category_id p ∈ leaf_ids sd) ps.
Proof.
  intros HS HP Hl Hrepo Hc.
  destruct (sellers_loop (leaf_ids sd) Hl (range1 (products_per_seller sd))
              (generate_seller_ids (num_sellers sd)) [] 1 e)
    as (ps & e' & Hfor & Hsell & Hcat & Hids & _); [done..|].
  assert (len (generate_seller_ids (num_sellers sd)) = num_sellers sd) as HlenS.
  { unfold len, generate_seller_ids. rewrite length_map, length_range2. lia. }
  assert (len (range1 (products_per_seller sd)) = products_per_seller sd) as HlenP.
  { unfold len. rewrite length_range1. lia. }
  rewrite HlenS, HlenP in *.
  exists ps, e'. split; [unfold seed_products; rewrite Hrepo; exact Hfor|].
  split; [by rewrite Z.add_comm|]. split; [|done].
  rewrite Hsell. unfold generate_seller_ids.
  by rewrite map_map, length_range1.
Qed.

(** C8. For [S] sellers and [P] products per seller, and a seeder whose
    leaf list is not empty, [run] generates exactly [S * P] products. In
    the order of their creation their identifiers are [MLA1], [MLA2], up to
    [MLA(S * P)], formed from the index that grows by one at each product,
    so no two are equal; the sellers are [SELLER_1] to [SELLER_S], each
    for [P] products in a row, so each seller has exactly [P] products; and
    the category of every product is one of the leaf identifiers. *)
Theorem seeder_run_products (S P R L : Z) (items cats : string)
    (sd : ProductSeeder) (e : env) (d : disk) :
  0 ≤ S → 0 ≤ P →
  new_seeder S P R L items cats = Ok sd →
  leaf_ids sd ≠ [] →
  clock_ok e →
  writable d cats = true → writable d items = true →
  ∃ out ps,
    run sd e d = Ok out
    ∧ product_repo (seeder out) = map entry ps
    ∧ len ps = S * P
    ∧ map id ps = map product_id_of (range2 1 (S * P + 1))
    ∧ NoDup (map id ps)
    ∧ map seller_id ps
      = concat (map (λ s, replicate (Z.to_nat P) (seller_id_of s)) (range2 1 (S + 1)))
    ∧ (∀ s, 1 ≤ s ≤ S →
         len (filter (λ p, seller_id p = seller_id_of s) ps) = P)
    ∧ Forall (λ p, category_id p ∈ leaf_ids sd) ps
    ∧ dict_get (files (storage out)) items = Some (ProductsJson (map entry ps)).
Proof.
  intros HS HP Hnew Hl Hc Hwc Hwi.
  assert (num_sellers sd = S ∧ products_per_seller sd = P
          ∧ items_file sd = items ∧ categories_file sd = cats
          ∧ product_repo sd = []) as (HsdS & HsdP & Hsdi & Hsdc & Hrepo).
  { unfold new_seeder in Hnew.
    destruct (create_categories R L) as [[c l]|]; simplify_eq/=. done. }
  destruct (seed_products_ok sd e) as (ps & e' & Hseed & Hids & Hsell & Hcat);
    [lia|lia|done..|].
  rewrite HsdS, HsdP in *.
  assert (length ps = Z.to_nat (S * P)) as Hlen.
  { rewrite <- (length_map id), Hids, length_map, length_range2. f_equal. lia. }
  eexists _, ps. split.
  { unfold run. rewrite Hseed, Hsdi, Hsdc. simpl.
    rewrite (save_ok cats) by done. simpl.
    rewrite (save_ok items) by done. reflexivity. }
  simpl. split; [done|]. split; [unfold len; nia|]. split; [done|].
  split.
  { rewrite Hids.
    apply (NoDup_fmap_2 product_id_of (Inj0:=product_id_of_inj)), NoDup_range2. }
  split; [done|]. split.
  { intros s Hs. unfold len.
    rewrite (length_filter_map seller_id), Hsell.
    replace (λ s0, replicate (Z.to_nat P) (seller_id_of s0))
      with (replicate (A:=string) (Z.to_nat P) ∘ seller_id_of) by done.
    rewrite <- (map_map seller_id_of (replicate (Z.to_nat P))).
    rewrite count_replicated; [lia| |].
    - apply (NoDup_fmap_2 seller_id_of (Inj0:=seller_id_of_inj)), NoDup_range2.
    - apply list_elem_of_fmap. exists s. split; [done|].
      apply elem_of_range2. lia. }
  split; [done|]. apply dict_get_set.
Qed.

Lemma seeder_run_products_witness :
  ∃ sd out ps,
    new_seeder 3 4 5 10 PRODUCTS_FILE CATEGORIES_FILE = Ok sd
    ∧ run sd sample_env sample_disk = Ok out
    ∧ product_repo (seeder out) = map entry ps
    ∧ len ps = 3 * 4
    ∧ map id ps = map product_id_of (range2 1 (3 * 4 + 1)).
Proof.
  destruct (new_seeder 3 4 5 10 PRODUCTS_FILE CATEGORIES_FILE) as [sd|] eqn:Hsd;
    [|by vm_compute in Hsd].
  destruct (seeder_run_products 3 4 5 10 PRODUCTS_FILE CATEGORIES_FILE sd
              sample_env sample_disk)
    as (out & ps & Hrun & Hrepo & Hlen & Hids & _).
  - lia.
  - lia.
  - exact Hsd.
  - intros Hnil.
    assert (new_seeder 3 4 5 10 PRODUCTS_FILE CATEGORIES_FILE
            ≫= (λ sd, Ok (length (leaf_ids sd))) = Ok 50%nat) as H50
      by (vm_compute; reflexivity).
    rewrite Hsd in H50. simpl in H50. by rewrite Hnil in H50.
  - intros n. unfold sample_env, DATETIME_MAX, DAY. simpl. lia.
  - reflexivity.
  - reflexivity.
  - exists sd, out, ps.
    exact (conj eq_refl (conj Hrun (conj Hrepo (conj Hlen Hids)))).
Defined.

End SeederFacts.
(** ** More on load_test.py *)

Module LoadTestRunFacts.
Import LoadTest LoadTestSpec LoadTestRunSpec.

(** *** Samples and warnings of a run *)

Lemma paced_then {A B} (c : coro A) (f : A → coro B) p a :
  paced p a c → (∀ x, paced 0 0 (f x)) → paced p a (c ≫= f).
Proof.
  intros Hc Hf. induction Hc; simpl; try (constructor; auto); auto.
Qed.

Lemma paced_request base_url batch :
  paced 0 0 (request_once base_url batch ≫= results_append).
Proof.
  unfold request_once, perf_counter, client_get. simpl.
  constructor. intros start. constructor. intros r. constructor. intros stop.
  unfold warned. destruct (status_code r =? 200); simpl; repeat constructor.
Qed.

Lemma paced_for_each {A} (l : list A) (body : A → coro unit) :
  (∀ x, paced 0 0 (body x)) → paced 0 0 (for_each l body).
Proof.
  intros Hbody. induction l as [|x l IH]; simpl; [constructor|].
  by apply paced_then.
Qed.

Lemma paced_worker name base_url batches iterations :
  paced 0 0 (worker name base_url batches iterations).
Proof.
  unfold worker. apply paced_for_each. intros _.
  apply paced_for_each. intros batch. apply paced_request.
Qed.

Lemma run_segment_paced c p a :
  paced p a c → ∀ w,
    paced_task (run_segment c w).1
    ∧ length (stderr (run_segment c w).2) = (length (stderr w) + p)%nat
    ∧ length (results (run_segment c w).2) = (length (results w) + a)%nat.
Proof.
  induction 1 as [r|k p a _ IH|u k Hk|line k p a _ IH|x k p a _ IH];
    intros w; simpl.
  - split; [constructor|lia].
  - apply IH.
  - split; [by constructor|simpl; lia].
  - destruct (IH {| results := results w; stderr := stderr w ++ [line];
                    sent := sent w; clock := clock w |}) as (? & Hs & Hr).
    split; [done|]. simpl in *. rewrite length_app in Hs. simpl in Hs. lia.
  - destruct (IH {| results := results w ++ [x]; stderr := stderr w;
                    sent := sent w; clock := clock w |}) as (? & Hs & Hr).
    split; [done|]. simpl in *. rewrite length_app in Hr. simpl in Hr. lia.
Qed.

Lemma step_paced st e st' :
  Forall paced_task (tasks st) → step st e = Some st' →
  Forall paced_task (tasks st')
  ∧ length (results (shared st'))
    = (length (results (shared st)) + replies [e])%nat
  ∧ length (stderr (shared st'))
    = (length (stderr (shared st)) + warnings [e])%nat.
Proof.
  intros HF Hstep. unfold step in Hstep. destruct (failed st); [done|].
  destruct e as [i|i dt r|i];
    destruct (tasks st !! i) as [[c|k|]|] eqn:Hi; simplify_eq/=.
  - pose proof (Forall_lookup_1 _ _ _ _ HF Hi) as Ht. inversion Ht; subst.
    destruct (run_segment_paced c 0 0 ltac:(done) (shared st)) as (Ht' & Hs & Hr).
    destruct (run_segment c (shared st)) as [t w]. simplify_eq/=.
    split; [by apply Forall_insert|lia].
  - destruct (Qle_bool 0 dt); [|done].
    pose proof (Forall_lookup_1 _ _ _ _ HF Hi) as Ht. inversion Ht; subst.
    destruct (run_segment_paced (k r) (warned r) 1 ltac:(done)
                (tick dt (shared st))) as (Ht' & Hs & Hr).
    destruct (run_segment (k r) (tick dt (shared st))) as [t w]. simplify_eq/=.
    split; [by apply Forall_insert|lia].
  - split; [done|lia].
Qed.

Lemma replies_app es1 es2 : replies (es1 ++ es2) = (replies es1 + replies es2)%nat.
Proof. induction es1 as [|[] es1 IH]; simpl; lia. Qed.

Lemma warnings_app es1 es2 :
  warnings (es1 ++ es2) = (warnings es1 + warnings es2)%nat.
Proof. induction es1 as [|[] es1 IH]; simpl; lia. Qed.

Lemma exec_paced es : ∀ st st',
  Forall paced_task (tasks st) → exec st es = Some st' →
  Forall paced_task (tasks st')
  ∧ length (results (shared st')) = (length (results (shared st)) + replies es)%nat
  ∧ length (stderr (shared st')) = (length (stderr (shared st)) + warnings es)%nat.
Proof.
  induction es as [|e es IH]; intros st st' HF Hex; simpl in Hex.
  - simplify_eq. simpl. split; [done|lia].
  - destruct (step st e) as [st1|] eqn:Hstep; [|done].
    destruct (step_paced _ _ _ HF Hstep) as (HF1 & Hr1 & Hs1).
    destruct (IH _ _ HF1 Hex) as (HF' & Hr & Hs).
    split; [done|].
    change (e :: es) with ([e] ++ es). rewrite replies_app, warnings_app. lia.
Qed.

Lemma tasks_are_workers fs a batches cs :
  run_load_test_tasks fs a = Ok (batches, cs) →
  ∀ c, c ∈ cs → ∃ name, c = worker name (url a) batches (runs a).
Proof.
  unfold run_load_test_tasks. intros Htasks c Hc.
  destruct (resolve_ids fs a) as [l|]; simplify_eq/=.
  destruct (make_batches l (batch_size a)) as [bs|]; simplify_eq/=.
  apply list_elem_of_fmap in Hc as (i & -> & _). eauto.
Qed.

(** X2. At every point of a run, whatever the order of the events, the
    samples collected are as many as the responses received, and the lines
    on the error stream as many as the responses whose status is not 200:
    every response gives one sample, and a warning exactly when its status
    is not 200. *)
Theorem one_sample_per_response (fs : filesystem) (a : args) (t0 : Q)
    (es : list event) (batches : list (list string)) (cs : list (coro unit))
    (st : loop) :
  run_load_test_tasks fs a = Ok (batches, cs) →
  exec (gather cs t0) es = Some st →
  length (results (shared st)) = replies es
  ∧ length (stderr (shared st)) = warnings es.
Proof.
  intros Htasks Hex.
  destruct (exec_paced es (gather cs t0) st) as (_ & Hr & Hs); [|done|done].
  simpl. apply Forall_fmap, Forall_forall. intros c Hc. simpl.
  destruct (tasks_are_workers _ _ _ _ Htasks c Hc) as [name ->].
  constructor. apply paced_worker.
Qed.

Lemma one_sample_per_response_witness :
  ∃ st, exec (gather (workers_of no_files small_run) 0) small_schedule = Some st
    ∧ length (results (shared st)) = replies small_schedule
    ∧ length (stderr (shared st)) = 1%nat.
Proof.
  unfold workers_of.
  destruct (run_load_test_tasks no_files small_run) as [[batches cs]|x] eqn:Htasks.
  - destruct (exec (gather cs 0) small_schedule) as [st|] eqn:Hex.
    + exists st. split; [done|].
      exact (one_sample_per_response _ _ _ _ _ _ _ Htasks Hex).
    + exfalso.
      assert (exec (gather (workers_of no_files small_run) 0) small_schedule
              ≫= (λ _, Some ()) = Some ()) as Hst by (vm_compute; reflexivity).
      unfold workers_of in Hst. rewrite Htasks, Hex in Hst. discriminate Hst.
  - exfalso.
    assert (run_load_test_tasks no_files small_run ≫= (λ _, Ok ()) = Ok ())
      as Hok by (vm_compute; reflexivity).
    rewrite Htasks in Hok. discriminate Hok.
Defined.

(** *** Elapsed times *)

Lemma timed_mono {R} (c : coro R) t t' :
  timed t c → (t <= t')%Q → timed t' c.
Proof.
  intros Hc. revert t'.
  induction Hc as [t r|t k Hk IH|t u k Hk IH|t line k Hk IH|t x k Hx Hk IH];
    intros t' Ht; constructor; auto.
  intros t'' Ht''. apply Hk. by eapply Qle_trans.
Qed.

Lemma timed_then {A B} (c : coro A) (f : A → coro B) t :
  timed t c → (∀ x t', timed t' (f x)) → timed t (c ≫= f).
Proof.
  intros Hc Hf. induction Hc; simpl; try (constructor; auto); auto.
Qed.

Lemma timed_for_each {A} (l : list A) (body : A → coro unit) t :
  (∀ x t', timed t' (body x)) → timed t (for_each l body).
Proof.
  intros Hbody. revert t. induction l as [|x l IH]; intros t; simpl;
    [constructor|].
  apply timed_then; auto.
Qed.

Lemma timed_request base_url batch t :
  timed t (request_once base_url batch ≫= results_append).
Proof.
  unfold request_once, perf_counter, client_get. simpl.
  constructor. intros start Hstart. constructor. intros r.
  constructor. intros stop Hstop.
  assert (0 <= fl (stop - start))%Q as Hel.
  { apply FloatFacts.fl_nonneg.
    apply (Qplus_le_r _ _ start). ring_simplify. exact Hstop. }
  destruct (negb _); simpl; repeat constructor; done.
Qed.

Lemma timed_worker name base_url batches iterations t :
  timed t (worker name base_url batches iterations).
Proof.
  unfold worker. apply timed_for_each. intros _ t1.
  apply timed_for_each. intros batch t2. apply timed_request.
Qed.

Lemma timed_task_mono t t' k :
  timed_task t k → (t <= t')%Q → timed_task t' k.
Proof.
  intros Hk Ht. destruct Hk; constructor; eauto using timed_mono.
Qed.

Lemma run_segment_timed c t :
  timed t c → ∀ w,
    (t <= clock w)%Q → Forall (λ x, 0 <= x)%Q (results w) →
    timed_task (clock w) (run_segment c w).1
    ∧ Forall (λ x, 0 <= x)%Q (results (run_segment c w).2)
    ∧ clock (run_segment c w).2 = clock w.
Proof.
  induction 1 as [t r|t k Hk IH|t u k Hk IH|t line k Hk IH|t x k Hx Hk IH];
    intros w Ht Hres; simpl.
  - split; [constructor|done].
  - destruct (IH (clock w) Ht w) as (? & ? & ?); [apply Qle_refl|done|done].
  - split; [|done]. constructor. intros r. by eapply timed_mono.
  - by apply (IH {| results := results w; stderr := stderr w ++ [line];
                    sent := sent w; clock := clock w |}).
  - apply (IH {| results := results w ++ [x]; stderr := stderr w;
                 sent := sent w; clock := clock w |}); [done|].
    simpl. apply Forall_app. split; [done|]. by constructor.
Qed.

Lemma step_timed st e st' :
  Forall (timed_task (clock (shared st))) (tasks st) →
  Forall (λ x, 0 <= x)%Q (results (shared st)) →
  step st e = Some st' →
  Forall (timed_task (clock (shared st'))) (tasks st')
  ∧ Forall (λ x, 0 <= x)%Q (results (shared st')).
Proof.
  intros HF Hres Hstep. unfold step in Hstep. destruct (failed st); [done|].
  destruct e as [i|i dt r|i];
    destruct (tasks st !! i) as [[c|k|]|] eqn:Hi; simplify_eq/=.
  - pose proof (Forall_lookup_1 _ _ _ _ HF Hi) as Ht. inversion Ht; subst.
    destruct (run_segment_timed c _ ltac:(done) (shared st))
      as (Ht' & Hr & Hc); [apply Qle_refl|done|].
    destruct (run_segment c (shared st)) as [t w]. simplify_eq/=.
    rewrite Hc. split; [by apply Forall_insert|done].
  - destruct (Qle_bool 0 dt) eqn:Hdt; [|done]. apply Qle_bool_iff in Hdt.
    assert (clock (shared st) <= clock (tick dt (shared st)))%Q as Hclock.
    { simpl. apply (Qplus_le_r _ _ (- clock (shared st))). by ring_simplify. }
    pose proof (Forall_lookup_1 _ _ _ _ HF Hi) as Ht. inversion Ht; subst.
    destruct (run_segment_timed (k r) _ ltac:(done) (tick dt (shared st)))
      as (Ht' & Hr & Hc); [done|done|].
    destruct (run_segment (k r) (tick dt (shared st))) as [t w]. simplify_eq/=.
    rewrite Hc. split; [|done]. apply Forall_insert; [|done].
    eapply Forall_impl; [exact HF|]. intros t0 Ht0. simpl.
    by eapply timed_task_mono.
  - done.
Qed.

Lemma exec_timed es : ∀ st st',
  Forall (timed_task (clock (shared st))) (tasks st) →
  Forall (λ x, 0 <= x)%Q (results (shared st)) →
  exec st es = Some st' →
  Forall (λ x, 0 <= x)%Q (results (shared st')).
Proof.
  induction es as [|e es IH]; intros st st' HF Hres Hex; simpl in Hex.
  - by simplify_eq.
  - destruct (step st e) as [st1|] eqn:Hstep; [|done].
    destruct (step_timed _ _ _ HF Hres Hstep) as [HF1 Hres1]. eauto.
Qed.

(** X3. No sample is negative: an elapsed time is the difference of two
    readings of a clock that does not go back, whatever the order in which
    the workers are resumed. *)
Theorem samples_not_negative (fs : filesystem) (a : args) (t0 : Q)
    (es : list event) (rs : list Q) :
  run_load_test fs a t0 es = Some (Ok rs) →
  Forall (λ x, 0 <= x)%Q rs.
Proof.
  intros Hrun. unfold run_load_test in Hrun.
  destruct (run_load_test_tasks fs a) as [[batches cs]|x] eqn:Htasks;
    [|by destruct es].
  destruct (exec (gather cs t0) es) as [st|] eqn:Hex; [|done].
  destruct (failed st); [done|].
  destruct (forallb is_done (tasks st)); [|done]. simplify_eq.
  apply (exec_timed es (gather cs t0) st); [|done|done].
  simpl. apply Forall_fmap, Forall_forall. intros c Hc. simpl.
  destruct (tasks_are_workers _ _ _ _ Htasks c Hc) as [name ->].
  constructor. apply timed_worker.
Qed.

Lemma samples_not_negative_witness :
  ∃ rs, run_load_test no_files small_run 0 small_schedule = Some (Ok rs)
    ∧ Forall (λ x, 0 <= x)%Q rs.
Proof.
  eassert (run_load_test no_files small_run 0 small_schedule = Some (Ok _))
    as Hrun by (vm_compute; reflexivity).
  eexists. split; [exact Hrun|].
  exact (samples_not_negative _ _ _ _ _ Hrun).
Defined.

(** *** The identifiers *)

Lemma app_cons c (s t : string) : String c s +:+ t = String c (s +:+ t).
Proof. reflexivity. Qed.

Lemma app_empty_r (s : string) : s +:+ "" = s.
Proof. induction s as [|c s IH]; [done|]. rewrite app_cons. by f_equal. Qed.

Lemma app_assoc_string (s1 s2 s3 : string) :
  (s1 +:+ s2) +:+ s3 = s1 +:+ (s2 +:+ s3).
Proof.
  induction s1 as [|c s1 IH]; [done|]. rewrite !app_cons. by f_equal.
Qed.

Lemma rev_app_spec s1 : ∀ s2, String.rev_app s1 s2 = String.rev s1 +:+ s2.
Proof.
  induction s1 as [|c s1 IH]; intros s2; [done|].
  change (String.rev_app s1 (String c s2)
          = String.rev_app s1 (String c "") +:+ s2).
  rewrite (IH (String c s2)), (IH (String c "")).
  by rewrite app_assoc_string.
Qed.

Lemma rev_cons c s : String.rev (String c s) = String.rev s +:+ String c "".
Proof. apply (rev_app_spec s (String c "")). Qed.

Lemma rev_app_string s1 s2 :
  String.rev (s1 +:+ s2) = String.rev s2 +:+ String.rev s1.
Proof.
  induction s1 as [|c s1 IH].
  - change (String.rev s2 = String.rev s2 +:+ ""). by rewrite app_empty_r.
  - by rewrite app_cons, !rev_cons, IH, app_assoc_string.
Qed.

Lemma rev_involutive s : String.rev (String.rev s) = s.
Proof.
  induction s as [|c s IH]; [done|].
  by rewrite rev_cons, rev_app_string, IH.
Qed.

Lemma lstrip_head_clean s : head_clean (lstrip s).
Proof.
  induction s as [|c s IH]; simpl; [done|].
  by destruct (isspace c) eqn:E; simpl.
Qed.

Lemma lstrip_clean s : head_clean s → lstrip s = s.
Proof. destruct s as [|c s]; simpl; [done|]. by intros ->. Qed.

Lemma lstrip_app s1 s2 :
  lstrip (s1 +:+ s2)
  = match lstrip s1 with
    | EmptyString => lstrip s2
    | u => u +:+ s2
    end.
Proof.
  induction s1 as [|c s1 IH]; [done|]. rewrite app_cons. simpl.
  by destruct (isspace c).
Qed.

Lemma rstrip_head_clean s : head_clean s → head_clean (rstrip s).
Proof.
  destruct s as [|c s]; [done|]. simpl. intros Hc.
  unfold rstrip. rewrite rev_cons, lstrip_app.
  destruct (lstrip (String.rev s)) as [|c' u] eqn:E.
  - simpl. by rewrite Hc.
  - by rewrite rev_app_string.
Qed.

Lemma rstrip_rstrip s : rstrip (rstrip s) = rstrip s.
Proof.
  unfold rstrip. rewrite rev_involutive.
  by rewrite (lstrip_clean (lstrip _)) by apply lstrip_head_clean.
Qed.

Lemma strip_strip s : strip (strip s) = strip s.
Proof.
  unfold strip.
  rewrite (lstrip_clean (rstrip (lstrip s)))
    by apply rstrip_head_clean, lstrip_head_clean.
  apply rstrip_rstrip.
Qed.

(** X4. The identifiers read from a file are never empty and carry no
    white space at either end: stripping one again leaves it as it is. *)
Theorem ids_from_text_stripped (t : string) :
  Forall (λ x, x ≠ "" ∧ strip x = x) (ids_from_text t).
Proof.
  unfold ids_from_text. apply Forall_fmap, Forall_forall.
  intros line Hline%list_elem_of_filter. destruct Hline as [Hne _]. simpl.
  split; [by destruct (strip line)|apply strip_strip].
Qed.

(** X5. What [run_load_test] resolves is never an empty list; and when it
    raises, it is with [OSError], because the file of a non-empty path
    cannot be opened, with [UnicodeDecodeError], because the bytes of that
    file are not a text, or with [SystemExit], because the one source that
    was chosen gave no identifier. *)
Theorem resolve_ids_outcomes (fs : filesystem) (a : args) :
  match resolve_ids fs a with
  | Ok l => l ≠ []
  | Raise e =>
      (∃ p, ids_file a = Some p ∧ p ≠ ""
            ∧ ((e = OSError ∧ fs p = NoFile)
               ∨ (e = UnicodeDecodeError ∧ fs p = NotText)))
      ∨ (e = SystemExit "No item IDs provided."
         ∧ ((∃ p t, ids_file a = Some p ∧ p ≠ "" ∧ fs p = TextFile t
                    ∧ ids_from_text t = [])
            ∨ (opt_truthy str_truthy (ids_file a) = false
               ∧ opt_truthy list_truthy (ids a) = false ∧ num_ids a ≤ 0)))
  end.
Proof.
  unfold resolve_ids.
  destruct (ids_file a) as [[|c p]|] eqn:Hf; simpl.
  1,3: destruct (ids a) as [[|x l]|] eqn:Hi; simpl; try done;
    (destruct (synthetic_ids (num_ids a)) as [|y l'] eqn:Hs; simpl; [|done];
     right; split; [done|]; right; repeat split;
     destruct (Z.le_gt_cases (num_ids a) 0) as [|Hpos]; [done|];
     apply (f_equal length) in Hs;
     unfold synthetic_ids in Hs; rewrite length_map, length_range1 in Hs;
     simpl in Hs; lia).
  unfold read_text. destruct (fs (String c p)) as [| |t] eqn:Ht; simpl.
  - left. exists (String c p). split; [done|]. split; [done|]. by left.
  - left. exists (String c p). split; [done|]. split; [done|]. by right.
  - destruct (ids_from_text t) as [|x l] eqn:Hids; simpl; [|done].
    right. split; [done|]. left. by exists (String c p), t.
Qed.

Lemma NoDup_range1 n : NoDup (range1 n).
Proof.
  unfold range1, range2. apply NoDup_fmap_2; [|apply NoDup_seq].
  intros x y. lia.
Qed.

(** X6. The synthetic identifiers for a count [n] are [MLA0] to
    [MLA(n-1)], in this order and all different; there is none when [n] is
    zero or negative. *)
Theorem synthetic_ids_distinct (n : Z) :
  len (synthetic_ids n) = Z.max 0 n
  ∧ NoDup (synthetic_ids n)
  ∧ ∀ i, 0 ≤ i < n →
      synthetic_ids n !! Z.to_nat i = Some ("MLA" +:+ str_of_int i).
Proof.
  unfold synthetic_ids. split; [|split].
  - unfold len. rewrite length_map, length_range1. lia.
  - apply NoDup_fmap_2; [|apply NoDup_range1].
    intros x y H. by apply String.app_inj, (inj pretty) in H.
  - intros i Hi. rewrite list_lookup_fmap. unfold range1, range2.
    rewrite list_lookup_fmap, lookup_seq_lt by lia. simpl.
    do 3 f_equal. lia.
Qed.

(** *** Batch sizes that are not positive *)

Lemma make_batches_edges (l : list string) (size : Z) :
  size ≤ 0 →
  make_batches l size = if size =? 0 then Raise ValueError else Ok [].
Proof.
  intros Hs. unfold make_batches, range3, range_len.
  destruct (size =? 0) eqn:E; [done|]. apply Z.eqb_neq in E.
  replace (0 <? size) with false by (symmetry; apply Z.ltb_ge; lia).
  replace (Z.of_nat (length l) <? 0) with false
    by (symmetry; apply Z.ltb_ge; lia).
  by rewrite andb_false_r.
Qed.

Lemma exec_idle es : ∀ st st',
  Forall (λ t, t = Done ∨ ∃ c, t = Ready c ∧ counts 0 0 c) (tasks st) →
  exec st es = Some st' →
  failed st' = failed st ∧ length (results (shared st')) = length (results (shared st)).
Proof.
  induction es as [|e es IH]; intros st st' HF Hex; simpl in Hex;
    [by simplify_eq|].
  destruct (step st e) as [st1|] eqn:Hstep; [|done].
  unfold step in Hstep. destruct (failed st) eqn:Hf; [done|].
  assert (∀ i k, tasks st !! i ≠ Some (Waiting k)) as Hnw.
  { intros i k Hi. by destruct (Forall_lookup_1 _ _ _ _ HF Hi) as [|(c & ? & _)]. }
  destruct e as [i|i dt r|i];
    destruct (tasks st !! i) as [[c|k|]|] eqn:Hi; simplify_eq/=;
    try (by destruct (Hnw i k)).
  destruct (Forall_lookup_1 _ _ _ _ HF Hi) as [|(c' & [= <-] & Hc)]; [done|].
  destruct (LoadTestFacts.run_segment_shape c (shared st) 0 0 Hc)
    as [Hd|(k & g' & a' & _ & ? & _)]; [|done].
  destruct (LoadTestFacts.run_segment_counts c (shared st) 0 0 Hc)
    as (g' & a' & Htc & _ & Hr).
  destruct (run_segment c (shared st)) as [t w]. simplify_eq/=.
  inversion Htc; subst.
  destruct (IH {| tasks := <[i := Done]> (tasks st); shared := w;
                  failed := false |} st') as [Hf' Hr']; [|done|].
  { simpl. apply Forall_insert; [done|by left]. }
  simpl in *. split; [congruence|lia].
Qed.

(** X7. A batch size that is not positive is not refused. With the size
    zero the run raises [ValueError] before any request; with a negative
    size there is no batch at all, so that no request is sent, no transport
    error can occur and the run returns no sample. *)
Theorem batch_size_not_positive (fs : filesystem) (a : args) (t0 : Q)
    (es : list event) (l : list string) (r : result (list Q)) :
  resolve_ids fs a = Ok l → batch_size a ≤ 0 →
  run_load_test fs a t0 es = Some r →
  r = if batch_size a =? 0 then Raise ValueError else Ok [].
Proof.
  intros Hl Hs Hrun. unfold run_load_test, run_load_test_tasks in Hrun.
  rewrite Hl in Hrun. simpl in Hrun.
  rewrite (make_batches_edges l _ Hs) in Hrun.
  destruct (batch_size a =? 0); simpl in Hrun; [destruct es; by simplify_eq|].
  match type of Hrun with context [exec ?s es] => set (st0 := s) in * end.
  destruct (exec st0 es) as [st|] eqn:Hex; [|done].
  destruct (exec_idle es st0 st) as [Hf Hr]; [|exact Hex|].
  { simpl. apply Forall_fmap, Forall_fmap, Forall_forall. intros i _. simpl.
    right. eexists. split; [done|].
    pose proof (LoadTestFacts.counts_worker
      ("worker-" +:+ str_of_int i) (url a) [] (runs a)) as Hc.
    simpl in Hc. by rewrite Nat.mul_0_r in Hc. }
  simpl in Hf, Hr. rewrite Hf in Hrun.
  destruct (forallb is_done (tasks st)); [|done]. simplify_eq.
  by destruct (results (shared st)).
Qed.

Lemma batch_size_not_positive_witness :
  run_load_test no_files negative_batches 0 [Start 0; Start 1] = Some (Ok []).
Proof.
  assert (is_Some (run_load_test no_files negative_batches 0 [Start 0; Start 1]))
    as [r Hr] by (eexists; vm_compute; reflexivity).
  rewrite Hr. f_equal.
  exact (batch_size_not_positive no_files negative_batches 0 _
           ["MLA1"; "MLA2"; "MLA3"] r eq_refl ltac:(simpl; lia) Hr).
Defined.

(** *** The query of a request *)

Lemma all_chars_app P s1 s2 :
  all_chars P (s1 +:+ s2) = all_chars P s1 && all_chars P s2.
Proof.
  induction s1 as [|c s1 IH]; [done|]. rewrite app_cons. simpl.
  by rewrite IH, andb_assoc.
Qed.

Lemma hex_digit_kept (k : N) : (k < 16)%N → kept_char (hex_digit k) = true.
Proof.
  intros Hk. rewrite <- (N2Nat.id k).
  assert (N.to_nat k < 16)%nat as Hn by lia.
  revert Hn. generalize (N.to_nat k). clear. intros n Hn.
  do 16 (destruct n as [|n]; [by vm_compute|]). lia.
Qed.

Lemma percent_quoted (byte : N) :
  (byte < 256)%N → all_chars quoted_char (percent byte) = true.
Proof.
  intros Hb.
  assert (quoted_char (hex_digit (byte / 16)) = true) as H1.
  { unfold quoted_char. rewrite hex_digit_kept; [done|].
    apply N.Div0.div_lt_upper_bound. lia. }
  assert (quoted_char (hex_digit (byte mod 16)) = true) as H2.
  { unfold quoted_char. rewrite hex_digit_kept; [done|].
    apply N.mod_lt. lia. }
  unfold percent. cbn [all_chars]. by rewrite H1, H2.
Qed.

Lemma quote_comma_quoted s : all_chars quoted_char (quote_comma s) = true.
Proof.
  induction s as [|c s IH]; [done|]. simpl.
  pose proof (N_ascii_bounded c) as Hc.
  destruct (always_safe c || (N_of_ascii c =? 44)%N) eqn:Hk.
  - simpl. unfold quoted_char at 1, kept_char. by rewrite Hk, IH.
  - destruct (N_of_ascii c <? 128)%N eqn:Hlt.
    + rewrite all_chars_app, percent_quoted, IH by done. done.
    + apply N.ltb_ge in Hlt.
      rewrite !all_chars_app, !percent_quoted, IH; [done|..].
      * pose proof (N.mod_lt (N_of_ascii c) 64 ltac:(lia)). lia.
      * assert (N_of_ascii c / 64 < 4)%N
          by (apply N.Div0.div_lt_upper_bound; lia). lia.
Qed.

Lemma quote_comma_kept s : all_chars kept_char s = true → quote_comma s = s.
Proof.
  induction s as [|c s IH]; [done|]. simpl.
  intros [Hc Hs]%andb_true_iff. unfold kept_char in Hc.
  by rewrite Hc, IH.
Qed.

Lemma join_kept (l : list string) :
  Forall (λ x, all_chars kept_char x = true) l →
  all_chars kept_char (join "," l) = true.
Proof.
  induction 1 as [|x l Hx Hl IH]; [done|].
  destruct l as [|y l]; [done|].
  change (join "," (x :: y :: l)) with (x +:+ "," +:+ join "," (y :: l)).
  by rewrite !all_chars_app, Hx, IH.
Qed.

(** X8. The query of the URL that [request_once] asks for holds nothing
    but letters, digits, the marks [_ . - ~], commas and percent-escapes;
    and identifiers made of letters, digits, those marks and commas are
    sent as they are, joined by commas. *)
Theorem quoted_query (base_url : string) (item_ids : list string) :
  ∃ q, request_url base_url item_ids = base_url +:+ "?item_ids=" +:+ q
    ∧ all_chars quoted_char q = true
    ∧ (Forall (λ x, all_chars kept_char x = true) item_ids →
       q = join "," item_ids).
Proof.
  exists (quote_comma (join "," item_ids)). split; [done|].
  split; [apply quote_comma_quoted|].
  intros Hids. by apply quote_comma_kept, join_kept.
Qed.

Lemma quoted_query_witness :
  ∃ q, request_url "http://h/d" ["MLA1"; "MLA2"] = "http://h/d" +:+ "?item_ids=" +:+ q
    ∧ q = "MLA1,MLA2".
Proof.
  destruct (quoted_query "http://h/d" ["MLA1"; "MLA2"]) as (q & Hq & _ & Hk).
  exists q. split; [exact Hq|]. apply Hk. by repeat constructor.
Defined.

(** *** The statistics lie between the extremes *)

Lemma elem_of_insert_sorted x y l : y ∈ insert_sorted x l ↔ y = x ∨ y ∈ l.
Proof.
  induction l as [|z l IH]; simpl.
  - rewrite list_elem_of_singleton, elem_of_nil. tauto.
  - destruct (Qle_bool x z).
    + by rewrite elem_of_cons.
    + rewrite !elem_of_cons, IH. tauto.
Qed.

Lemma elem_of_sorted y l : y ∈ sorted l ↔ y ∈ l.
Proof.
  induction l as [|x l IH]; simpl; [done|].
  by rewrite elem_of_insert_sorted, elem_of_cons, IH.
Qed.

Lemma getitem_elem {A} (l : list A) k x : getitem l k = Ok x → x ∈ l.
Proof.
  unfold getitem. destruct (_ || _); [done|].
  destruct (l !! _) as [y|] eqn:Hy; [|done].
  intros [= <-]. by eapply list_elem_of_lookup_2.
Qed.

Lemma getitem_sorted_elem (l : list Q) k x :
  getitem (sorted l) k = Ok x → x ∈ l.
Proof. intros H%getitem_elem. by apply (proj1 (elem_of_sorted x l)). Qed.

Lemma sum_Q_between lo hi xs :
  Forall (λ x, lo <= x <= hi)%Q xs →
  (inject_Z (len xs) * lo <= sum_Q xs <= inject_Z (len xs) * hi)%Q.
Proof.
  induction 1 as [|x xs [Hlo Hhi] _ [IHlo IHhi]].
  - unfold len. simpl. split; ring_simplify; apply Qle_refl.
  - assert (inject_Z (len (x :: xs)) == inject_Z (len xs) + 1)%Q as ->.
    { unfold len. simpl length. rewrite Nat2Z.inj_succ, <- Z.add_1_r.
      by rewrite inject_Z_plus. }
    simpl. split; nra.
Qed.

Lemma mean_between lo hi xs m :
  binary64 lo → binary64 hi → (0 <= lo)%Q →
  Forall (λ x, lo <= x <= hi)%Q xs → mean xs = Ok m → (lo <= m <= hi)%Q.
Proof.
  intros Hlo64 Hhi64 Hlo0 HF Hm. unfold mean in Hm.
  destruct (len xs <? 1) eqn:E; [done|]. apply Z.ltb_ge in E.
  injection Hm as <-.
  destruct (sum_Q_between lo hi xs HF) as [Hlo Hhi].
  assert (0 < inject_Z (len xs))%Q as Hn.
  { change 0%Q with (inject_Z 0). rewrite <- Zlt_Qlt. lia. }
  assert (lo <= sum_Q xs / inject_Z (len xs) <= hi)%Q as [H1 H2].
  { split.
    - apply Qle_shift_div_l; [done|]. by rewrite Qmult_comm.
    - apply Qle_shift_div_r; [done|]. by rewrite Qmult_comm. }
  unfold binary64 in *. split.
  - apply Qle_trans with (fl lo); [rewrite Hlo64; apply Qle_refl|].
    by apply FloatFacts.fl_mono.
  - apply Qle_trans with (fl hi); [|rewrite Hhi64; apply Qle_refl].
    apply FloatFacts.fl_mono; [lra|done].
Qed.

(** The float mean of two floats lies between them. *)
Lemma halved_sum_between lo hi a b :
  binary64 lo → binary64 hi → (0 <= lo)%Q →
  (lo <= a <= hi)%Q → (lo <= b <= hi)%Q →
  (lo <= fl (fl (a + b) / 2) <= hi)%Q.
Proof.
  intros Hlo64 Hhi64 Hlo0 [Ha1 Ha2] [Hb1 Hb2].
  assert (0 <= hi)%Q as Hhi0 by lra.
  pose proof (FloatFacts.fl_double lo Hlo0 Hlo64) as Hlo2.
  pose proof (FloatFacts.fl_double hi Hhi0 Hhi64) as Hhi2.
  assert (lo + lo <= fl (a + b))%Q as H1.
  { apply Qle_trans with (fl (lo + lo)); [rewrite Hlo2; apply Qle_refl|].
    apply FloatFacts.fl_mono; lra. }
  assert (fl (a + b) <= hi + hi)%Q as H2.
  { apply Qle_trans with (fl (hi + hi)); [|rewrite Hhi2; apply Qle_refl].
    apply FloatFacts.fl_mono; lra. }
  unfold binary64 in *. split.
  - apply Qle_trans with (fl lo); [rewrite Hlo64; apply Qle_refl|].
    apply FloatFacts.fl_mono; [done|]. apply Qle_shift_div_l; lra.
  - apply Qle_trans with (fl hi); [|rewrite Hhi64; apply Qle_refl].
    apply FloatFacts.fl_mono.
    + apply Qle_shift_div_l; lra.
    + apply Qle_shift_div_r; lra.
Qed.

Lemma median_between lo hi xs md :
  binary64 lo → binary64 hi → (0 <= lo)%Q →
  Forall (λ x, lo <= x <= hi)%Q xs → median xs = Ok md → (lo <= md <= hi)%Q.
Proof.
  intros Hlo64 Hhi64 Hlo0 HF Hmd. rewrite Forall_forall in HF.
  unfold median in Hmd.
  destruct (len (sorted xs) =? 0); [done|].
  destruct (_ mod 2 =? 1).
  - by apply HF, (getitem_sorted_elem _ _ _ Hmd).
  - destruct (getitem (sorted xs) (_ - 1)) as [a|] eqn:Ha; [|done].
    simpl in Hmd.
    destruct (getitem (sorted xs) _) as [b|] eqn:Hb in Hmd; [|done].
    simpl in Hmd. injection Hmd as <-.
    apply getitem_sorted_elem, HF in Ha.
    apply getitem_sorted_elem, HF in Hb.
    by apply halved_sum_between.
Qed.



(** The products by 1000 are products of floats: two samples of 0.000125 s
    are printed as 0.12 ms, the float product being 0.125 and the tie going
    to the even digit, where the exact product of the sample is above
    0.125. *)
Example summary_of_floats :
  let x := fl (125 # 1000000) in
  sample x
  ∧ print_summary Before_3_13 [x; x] []
    = ([newline +:+ "==== Performance summary ====";
        "Requests : 2";
        "Mean     : 0.12 ms";
        "Median   : 0.12 ms";
        "P95      : 0.12 ms";
        "Min | Max: 0.12 ms | 0.12 ms";
        "==============================" +:+ newline],
       Ok ())
  ∧ format_2f (x * 1000) = "0.13".
Proof.
  split; [split; [by vm_compute|apply Qle_bool_iff; by vm_compute]|].
  split; vm_compute; reflexivity.
Qed.

(** The 95th percentile is not kept between the extremes: for two equal
    samples of 0.761805 s the interpolation in floats ends above them, and
    the summary prints a P95 above its Max. *)
Example p95_above_max :
  let x := fl (761805 # 1000000) in
  sample x
  ∧ (qs ← quantiles Before_3_13 [x; x] 20; p ← getitem qs 18; Ok (Qltb x p))
    = Ok true
  ∧ print_summary Before_3_13 [x; x] []
    = ([newline +:+ "==== Performance summary ====";
        "Requests : 2";
        "Mean     : 761.80 ms";
        "Median   : 761.80 ms";
        "P95      : 761.81 ms";
        "Min | Max: 761.80 ms | 761.80 ms";
        "==============================" +:+ newline],
       Ok ()).
Proof.
  split; [split; [by vm_compute|apply Qle_bool_iff; by vm_compute]|].
  split; vm_compute; reflexivity.
Qed.

End LoadTestRunFacts.

(** ** The script of load_test.py *)

Module LoadTestCliFacts.
Import LoadTest LoadTestSpec LoadTestRunSpec LoadTestCli LoadTestCliSpec.

Lemma run_load_test_samples fs a t0 es rs :
  run_load_test fs a t0 es = Some (Ok rs) →
  length rs = replies es ∧ Forall (λ x, 0 <= x)%Q rs.
Proof.
  intros Hrun. unfold run_load_test in Hrun.
  destruct (run_load_test_tasks fs a) as [[batches cs]|x] eqn:Htasks;
    [|by destruct es].
  destruct (exec (gather cs t0) es) as [st|] eqn:Hex; [|done].
  destruct (failed st); [done|].
  destruct (forallb is_done (tasks st)); [|done]. simplify_eq.
  split.
  - destruct (LoadTestRunFacts.exec_paced es (gather cs t0) st)
      as (_ & Hr & _); [|done|done].
    simpl. apply Forall_fmap, Forall_forall. intros c Hc. simpl.
    destruct (LoadTestRunFacts.tasks_are_workers _ _ _ _ Htasks c Hc)
      as [name ->].
    constructor. apply LoadTestRunFacts.paced_worker.
  - apply (LoadTestRunFacts.exec_timed es (gather cs t0) st); [|done|done].
    simpl. apply Forall_fmap, Forall_forall. intros c Hc. simpl.
    destruct (LoadTestRunFacts.tasks_are_workers _ _ _ _ Htasks c Hc)
      as [name ->].
    constructor. apply LoadTestRunFacts.timed_worker.
Qed.

Lemma synthetic_ids_none n : n ≤ 0 → synthetic_ids n = [].
Proof.
  intros Hn. apply length_zero_iff_nil. unfold synthetic_ids.
  rewrite length_map, length_range1. lia.
Qed.

(** The check of the script lets through every command line for which
    [run_load_test] finds ids. *)
Lemma resolved_any_source fs a l :
  resolve_ids fs a = Ok l → any_source a = true.
Proof.
  unfold resolve_ids, any_source.
  destruct (opt_truthy list_truthy (ids a)) eqn:Hi; [done|].
  destruct (opt_truthy str_truthy (ids_file a)) eqn:Hf; [done|].
  simpl. destruct (num_ids a =? 0) eqn:H0; [|done].
  apply Z.eqb_eq in H0. rewrite H0. by vm_compute.
Qed.

Lemma run_any_source fs a t0 es rs :
  run_load_test fs a t0 es = Some (Ok rs) → any_source a = true.
Proof.
  unfold run_load_test, run_load_test_tasks. intros Hrun.
  destruct (resolve_ids fs a) as [l|e] eqn:Hl; [by eapply resolved_any_source|].
  simpl in Hrun. by destruct es.
Qed.

(** X10. The raw latencies are exported only after the summary: when a
    run collects no sample, or a single one under a Python older than
    3.13, the script ends with [StatisticsError] and writes no file, also
    when [--csv] is given. *)
Theorem export_needs_summary (v : py_version) (fs : filesystem)
    (d : csv_disk) (a : args) (t0 : Q) (es : list event) (rs : list Q) :
  run_load_test fs a t0 es = Some (Ok rs) →
  rs = [] ∨ (v = Before_3_13 ∧ len rs = 1) →
  ∃ out, main v fs d a t0 es
         = Some {| printed := out; written := d;
                   status := Uncaught StatisticsError |}.
Proof.
  intros Hrun Hrs. unfold main.
  rewrite (run_any_source _ _ _ _ _ Hrun), Hrun. simpl.
  destruct Hrs as [->|[-> Hlen]].
  - rewrite LoadTestFacts.print_summary_nil. by eexists.
  - destruct rs as [|x [|y rs]]; [done| |unfold len in Hlen; simpl in Hlen; lia].
    rewrite LoadTestFacts.single_sample_before_3_13. by eexists.
Qed.

Lemma export_needs_summary_witness :
  ∃ out, main Since_3_13 no_files writable
              (with_csv "out.csv" negative_batches) 0 [Start 0; Start 1]
         = Some {| printed := out; written := writable;
                   status := Uncaught StatisticsError |}.
Proof.
  apply (export_needs_summary _ _ _ _ _ _ []); [|by left].
  vm_compute. reflexivity.
Defined.

Lemma main_finished v fs d a t0 es o :
  main v fs d a t0 es = Some o → status o = Finished →
  ∃ rs out,
    run_load_test fs a t0 es = Some (Ok rs)
    ∧ print_summary v rs [] = (out, Ok ())
    ∧ if opt_truthy str_truthy (csv a)
      then write_csv (default "" (csv a)) rs d out = (printed o, Ok (written o))
      else printed o = out ∧ written o = d.
Proof.
  unfold main. intros Hmain Hst.
  destruct (any_source a); simpl in Hmain; [|by destruct es; simplify_eq/=].
  destruct (run_load_test fs a t0 es) as [[rs|e]|] eqn:Hrun;
    [|by simplify_eq/=|done].
  destruct (print_summary v rs []) as [out [[]|e]] eqn:Hsum;
    [|by simplify_eq/=].
  exists rs, out. split; [done|]. split; [done|].
  destruct (opt_truthy str_truthy (csv a)); [|by simplify_eq/=].
  destruct (write_csv _ rs d out) as [out' [d'|e]]; by simplify_eq/=.
Qed.



Lemma dict_get_set_ne {V} (k k' : string) (v : V) (d : dict V) :
  k' ≠ k → dict_get (dict_set k v d) k' = dict_get d k'.
Proof.
  intros Hne. induction d as [|[k0 v0] d IH]; simpl.
  - by destruct (decide (k' = k)).
  - destruct (decide (k = k0)) as [->|]; simpl; [|by rewrite IH].
    by destruct (decide (k' = k0)).
Qed.

(** X12. The script changes no file but the one named by [--csv], and
    that one only when it finishes: after a usage error, a failed run, a
    failed summary or a file that cannot be opened, the files are as they
    were. *)
Theorem export_only_named_file (v : py_version) (fs : filesystem)
    (d : csv_disk) (a : args) (t0 : Q) (es : list event) (o : main_outcome)
    (q : string) :
  main v fs d a t0 es = Some o →
  csv a ≠ Some q ∨ status o ≠ Finished →
  dict_get (csv_files (written o)) q = dict_get (csv_files d) q.
Proof.
  unfold main. intros Hmain Hq.
  destruct (any_source a); simpl in Hmain; [|by destruct es; simplify_eq/=].
  destruct (run_load_test fs a t0 es) as [[rs|e]|]; [|by simplify_eq/=|done].
  destruct (print_summary v rs []) as [out [[]|e]]; [|by simplify_eq/=].
  destruct (opt_truthy str_truthy (csv a)) eqn:Hc; [|by simplify_eq/=].
  unfold write_csv in Hmain.
  destruct (can_write d _); simpl in Hmain; [|by simplify_eq/=].
  injection Hmain as <-. simpl in *.
  destruct Hq as [Hq|Hq]; [|done].
  destruct (csv a) as [p|]; [|done]. simpl.
  apply dict_get_set_ne. congruence.
Qed.

Lemma export_only_named_file_witness :
  ∃ o, main Before_3_13 no_files read_only (with_csv "out.csv" small_run) 0
            small_schedule = Some o
    ∧ status o = Uncaught OSError
    ∧ dict_get (csv_files (written o)) "out.csv" = None.
Proof.
  eassert (main Before_3_13 no_files read_only (with_csv "out.csv" small_run) 0
                small_schedule
           = Some {| printed := _; written := _; status := Uncaught OSError |})
    as Hmain by (vm_compute; reflexivity).
  eexists. split; [exact Hmain|]. split; [reflexivity|].
  apply (export_only_named_file _ _ _ _ _ _ _ "out.csv" Hmain).
  right. simpl. discriminate.
Defined.

(** X13. Without a list of ids, inline or in a file, the script stops
    before any request: with the usage error when [--num-ids] is 0, its
    default, and with [SystemExit], raised by [run_load_test], when it is
    negative, which the check of the script lets through. Nothing is
    printed on standard output and no file is written. *)
Theorem main_without_ids (v : py_version) (fs : filesystem) (d : csv_disk)
    (a : args) (t0 : Q) (es : list event) (o : main_outcome) :
  opt_truthy list_truthy (ids a) = false →
  opt_truthy str_truthy (ids_file a) = false →
  num_ids a ≤ 0 →
  main v fs d a t0 es = Some o →
  es = []
  ∧ o = {| printed := []; written := d;
           status := if num_ids a =? 0
                     then Usage "Provide --ids, --ids-file or --num-ids"
                     else Uncaught (SystemExit "No item IDs provided.") |}.
Proof.
  intros Hi Hf Hn. unfold main, any_source. rewrite Hi, Hf. simpl.
  destruct (num_ids a =? 0) eqn:H0; simpl.
  - destruct es; [|done]. by intros [= <-].
  - unfold run_load_test, run_load_test_tasks, resolve_ids.
    rewrite Hi, Hf, (synthetic_ids_none _ Hn). simpl.
    destruct es; [|done]. by intros [= <-].
Qed.

Lemma main_without_ids_witness :
  main Since_3_13 no_files writable (with_num_ids (-5) small_run) 0 []
  = Some {| printed := []; written := writable;
            status := Uncaught (SystemExit "No item IDs provided.") |}.
Proof.
  assert (is_Some (main Since_3_13 no_files writable
                        (with_num_ids (-5) small_run) 0 []))
    as [o Ho] by (eexists; vm_compute; reflexivity).
  rewrite Ho. f_equal.
  exact (proj2 (main_without_ids Since_3_13 no_files writable
                  (with_num_ids (-5) small_run) 0 [] o eq_refl eq_refl
                  ltac:(simpl; lia) Ho)).
Defined.

End LoadTestCliFacts.

(** ** Further properties of main.py *)

Module SeederRunFacts.
Import Seeder SeederSpec SeederRunSpec.

(** *** Dictionaries *)

Lemma dict_get_is_Some {V} (d : dict V) (k : string) :
  is_Some (dict_get d k) ↔ k ∈ keys d.
Proof.
  unfold keys. induction d as [|[k0 v0] d IH]; simpl.
  - rewrite elem_of_nil. split; [by intros [? ?]|done].
  - rewrite elem_of_cons. destruct (decide (k = k0)) as [->|Hne].
    + split; [by left|by eexists].
    + rewrite IH. split; [by right|]. by intros [?|?].
Qed.

Lemma keys_dict_set {V} (k k' : string) (v : V) (d : dict V) :
  k' ∈ keys (dict_set k v d) ↔ k' = k ∨ k' ∈ keys d.
Proof.
  unfold keys. induction d as [|[k0 v0] d IH]; simpl.
  - rewrite list_elem_of_singleton, elem_of_nil. tauto.
  - destruct (decide (k = k0)) as [->|Hne]; simpl; rewrite !elem_of_cons.
    + tauto.
    + rewrite IH. tauto.
Qed.

Lemma NoDup_keys_dict_set {V} (k : string) (v : V) (d : dict V) :
  NoDup (keys d) → NoDup (keys (dict_set k v d)).
Proof.
  unfold keys. induction d as [|[k0 v0] d IH]; simpl.
  - intros _. apply NoDup_singleton.
  - rewrite !NoDup_cons. intros [Hk0 Hd].
    destruct (decide (k = k0)) as [->|Hne]; simpl; rewrite NoDup_cons.
    + done.
    + split; [|by apply IH].
      intros [?|?]%(keys_dict_set k k0 v d); [congruence|done].
Qed.

(** *** The categories of any number of roots and leaves *)

Lemma append_child_ok root_id leaf_id cats :
  root_id ∈ keys cats →
  ∃ cats', append_child root_id leaf_id cats = Ok cats'
    ∧ (∀ k, k ∈ keys cats' ↔ k ∈ keys cats)
    ∧ (NoDup (keys cats) → NoDup (keys cats')).
Proof.
  intros [d Hd]%dict_get_is_Some. unfold append_child. rewrite Hd.
  eexists. split; [done|]. split.
  - intros k. rewrite keys_dict_set. split; [|by right].
    intros [->|?]; [|done]. apply dict_get_is_Some. by eexists.
  - apply NoDup_keys_dict_set.
Qed.

Lemma leaves_loop r root_id (ls : list Z) : ∀ cats lv,
  root_id ∈ keys cats →
  ∃ cats',
    for_in ls (create_leaf r root_id) (cats, lv)
    = Ok (cats', lv ++ map (leaf_id_of r) ls)
    ∧ (∀ k, k ∈ keys cats' ↔ k ∈ keys cats ∨ k ∈ map (leaf_id_of r) ls)
    ∧ (NoDup (keys cats) → NoDup (keys cats')).
Proof.
  induction ls as [|l ls IH]; intros cats lv Hroot; simpl.
  - exists cats. rewrite app_nil_r. split; [done|].
    split; [|done]. intros k. rewrite elem_of_nil. tauto.
  - set (leaf := category_to_dict _).
    destruct (append_child_ok root_id (leaf_id_of r l)
                (dict_set (leaf_id_of r l) leaf cats))
      as (cats1 & -> & Hk1 & Hn1).
    { apply keys_dict_set. by right. }
    simpl.
    destruct (IH cats1 (lv ++ [leaf_id_of r l])) as (cats' & -> & Hk & Hn).
    { apply Hk1, keys_dict_set. by right. }
    exists cats'. rewrite <- app_assoc. split; [done|]. split.
    + intros k. rewrite Hk, Hk1, keys_dict_set, elem_of_cons. tauto.
    + intros Hnd. by apply Hn, Hn1, NoDup_keys_dict_set.
Qed.

Lemma roots_loop L (rs : list Z) : ∀ cats lv,
  ∃ cats',
    for_in rs (create_root L) (cats, lv)
    = Ok (cats',
          lv ++ concat (map (λ r, map (leaf_id_of r) (range2 1 (L + 1))) rs))
    ∧ (∀ k, k ∈ keys cats' ↔
            k ∈ keys cats ∨ k ∈ map root_id_of rs
            ∨ k ∈ concat (map (λ r, map (leaf_id_of r) (range2 1 (L + 1))) rs))
    ∧ (NoDup (keys cats) → NoDup (keys cats')).
Proof.
  induction rs as [|r rs IH]; intros cats lv; simpl.
  - exists cats. rewrite app_nil_r. split; [done|].
    split; [|done]. intros k. rewrite elem_of_nil. tauto.
  - set (root := category_to_dict _).
    destruct (leaves_loop r (root_id_of r) (range2 1 (L + 1))
                (dict_set (root_id_of r) root cats) lv)
      as (cats1 & -> & Hk1 & Hn1).
    { apply keys_dict_set. by left. }
    simpl.
    destruct (IH cats1 (lv ++ map (leaf_id_of r) (range2 1 (L + 1))))
      as (cats' & -> & Hk & Hn).
    exists cats'. rewrite <- app_assoc. split; [done|]. split.
    + intros k. rewrite Hk, Hk1, keys_dict_set, elem_of_cons, elem_of_app.
      tauto.
    + intros Hnd. by apply Hn, Hn1, NoDup_keys_dict_set.
Qed.

Lemma elem_of_grid {A} (f : Z → Z → A) (rs ls : list Z) (x : A) :
  x ∈ concat (map (λ r, map (f r) ls) rs)
  ↔ ∃ r l, r ∈ rs ∧ l ∈ ls ∧ x = f r l.
Proof.
  induction rs as [|r rs IH]; simpl.
  - rewrite elem_of_nil. split; [done|]. by intros (? & ? & ?%elem_of_nil & _).
  - rewrite elem_of_app, IH, list_elem_of_fmap. split.
    + intros [(l & -> & Hl)|(r' & l & Hr & Hl & ->)].
      * exists r, l. by rewrite elem_of_cons; auto.
      * exists r', l. by rewrite elem_of_cons; auto.
    + intros (r' & l & [->|Hr]%elem_of_cons & Hl & ->); [left|right]; eauto.
Qed.

Lemma elem_of_leaf_ids_of R L k :
  k ∈ leaf_ids_of R L ↔ ∃ r l, 1 ≤ r ≤ R ∧ 1 ≤ l ≤ L ∧ k = leaf_id_of r l.
Proof.
  unfold leaf_ids_of. rewrite elem_of_grid.
  setoid_rewrite elem_of_range2.
  split; intros (r & l & Hr & Hl & ->); exists r, l;
    (split; [lia|]; split; [lia|done]).
Qed.

Lemma length_grid {A} (f : Z → Z → A) (rs ls : list Z) :
  length (concat (map (λ r, map (f r) ls) rs)) = (length rs * length ls)%nat.
Proof.
  induction rs as [|r rs IH]; simpl; [done|].
  by rewrite length_app, length_map, IH.
Qed.

Lemma create_categories_ok R L :
  ∃ cats,
    create_categories R L = Ok (cats, leaf_ids_of R L)
    ∧ NoDup (keys cats)
    ∧ ∀ k, k ∈ keys cats ↔
           k ∈ map root_id_of (range2 1 (R + 1)) ∨ k ∈ leaf_ids_of R L.
Proof.
  unfold create_categories.
  destruct (roots_loop L (range2 1 (R + 1)) [] []) as (cats & H & Hk & Hn).
  exists cats. split; [exact H|]. split; [apply Hn, NoDup_nil_2|].
  intros k. rewrite Hk. unfold leaf_ids_of.
  split; [|by right]. intros [H0|?]; [|done]. by apply elem_of_nil in H0.
Qed.

(** X14. For any numbers of roots and of leaves per root
    [create_categories] succeeds: the look-up of the root that records a
    child never misses. The leaf identifiers returned are those of the
    leaves 1 to [L] of the roots 1 to [R], root by root, and an identifier
    is a key of the dictionary exactly when it is the identifier of one of
    these roots or leaves. *)
Theorem create_categories_any (R L : Z) :
  ∃ cats,
    create_categories R L = Ok (cats, leaf_ids_of R L)
    ∧ (∀ k, is_Some (dict_get cats k) ↔
            (∃ r, 1 ≤ r ≤ R ∧ k = root_id_of r)
            ∨ (∃ r l, 1 ≤ r ≤ R ∧ 1 ≤ l ≤ L ∧ k = leaf_id_of r l))
    ∧ len (leaf_ids_of R L) = Z.max 0 R * Z.max 0 L.
Proof.
  destruct (create_categories_ok R L) as (cats & H & _ & Hk).
  exists cats. split; [exact H|]. split.
  - intros k. rewrite dict_get_is_Some, Hk, elem_of_leaf_ids_of.
    rewrite list_elem_of_fmap. setoid_rewrite elem_of_range2.
    split; (intros [(r & Hr)|Hl]; [left; exists r|by right]).
    + destruct Hr as [-> Hr]. split; [lia|done].
    + destruct Hr as [Hr ->]. split; [done|lia].
  - unfold leaf_ids_of, len. rewrite length_grid, !length_range2. nia.
Qed.

(** *** When the leaf identifiers are distinct *)

Lemma NoDup_fmap_inj_on {A B} (f : A → B) (l : list A) x y :
  NoDup (map f l) → x ∈ l → y ∈ l → f x = f y → x = y.
Proof.
  induction l as [|z l IH]; simpl; [by intros _ ?%elem_of_nil|].
  rewrite NoDup_cons, !elem_of_cons. intros [Hz Hl] [->|Hx] [->|Hy] Hf.
  - done.
  - destruct Hz. rewrite Hf. apply list_elem_of_fmap. eauto.
  - destruct Hz. rewrite <- Hf. apply list_elem_of_fmap. eauto.
  - by apply IH.
Qed.

Lemma NoDup_grid {A} (f : Z → Z → A) (rs ls : list Z) :
  NoDup rs → NoDup ls →
  (NoDup (concat (map (λ r, map (f r) ls) rs))
   ↔ ∀ r r' l l', r ∈ rs → r' ∈ rs → l ∈ ls → l' ∈ ls →
       f r l = f r' l' → r = r' ∧ l = l').
Proof.
  intros Hrs Hls. induction Hrs as [|r rs Hr Hrs IH]; simpl.
  - split; [|intros _; apply NoDup_nil_2].
    by intros _ r r' l l' ?%elem_of_nil.
  - rewrite NoDup_app, IH. split.
    + intros (Hhead & Hdisj & Htail) r1 r2 l1 l2.
      rewrite !elem_of_cons. intros [->|H1] [->|H2] Hl1 Hl2 Hf.
      * split; [done|]. by eapply (NoDup_fmap_inj_on (f r)).
      * destruct (Hdisj (f r l1)).
        -- apply list_elem_of_fmap. eauto.
        -- rewrite Hf. apply elem_of_grid. eauto.
      * destruct (Hdisj (f r l2)).
        -- apply list_elem_of_fmap. eauto.
        -- rewrite <- Hf. apply elem_of_grid. eauto.
      * by apply Htail.
    + intros Hinj. split; [|split].
      * apply NoDup_fmap_2_strong; [|done].
        intros l1 l2 Hl1 Hl2 Hf.
        apply (Hinj r r l1 l2); rewrite ?elem_of_cons; auto.
      * intros x (l1 & -> & Hl1)%list_elem_of_fmap
               (r2 & l2 & Hr2 & Hl2 & Hf)%elem_of_grid.
        destruct (Hinj r r2 l1 l2) as [-> _]; rewrite ?elem_of_cons; auto.
      * intros r1 r2 l1 l2 H1 H2. apply Hinj; rewrite elem_of_cons; auto.
Qed.

(** Up to 99 an identifier part has two characters, and distinct numbers
    have distinct parts. *)
Lemma two_digits n :
  0 ≤ n ≤ 99 → ∃ a b, format_0w 2 n = String a (String b "").
Proof.
  intros Hn.
  assert (Forall (λ n, String.length (format_0w 2 n) = 2%nat) (range2 0 100))
    as HF by compute_done.
  rewrite Forall_forall in HF.
  specialize (HF n ltac:(apply elem_of_range2; lia)).
  destruct (format_0w 2 n) as [|a [|b [|c s]]]; try done. by exists a, b.
Qed.

Lemma two_digits_inj n m :
  0 ≤ n ≤ 99 → 0 ≤ m ≤ 99 → format_0w 2 n = format_0w 2 m → n = m.
Proof.
  intros Hn Hm.
  apply (NoDup_fmap_inj_on (format_0w 2) (range2 0 100));
    [compute_done|apply elem_of_range2; lia..].
Qed.

Lemma leaf_id_of_inj_99 r l r' l' :
  0 ≤ r ≤ 99 → 0 ≤ l ≤ 99 → 0 ≤ r' ≤ 99 → 0 ≤ l' ≤ 99 →
  leaf_id_of r l = leaf_id_of r' l' → r = r' ∧ l = l'.
Proof.
  intros Hr Hl Hr' Hl' H. unfold leaf_id_of in H.
  apply String.app_inj in H.
  destruct (two_digits r Hr) as (a & b & Ea).
  destruct (two_digits l Hl) as (c & d & Ec).
  destruct (two_digits r' Hr') as (a' & b' & Ea').
  destruct (two_digits l' Hl') as (c' & d' & Ec').
  split.
  - apply two_digits_inj; [done..|].
    rewrite Ea, Ea' in *. rewrite Ec, Ec' in H.
    injection H as -> -> _ _. done.
  - apply two_digits_inj; [done..|].
    rewrite Ec, Ec' in *. rewrite Ea, Ea' in H.
    injection H as _ _ -> ->. done.
Qed.

Lemma root_id_of_inj : Inj (=) (=) root_id_of.
Proof.
  intros i j H. apply String.app_inj, (inj pretty) in H. lia.
Qed.

Lemma root_not_leaf_99 r' r l :
  1 ≤ r' ≤ 99 → 0 ≤ r ≤ 99 → 0 ≤ l ≤ 99 → root_id_of r' ≠ leaf_id_of r l.
Proof.
  intros Hr' Hr Hl H. unfold root_id_of, leaf_id_of in H.
  apply String.app_inj in H.
  destruct (two_digits r Hr) as (a & b & Ea).
  destruct (two_digits l Hl) as (c & d & Ec).
  rewrite Ea, Ec in H.
  assert (Forall (λ n, String.length (str_of_int (1000 + n)) = 4%nat)
                 (range2 1 100)) as HF by compute_done.
  rewrite Forall_forall in HF.
  specialize (HF r' ltac:(apply elem_of_range2; lia)).
  rewrite H in HF. done.
Qed.

Lemma length_keys {V} (d : dict V) : length (keys d) = length d.
Proof. apply length_map. Qed.

(** X15. With at most 99 roots and at most 99 leaves per root, the two
    digits of the identifier scheme suffice: the leaf identifiers returned
    are all distinct, and the dictionary holds one category for every root
    and one for every leaf created. *)
Theorem leaf_ids_distinct_to_99 (R L : Z) :
  R ≤ 99 → L ≤ 99 →
  ∃ cats,
    create_categories R L = Ok (cats, leaf_ids_of R L)
    ∧ NoDup (leaf_ids_of R L)
    ∧ len cats = Z.max 0 R + Z.max 0 R * Z.max 0 L.
Proof.
  intros HR HL.
  destruct (create_categories_ok R L) as (cats & H & Hnd & Hk).
  assert (NoDup (leaf_ids_of R L)) as Hleaves.
  { apply NoDup_grid; [apply SeederFacts.NoDup_range2..|].
    intros r r' l l' Hr%elem_of_range2 Hr'%elem_of_range2
           Hl%elem_of_range2 Hl'%elem_of_range2.
    apply leaf_id_of_inj_99; lia. }
  exists cats. split; [exact H|]. split; [exact Hleaves|].
  assert (keys cats
          ≡ₚ map root_id_of (range2 1 (R + 1)) ++ leaf_ids_of R L) as Hp.
  { apply NoDup_Permutation; [done| |].
    - apply NoDup_app. split; [|split; [|done]].
      + apply (NoDup_fmap_2 root_id_of (Inj0:=root_id_of_inj)),
          SeederFacts.NoDup_range2.
      + intros k (r' & -> & Hr'%elem_of_range2)%list_elem_of_fmap
               (r & l & Hr & Hl & Hrl)%elem_of_leaf_ids_of.
        apply (root_not_leaf_99 r' r l); [lia..|done].
    - intros k. by rewrite Hk, elem_of_app. }
  apply Permutation_length in Hp.
  rewrite length_keys, length_app, length_map, length_range2 in Hp.
  unfold len. rewrite Hp. unfold leaf_ids_of.
  rewrite length_grid, !length_range2. nia.
Qed.

Lemma leaf_ids_distinct_to_99_witness :
  ∃ cats,
    create_categories 3 4 = Ok (cats, leaf_ids_of 3 4)
    ∧ NoDup (leaf_ids_of 3 4)
    ∧ len cats = 15.
Proof. apply (leaf_ids_distinct_to_99 3 4); lia. Defined.

(** X16. From 101 roots and 101 leaves per root on, the identifier scheme
    is ambiguous: leaf 101 of root 10 and leaf 1 of root 101 are both
    [MLA1010100]. The leaf identifiers returned then hold duplicates, and
    the dictionary holds fewer categories than were created, the later
    category replacing the earlier one. *)
Theorem leaf_ids_collide_from_101 (R L : Z) :
  101 ≤ R → 101 ≤ L →
  ∃ cats,
    create_categories R L = Ok (cats, leaf_ids_of R L)
    ∧ leaf_id_of 10 101 = leaf_id_of 101 1
    ∧ ¬ NoDup (leaf_ids_of R L)
    ∧ len cats < R + R * L.
Proof.
  intros HR HL.
  destruct (create_categories_ok R L) as (cats & H & Hnd & Hk).
  assert (¬ NoDup (leaf_ids_of R L)) as Hdup.
  { intros Hn.
    pose proof (proj1 (NoDup_grid leaf_id_of _ _
                         (SeederFacts.NoDup_range2 1 (R + 1))
                         (SeederFacts.NoDup_range2 1 (L + 1))) Hn) as Hinj.
    destruct (Hinj 10 101 101 1) as [? _];
      [apply elem_of_range2; lia..|by vm_compute|lia]. }
  exists cats. split; [exact H|]. split; [by vm_compute|].
  split; [exact Hdup|].
  set (ids := map root_id_of (range2 1 (R + 1)) ++ leaf_ids_of R L).
  assert (keys cats ⊆+ ids) as Hsub.
  { apply NoDup_submseteq; [done|].
    intros k. unfold ids. by rewrite Hk, elem_of_app. }
  assert (length ids = Z.to_nat (R + R * L)) as Hlen.
  { unfold ids, leaf_ids_of.
    rewrite length_app, length_map, length_grid, !length_range2. nia. }
  pose proof (submseteq_length _ _ Hsub) as Hle.
  destruct (decide (length ids ≤ length (keys cats))%nat) as [Hge|Hlt].
  - destruct Hdup.
    pose proof (submseteq_length_Permutation _ _ Hsub Hge) as Hp.
    rewrite Hp in Hnd. unfold ids in Hnd.
    by apply NoDup_app in Hnd as (_ & _ & ?).
  - rewrite length_keys in Hlt. unfold len. lia.
Qed.

Lemma leaf_ids_collide_from_101_witness :
  ∃ cats,
    create_categories 101 101 = Ok (cats, leaf_ids_of 101 101)
    ∧ len cats < 101 + 101 * 101.
Proof.
  destruct (leaf_ids_collide_from_101 101 101) as (cats & H & _ & _ & Hlen);
    [lia..|].
  exists cats. split; [exact H|exact Hlen].
Defined.

(** *** The fields of a product *)

Lemma rand_bind_inv {A B} (m : rand A) (f : A → rand B) e r :
  (m ≫= f) e = Ok r → ∃ a e1, m e = Ok (a, e1) ∧ f a e1 = Ok r.
Proof.
  unfold mbind, rand_bind. destruct (m e) as [[a e1]|x]; [|done]. eauto.
Qed.

Lemma choice_inv {A} (l : list A) e x e' :
  choice l e = Ok (x, e') → x ∈ l ∧ e' = next_draw e.
Proof.
  unfold choice. destruct (len l =? 0); [done|].
  intros (k & e1 & Hk & Hx)%rand_bind_inv.
  unfold randbelow in Hk. injection Hk as <- <-.
  unfold lift_result in Hx.
  destruct (getitem l _) as [y|] eqn:Hy; [|done].
  injection Hx as <- <-. split; [|done].
  by eapply LoadTestRunFacts.getitem_elem.
Qed.

Lemma randint_inv a b e x e' :
  randint a b e = Ok (x, e') → e' = next_draw e.
Proof.
  unfold randint. destruct (b <? a); [done|].
  intros (k & e1 & Hk & Hx)%rand_bind_inv.
  unfold randbelow in Hk. injection Hk as <- <-. by injection Hx as <- <-.
Qed.

Lemma generate_product_title_inv e t e' :
  generate_product_title e = Ok (t, e') →
  (∃ a i, a ∈ PRODUCT_ADJECTIVES ∧ i ∈ PRODUCT_ITEMS ∧ t = a +:+ " " +:+ i)
  ∧ e' = next_draw (next_draw e).
Proof.
  unfold generate_product_title.
  intros (a & e1 & [Ha ->]%choice_inv & H)%rand_bind_inv.
  apply rand_bind_inv in H as (i & e2 & [Hi ->]%choice_inv & H).
  injection H as <- <-. split; [|done]. by exists a, i.
Qed.

Lemma generate_dates_inv e r e' :
  generate_dates e = Ok (r, e') → e' = next_draw (next_draw (next_read e)).
Proof.
  unfold generate_dates, generate_datetimes.
  intros ([c u] & e1 & H & Hr)%rand_bind_inv. injection Hr as <- <-.
  apply rand_bind_inv in H as (now & e2 & Hnow & H).
  unfold utcnow in Hnow. injection Hnow as <- <-.
  apply rand_bind_inv in H as (days & e3 & ->%randint_inv & H).
  apply rand_bind_inv in H as (created & e4 & Hc & H).
  unfold lift_result in Hc. destruct (add_days _ _); [|done].
  injection Hc as <- <-.
  apply rand_bind_inv in H as (d & e5 & ->%randint_inv & H).
  apply rand_bind_inv in H as (updated & e6 & Hu & H).
  unfold lift_result in Hu. destruct (add_days _ _); [|done].
  injection Hu as <- <-. by injection H as <- <- <-.
Qed.

Lemma generate_product_price_spec e :
  ∃ n, generate_product_price e = Ok (fl (inject_Z n / 100), next_draw e)
    ∧ 1000 ≤ n ≤ 200000
    ∧ (10 <= fl (inject_Z n / 100) <= 2000)%Q.
Proof.
  unfold generate_product_price, uniform, randbelow, mbind, rand_bind, mret,
    rand_ret.
  pose proof (Z.mod_pos_bound (entropy e (drawn e)) (2 ^ 53) ltac:(lia)) as Hk.
  set (k := entropy e (drawn e) mod 2 ^ 53) in *.
  set (u := (inject_Z k / inject_Z (2 ^ 53))%Q).
  assert (0 < inject_Z (2 ^ 53))%Q as Hpos
    by (change 0%Q with (inject_Z 0); rewrite <- Zlt_Qlt; lia).
  assert (0 <= u)%Q as Hu0.
  { apply Qle_shift_div_l; [done|]. rewrite Qmult_0_l.
    change 0%Q with (inject_Z 0). rewrite <- Zle_Qle. lia. }
  assert (u < 1)%Q as Hu1.
  { apply Qlt_shift_div_r; [done|]. rewrite Qmult_1_l.
    rewrite <- Zlt_Qlt. lia. }
  assert (fl (2000 - 10) = 1990%Q) as -> by (vm_compute; reflexivity).
  assert (fl 10 = 10%Q) as H10 by (vm_compute; reflexivity).
  assert (fl 1990 = 1990%Q) as H1990 by (vm_compute; reflexivity).
  assert (fl 2000 = 2000%Q) as H2000 by (vm_compute; reflexivity).
  set (y := fl (1990 * u)).
  assert (0 <= y <= 1990)%Q as [Hy0 Hy1].
  { split; [apply FloatFacts.fl_nonneg; nra|].
    rewrite <- H1990. apply FloatFacts.fl_mono; nra. }
  set (x := fl (10 + y)).
  assert (10 <= x <= 2000)%Q as [Hx0 Hx1].
  { split.
    - rewrite <- H10 at 1. apply FloatFacts.fl_mono; lra.
    - rewrite <- H2000. apply FloatFacts.fl_mono; lra. }
  unfold round2. destruct (Qlt_le_dec x 0) as [Hneg|_]; [lra|].
  eexists. split; [reflexivity|].
  assert (Qabs x == x)%Q as Habs by (apply Qabs_pos; lra).
  assert (1000 ≤ round_half_even (Qabs x * 100) ≤ 200000) as Hn.
  { apply FloatFacts.rhe_bounds; rewrite Habs.
    - change (inject_Z 1000) with (1000 # 1). lra.
    - change (inject_Z 200000) with (200000 # 1). lra. }
  split; [exact Hn|].
  set (n := round_half_even (Qabs x * 100)) in *.
  assert (1000 <= inject_Z n <= 200000)%Q as [Hn0 Hn1].
  { change 1000%Q with (inject_Z 1000). change 200000%Q with (inject_Z 200000).
    rewrite <- !Zle_Qle. lia. }
  split.
  - rewrite <- H10 at 1. apply FloatFacts.fl_mono; [lra|].
    apply Qle_shift_div_l; lra.
  - rewrite <- H2000. apply FloatFacts.fl_mono.
    + apply Qle_shift_div_l; lra.
    + apply Qle_shift_div_r; lra.
Qed.

(** A draw whose price is a tie once the sum is rounded: [uniform] gives
    32.125 as a float, which [round] takes to the even 32.12. *)
Example price_of_a_tie :
  (r ← generate_product_price
         {| entropy := λ _, 100142856035751; drawn := 0;
            utc := λ _, 0; read := 0 |};
   Ok (Qeq_bool r.1 (fl (3212 # 100)), LoadTest.format_2f r.1))
  = Ok (true, "32.12").
Proof. vm_compute. reflexivity. Qed.

(** X17. Every product that [create_product] returns has the index in its
    identifier and the seller it was given; its title is one of the
    adjectives, a space and one of the items; its category is one of the
    leaf identifiers of the factory; its price is the float nearest to a
    whole number of hundredths, and lies between 10 and 2000; and making
    it takes six draws of the random generator and one reading of the
    clock. *)
Theorem create_product_fields (leaves : list string) (idx : Z)
    (seller : string) (e : env) (p : Product) (e' : env) :
  create_product leaves idx seller e = Ok (p, e') →
  id p = "MLA" +:+ str_of_int idx
  ∧ seller_id p = seller
  ∧ (∃ a i, a ∈ PRODUCT_ADJECTIVES ∧ i ∈ PRODUCT_ITEMS
            ∧ title p = a +:+ " " +:+ i)
  ∧ category_id p ∈ leaves
  ∧ (∃ n, price p = fl (inject_Z n / 100) ∧ 1000 ≤ n ≤ 200000)
  ∧ (10 <= price p <= 2000)%Q
  ∧ drawn e' = (drawn e + 6)%nat ∧ read e' = S (read e).
Proof.
  unfold create_product.
  intros (t & e1 & [Ht ->]%generate_product_title_inv & H)%rand_bind_inv.
  apply rand_bind_inv in H as (c & e2 & [Hc ->]%choice_inv & H).
  apply rand_bind_inv in H as (pr & e3 & Hpr & H).
  destruct (generate_product_price_spec (next_draw (next_draw (next_draw e))))
    as (n & Hn & Hbounds & Hprice).
  rewrite Hn in Hpr. injection Hpr as <- <-.
  apply rand_bind_inv in H as ([created updated] & e4 & ->%generate_dates_inv & H).
  injection H as <- <-. simpl.
  split; [done|]. split; [done|]. split; [done|]. split; [done|].
  split; [by exists n|]. split; [exact Hprice|]. split; [lia|done].
Qed.

Lemma create_product_fields_witness :
  ∃ p e', create_product ["L1"; "L2"; "L3"] 7 "SELLER_1" sample_env = Ok (p, e')
    ∧ id p = "MLA7" ∧ drawn e' = 6%nat ∧ read e' = 1%nat.
Proof.
  destruct (create_product ["L1"; "L2"; "L3"] 7 "SELLER_1" sample_env)
    as [[p e']|x] eqn:Hp.
  - destruct (create_product_fields _ _ _ _ _ _ Hp)
      as (Hid & _ & _ & _ & _ & _ & Hd & Hr).
    exists p, e'. split; [reflexivity|]. split; [exact Hid|].
    split; [exact Hd|exact Hr].
  - assert (create_product ["L1"; "L2"; "L3"] 7 "SELLER_1" sample_env
            ≫= (λ r, Ok (drawn r.2)) = Ok 6%nat) as H6
      by (vm_compute; reflexivity).
    rewrite Hp in H6. discriminate H6.
Defined.

(** *** A seeder without leaves *)

Lemma new_seeder_fields S P R L items cats sd :
  new_seeder S P R L items cats = Ok sd →
  ∃ cd,
    create_categories R L = Ok (cd, leaf_ids_of R L)
    ∧ NoDup (keys cd)
    ∧ sd = {| num_sellers := S; products_per_seller := P;
              items_file := items; categories_file := cats;
              categories_dict := cd; leaf_ids := leaf_ids_of R L;
              product_repo := []; category_repo := bulk_add cd [] |}.
Proof.
  unfold new_seeder.
  destruct (create_categories_ok R L) as (cd & -> & Hnd & _). simpl.
  intros [= <-]. by exists cd.
Qed.

Lemma create_product_no_leaves idx seller e :
  create_product [] idx seller e = Raise IndexError.
Proof.
  unfold create_product.
  destruct (SeederFacts.generate_product_title_ok e) as (t & Ht).
  by rewrite (SeederFacts.rand_bind_ok _ _ _ _ _ Ht).
Qed.

(** X18. A seeder made with no root or with no leaf per root has no leaf
    identifier to choose from: when there is a product to make, [run]
    fails with [IndexError], raised by [random.choice] for the category of
    the first product, and saves nothing. *)
Theorem run_without_leaves (S P R L : Z) (items cats : string)
    (sd : ProductSeeder) (e : env) (d : disk) :
  new_seeder S P R L items cats = Ok sd →
  R ≤ 0 ∨ L ≤ 0 → 1 ≤ S → 1 ≤ P →
  leaf_ids sd = [] ∧ run sd e d = Raise IndexError.
Proof.
  intros (cd & _ & _ & ->)%new_seeder_fields HRL HS HP. simpl.
  assert (leaf_ids_of R L = []) as Hnil.
  { apply length_zero_iff_nil. unfold leaf_ids_of.
    rewrite length_grid, !length_range2. nia. }
  split; [done|]. unfold run, seed_products. simpl. rewrite Hnil.
  destruct (generate_seller_ids S) as [|s ss] eqn:Hs.
  { apply (f_equal length) in Hs. unfold generate_seller_ids in Hs.
    rewrite length_map, length_range2 in Hs. simpl in Hs. lia. }
  destruct (range1 P) as [|i rest] eqn:Hi.
  { apply (f_equal length) in Hi. rewrite length_range1 in Hi.
    simpl in Hi. lia. }
  simpl. by rewrite create_product_no_leaves.
Qed.

Lemma run_without_leaves_witness :
  ∃ sd, new_seeder 2 3 0 10 PRODUCTS_FILE CATEGORIES_FILE = Ok sd
    ∧ run sd sample_env sample_disk = Raise IndexError.
Proof.
  destruct (new_seeder 2 3 0 10 PRODUCTS_FILE CATEGORIES_FILE) as [sd|] eqn:Hsd;
    [|by vm_compute in Hsd].
  exists sd. split; [reflexivity|].
  apply (run_without_leaves 2 3 0 10 PRODUCTS_FILE CATEGORIES_FILE sd);
    [exact Hsd|left; lia|lia|lia].
Defined.

(** *** What [run] saves and reports *)

Lemma dict_update_fresh {V} (new : dict V) : ∀ acc,
  NoDup (keys (acc ++ new)) → dict_update new acc = acc ++ new.
Proof.
  unfold dict_update, keys.
  induction new as [|[k v] new IH]; intros acc Hnd; simpl.
  - by rewrite app_nil_r.
  - rewrite SeederFacts.dict_set_fresh.
    + rewrite IH; rewrite <- app_assoc; done.
    + rewrite map_app in Hnd. apply NoDup_app in Hnd as (_ & Hd & _).
      intros Hk. apply (Hd k Hk). simpl. apply elem_of_cons. by left.
Qed.

Lemma bulk_add_empty {V} (new : dict V) :
  NoDup (keys new) → bulk_add new [] = new.
Proof. intros Hnd. unfold bulk_add. by rewrite dict_update_fresh. Qed.

Lemma dict_get_set_other {V} (k k' : string) (v : V) (d : dict V) :
  k' ≠ k → dict_get (dict_set k v d) k' = dict_get d k'.
Proof.
  intros Hne. induction d as [|[k0 v0] d IH]; simpl.
  - by destruct (decide (k' = k)).
  - destruct (decide (k = k0)) as [->|]; simpl; [|by rewrite IH].
    by destruct (decide (k' = k0)).
Qed.

Lemma run_saves (S P R L : Z) (items cats : string) (sd : ProductSeeder)
    (e : env) (d : disk) :
  0 ≤ S → 0 ≤ P →
  new_seeder S P R L items cats = Ok sd →
  leaf_ids sd ≠ [] → clock_ok e →
  writable d cats = true → writable d items = true →
  ∃ out cd,
    run sd e d = Ok out
    ∧ create_categories R L = Ok (cd, leaf_ids sd)
    ∧ category_repo (seeder out) = cd
    ∧ len (product_repo (seeder out)) = S * P
    ∧ files (storage out)
      = dict_set items (ProductsJson (product_repo (seeder out)))
          (dict_set cats (CategoriesJson cd) (files d))
    ∧ stdout out
      = "✅ " +:+ cats +:+ ": " +:+ str_of_int (len cd) +:+ " categorías"
        +:+ String (ascii_of_N 10) "✅ " +:+ items +:+ ": "
        +:+ str_of_int (S * P) +:+ " productos".
Proof.
  intros HS HP Hnew Hl Hc Hwc Hwi.
  destruct (new_seeder_fields _ _ _ _ _ _ _ Hnew) as (cd & Hcd & Hnd & ->).
  simpl in Hl.
  destruct (SeederFacts.seed_products_ok
              {| num_sellers := S; products_per_seller := P;
                 items_file := items; categories_file := cats;
                 categories_dict := cd; leaf_ids := leaf_ids_of R L;
                 product_repo := []; category_repo := bulk_add cd [] |} e)
    as (ps & e' & Hseed & Hids & _); [done..|].
  simpl in Hseed, Hids.
  assert (len (map entry ps) = S * P) as Hlen.
  { unfold len. rewrite length_map, <- (length_map id), Hids, length_map,
      length_range2. nia. }
  eexists _, cd. split.
  { unfold run. rewrite Hseed. simpl.
    rewrite (SeederFacts.save_ok cats) by done. simpl.
    rewrite (SeederFacts.save_ok items) by done. reflexivity. }
  simpl. rewrite (bulk_add_empty cd Hnd), Hlen. done.
Qed.

(** X19. A run that succeeds leaves two files: the products in the items
    file and, when the two paths differ, the dictionary that
    [create_categories] returned in the categories file; every other file
    is as it was. The line it prints gives the number of categories in the
    dictionary and [S * P] products. When the two paths are the same, the
    products replace the categories. *)
Theorem run_saves_two_files (S P R L : Z) (items cats : string)
    (sd : ProductSeeder) (e : env) (d : disk) :
  0 ≤ S → 0 ≤ P →
  new_seeder S P R L items cats = Ok sd →
  leaf_ids sd ≠ [] → clock_ok e →
  writable d cats = true → writable d items = true →
  ∃ out cd,
    run sd e d = Ok out
    ∧ create_categories R L = Ok (cd, leaf_ids sd)
    ∧ dict_get (files (storage out)) items
      = Some (ProductsJson (product_repo (seeder out)))
    ∧ (items ≠ cats →
       dict_get (files (storage out)) cats = Some (CategoriesJson cd))
    ∧ (∀ f, f ≠ items → f ≠ cats →
         dict_get (files (storage out)) f = dict_get (files d) f)
    ∧ stdout out
      = "✅ " +:+ cats +:+ ": " +:+ str_of_int (len cd) +:+ " categorías"
        +:+ String (ascii_of_N 10) "✅ " +:+ items +:+ ": "
        +:+ str_of_int (S * P) +:+ " productos".
Proof.
  intros HS HP Hnew Hl Hc Hwc Hwi.
  destruct (run_saves S P R L items cats sd e d)
    as (out & cd & Hrun & Hcd & _ & _ & Hfiles & Hout); [done..|].
  exists out, cd. split; [done|]. split; [done|]. rewrite Hfiles.
  split; [apply SeederFacts.dict_get_set|]. split; [|split; [|done]].
  - intros Hne. rewrite dict_get_set_other by done.
    apply SeederFacts.dict_get_set.
  - intros f Hfi Hfc. by rewrite !dict_get_set_other.
Qed.

Lemma run_saves_two_files_witness :
  ∃ sd out,
    new_seeder 3 4 5 10 PRODUCTS_FILE CATEGORIES_FILE = Ok sd
    ∧ run sd sample_env sample_disk = Ok out
    ∧ dict_get (files (storage out)) "other.json" = None.
Proof.
  destruct (new_seeder 3 4 5 10 PRODUCTS_FILE CATEGORIES_FILE) as [sd|] eqn:Hsd;
    [|by vm_compute in Hsd].
  destruct (run_saves_two_files 3 4 5 10 PRODUCTS_FILE CATEGORIES_FILE sd
              sample_env sample_disk)
    as (out & cd & Hrun & _ & _ & _ & Hother & _).
  - lia.
  - lia.
  - exact Hsd.
  - intros Hnil.
    assert (new_seeder 3 4 5 10 PRODUCTS_FILE CATEGORIES_FILE
            ≫= (λ sd, Ok (length (leaf_ids sd))) = Ok 50%nat) as H50
      by (vm_compute; reflexivity).
    rewrite Hsd in H50. simpl in H50. by rewrite Hnil in H50.
  - intros n. unfold sample_env, DATETIME_MAX, DAY. simpl. lia.
  - reflexivity.
  - reflexivity.
  - exists sd, out. split; [reflexivity|]. split; [exact Hrun|].
    apply Hother; discriminate.
Defined.

(** X20. The script as it is configured: whenever the clock can be read
    and the two files can be written, it makes 1000 * 1000 products and 55
    categories, and prints these two numbers with the two paths. *)
Theorem main_configured (e : env) (d : disk) :
  clock_ok e →
  writable d CATEGORIES_FILE = true → writable d PRODUCTS_FILE = true →
  ∃ out,
    main e d = Ok out
    ∧ len (product_repo (seeder out)) = 1000000
    ∧ len (category_repo (seeder out)) = 55
    ∧ stdout out
      = "✅ ./items/data/categories.json: 55 categorías"
        +:+ String (ascii_of_N 10)
              "✅ ./items/data/items.json: 1000000 productos".
Proof.
  intros Hc Hwc Hwi. unfold main.
  destruct (new_seeder TOTAL_SELLERS PRODUCTS_PER_SELLER ROOT_CATEGORIES
              LEAVES_PER_ROOT PRODUCTS_FILE CATEGORIES_FILE) as [sd|] eqn:Hsd;
    [|by vm_compute in Hsd].
  assert (length (leaf_ids sd) = 50%nat) as H50.
  { destruct (new_seeder_fields _ _ _ _ _ _ _ Hsd) as (cd & _ & _ & ->).
    by vm_compute. }
  destruct (run_saves TOTAL_SELLERS PRODUCTS_PER_SELLER ROOT_CATEGORIES
              LEAVES_PER_ROOT PRODUCTS_FILE CATEGORIES_FILE sd e d)
    as (out & cd & Hrun & Hcd & Hrepo & Hlen & _ & Hout);
    [done|done|exact Hsd| |exact Hc|exact Hwc|exact Hwi|].
  { intros Hnil. by rewrite Hnil in H50. }
  assert (len cd = 55) as H55.
  { assert (create_categories ROOT_CATEGORIES LEAVES_PER_ROOT
            ≫= (λ r, Ok (len r.1)) = Ok 55) as H
      by (vm_compute; reflexivity).
    rewrite Hcd in H. by injection H. }
  exists out. simpl. split; [exact Hrun|].
  split; [exact Hlen|]. split; [by rewrite Hrepo|].
  rewrite Hout, H55. by vm_compute.
Qed.

Lemma main_configured_witness :
  ∃ out, main sample_env sample_disk = Ok out
    ∧ len (product_repo (seeder out)) = 1000000.
Proof.
  destruct (main_configured sample_env sample_disk)
    as (out & Hrun & Hlen & _).
  - intros n. unfold sample_env, DATETIME_MAX, DAY. simpl. lia.
  - reflexivity.
  - reflexivity.
  - exists out. split; [exact Hrun|exact Hlen].
Defined.

(** *** The repository *)

Lemma length_dict_set {V} (k : string) (v : V) (d : dict V) :
  length (dict_set k v d)
  = (length d + if dict_get d k is Some _ then 0 else 1)%nat.
Proof.
  induction d as [|[k0 v0] d IH]; simpl; [done|].
  destruct (decide (k = k0)); simpl; [lia|]. rewrite IH. lia.
Qed.

(** X21. After [add], the repository holds the object under its
    identifier and every other entry as before; its size grows by one when
    the identifier is new, and stays the same when an object is
    replaced. *)
Theorem repository_add {V} (obj_id : string) (obj : V) (data : dict V) :
  dict_get (add obj_id obj data) obj_id = Some obj
  ∧ (∀ k, k ≠ obj_id → dict_get (add obj_id obj data) k = dict_get data k)
  ∧ len (add obj_id obj data)
    = len data + (if dict_get data obj_id is Some _ then 0 else 1).
Proof.
  unfold add. split; [apply SeederFacts.dict_get_set|].
  split; [intros k Hk; by apply dict_get_set_other|].
  unfold len. rewrite length_dict_set. destruct (dict_get data obj_id); lia.
Qed.

End SeederRunFacts.
